(** * Elixir: Critical Path Method scheduling (elixir.cpp)

    A shallow embedding of the scheduling engine of [elixir.cpp] and a
    verification of its forward pass, successor population, backward pass and
    slack computation, followed by the reader of [tasks.csv] and the writers
    of [output.csv] and [timeline.csv].

    Conventions of the embedding:
    - C++ [int] is a 32-bit two's complement integer, modelled as [Z] with the
      wrap-around of [+] and [-] written out ([int_add], [int_sub]).  Signed
      overflow is undefined in C++; on a valid input no operation of the
      passes overflows, so the results proved for valid inputs do not depend
      on the wrap-around.
    - [vector<Task>] is a [list Task]; a reference into the vector is an index,
      and an assignment through the reference is a list insert at that index.
    - An uncaught [std::runtime_error] is the outcome [Throws what].
    - Recursion of the C++ functions is bounded by a [fuel] argument that
      counts the call depth; [OutOfFuel] stands for a recursion deeper than
      the bound (unbounded recursion is [OutOfFuel] at every fuel).
    - A file is the string of its contents; [std::getline] and [std::stoi]
      are modelled after the C++ standard, and an access beyond the end of a
      vector is an outcome of its own. *)

From Stdlib Require Import ZArith Lia Ascii.
From stdpp Require Import base tactics option list relations sorting strings pretty.

Local Open Scope Z_scope.

(** ** Machine integers *)

Definition INT_MAX : Z := 2147483647.
Definition INT_MIN : Z := -2147483648.

Definition wrap (z : Z) : Z := (z + 2147483648) mod 4294967296 - 2147483648.

Definition int_add (a b : Z) : Z := wrap (a + b).
Definition int_sub (a b : Z) : Z := wrap (a - b).

Definition in_int (z : Z) : Prop := INT_MIN ≤ z ≤ INT_MAX.

(** ** The task structure *)

Record Task : Type := mkTask {
  name : string;
  duration : Z;
  dependencies : list string;
  successors : list string;
  ES : Z;
  EF : Z;
  LS : Z;
  LF : Z;
  slack : Z
}.

Definition set_successors (v : list string) (t : Task) : Task :=
  mkTask (name t) (duration t) (dependencies t) v (ES t) (EF t) (LS t) (LF t) (slack t).
Definition set_ES (v : Z) (t : Task) : Task :=
  mkTask (name t) (duration t) (dependencies t) (successors t) v (EF t) (LS t) (LF t) (slack t).
Definition set_EF (v : Z) (t : Task) : Task :=
  mkTask (name t) (duration t) (dependencies t) (successors t) (ES t) v (LS t) (LF t) (slack t).
Definition set_LS (v : Z) (t : Task) : Task :=
  mkTask (name t) (duration t) (dependencies t) (successors t) (ES t) (EF t) v (LF t) (slack t).
Definition set_LF (v : Z) (t : Task) : Task :=
  mkTask (name t) (duration t) (dependencies t) (successors t) (ES t) (EF t) (LS t) v (slack t).
Definition set_slack (v : Z) (t : Task) : Task :=
  mkTask (name t) (duration t) (dependencies t) (successors t) (ES t) (EF t) (LS t) (LF t) v.

(** The constructor [Task(taskName, taskDuration, deps)] initialises the name,
    the duration and the dependencies; [successors] is default-constructed
    (empty) and the five timing fields are left indeterminate.  A task list as
    [loadCSV] returns it is therefore any list of tasks whose [successors] are
    empty; the timing fields are arbitrary. *)
Definition constructed (t : Task) : Prop := successors t = [].

(** ** Outcomes of a call *)

Inductive outcome (A : Type) : Type :=
| Returns (a : A)
| Throws (what : string)
| OutOfFuel.
Arguments Returns {A} a.
Arguments Throws {A} what.
Arguments OutOfFuel {A}.

Definition bind {A B : Type} (m : outcome A) (k : A → outcome B) : outcome B :=
  match m with
  | Returns a => k a
  | Throws what => Throws what
  | OutOfFuel => OutOfFuel
  end.

Notation "'let*' x ':=' m 'in' k" := (bind m (fun x => k))
  (at level 10, x name, m at level 100, k at level 200).

Definition returns {A : Type} (m : outcome A) : Prop := ∃ a, m = Returns a.

(** ** Lookup by name *)

Definition not_found (name0 : string) : string := "Task not found: " +:+ name0.

(** [getTaskFromList]: the first task of the list with that name, or the
    [runtime_error]. *)
Fixpoint getTaskFromList (name0 : string) (taskList : list Task) : outcome Task :=
  match taskList with
  | [] => Throws (not_found name0)
  | t :: rest =>
      if decide (name t = name0) then Returns t else getTaskFromList name0 rest
  end.

(** [getTaskObjectFromList]: the same scan, returning a mutable reference, that
    is the position of the task in the vector. *)
Fixpoint getTaskObjectFromList (name0 : string) (taskList : list Task) : outcome nat :=
  match taskList with
  | [] => Throws (not_found name0)
  | t :: rest =>
      if decide (name t = name0) then Returns 0%nat
      else let* i := getTaskObjectFromList name0 rest in Returns (S i)
  end.

(** ** Range-for over the vector with in-place mutation

    [for (Task& task : taskList) body] visits the positions [0 .. size-1] in
    order; the body sees the vector as the earlier iterations left it.  None
    of the loops changes the size of the vector. *)
Fixpoint for_range (body : nat → list Task → outcome (list Task))
    (i n : nat) (taskList : list Task) : outcome (list Task) :=
  match n with
  | O => Returns taskList
  | S n' => let* taskList' := body i taskList in for_range body (S i) n' taskList'
  end.

Definition for_each_task (body : nat → Task → list Task → outcome (list Task))
    (taskList : list Task) : outcome (list Task) :=
  for_range
    (fun i l => match l !! i with Some task => body i task l | None => Returns l end)
    0 (length taskList) taskList.

(** ** Forward pass *)

(** The loop over [task.dependencies] of [getEarlyStartScore]; [rec] is the
    recursive call. *)
Fixpoint earlyLoop (rec : Task → outcome Z) (taskList : list Task)
    (deps : list string) (ES0 : Z) : outcome Z :=
  match deps with
  | [] => Returns ES0
  | depName :: rest =>
      let* depTask := getTaskFromList depName taskList in
      let* score := rec depTask in
      let depEF := int_add score (duration depTask) in
      earlyLoop rec taskList rest (if decide (depEF > ES0) then depEF else ES0)
  end.

Fixpoint getEarlyStartScore (fuel : nat) (task : Task) (taskList : list Task)
    : outcome Z :=
  match fuel with
  | O => OutOfFuel
  | S fuel' =>
      match dependencies task with
      | [] => Returns 0
      | _ :: _ =>
          earlyLoop (fun depTask => getEarlyStartScore fuel' depTask taskList)
            taskList (dependencies task) 0
      end
  end.

Definition updateAllEarlyVars (fuel : nat) (taskList : list Task)
    : outcome (list Task) :=
  for_each_task (fun i task l =>
    let* score := getEarlyStartScore fuel task l in
    let task1 := set_ES score task in
    let task2 := set_EF (int_add (ES task1) (duration task1)) task1 in
    Returns (<[i := task2]> l)) taskList.

(** ** Successors *)

(** The inner loop of [populateSuccessors] for the task named [tname]:
    [depTask.successors.push_back(t.name)] through the reference that
    [getTaskObjectFromList] returns.  The loop never writes a name or a
    dependency list, so [t.name] and [t.dependencies] are read once. *)
Fixpoint pushSuccessor (tname : string) (deps : list string) (taskList : list Task)
    : outcome (list Task) :=
  match deps with
  | [] => Returns taskList
  | depName :: rest =>
      let* j := getTaskObjectFromList depName taskList in
      pushSuccessor tname rest
        (alter (fun depTask => set_successors (successors depTask ++ [tname]) depTask)
           j taskList)
  end.

Definition populateSuccessors (taskList : list Task) : outcome (list Task) :=
  for_each_task (fun _ t l => pushSuccessor (name t) (dependencies t) l) taskList.

(** ** Backward pass *)

Fixpoint lateLoop (rec : Task → outcome Z) (taskList : list Task)
    (succs : list string) (LF0 : Z) : outcome Z :=
  match succs with
  | [] => Returns LF0
  | sName :: rest =>
      let* sTask := getTaskFromList sName taskList in
      let* score := rec sTask in
      let sLS := int_sub score (duration sTask) in
      lateLoop rec taskList rest (if decide (sLS < LF0) then sLS else LF0)
  end.

Fixpoint getLateFinishScore (fuel : nat) (task : Task) (taskList : list Task)
    : outcome Z :=
  match fuel with
  | O => OutOfFuel
  | S fuel' =>
      match successors task with
      | [] => Returns (EF task)
      | _ :: _ =>
          lateLoop (fun sTask => getLateFinishScore fuel' sTask taskList)
            taskList (successors task) INT_MAX
      end
  end.

Definition updateAllLateVars (fuel : nat) (taskList : list Task)
    : outcome (list Task) :=
  for_each_task (fun i task l =>
    let* score := getLateFinishScore fuel task l in
    let task1 := set_LF score task in
    let task2 := set_LS (int_sub (LF task1) (duration task1)) task1 in
    Returns (<[i := task2]> l)) taskList.

(** ** Slack *)

Definition updateAllSlack (taskList : list Task) : outcome (list Task) :=
  for_each_task (fun i task l =>
    Returns (<[i := set_slack (int_sub (LS task) (ES task)) task]> l)) taskList.

(** ** Output

    The two files are modelled by their contents.  [pretty] prints an integer
    in decimal, as [operator<<] does. *)

Definition endl : string := String (Ascii.ascii_of_nat 10) EmptyString.

Definition outputTaskCSV (taskList : list Task) : string :=
  fold_left (fun file t =>
    file +:+ name t +:+ "," +:+ pretty (duration t) +:+ "," +:+ pretty (ES t) +:+ ","
      +:+ pretty (EF t) +:+ "," +:+ pretty (LS t) +:+ "," +:+ pretty (LF t) +:+ ","
      +:+ pretty (slack t) +:+ endl)
    taskList ("task,duration,ES,EF,LS,LF,slack" +:+ endl).

(** The project length that [outputTimelineCSV] determines first. *)
Definition projectLength (taskList : list Task) : Z :=
  fold_left (fun len t => if decide (EF t > len) then EF t else len) taskList 0.

Definition timelineCell (t : Task) (time : Z) : string :=
  if decide (time >= ES t ∧ time < EF t)
  then (if decide (slack t = 0) then ",C" else ",X")
  else ",O".

Definition outputTimelineCSV (taskList : list Task) : string :=
  let times := seqZ 0 (projectLength taskList) in
  let header :=
    fold_left (fun file time => file +:+ "," +:+ pretty time) times "Task" +:+ endl in
  fold_left (fun file t =>
    fold_left (fun file time => file +:+ timelineCell t time) times (file +:+ name t)
      +:+ endl)
    taskList header.

(** ** The program

    [tasks] is the vector that [loadCSV] returned (the reader itself is
    modelled further down).  [run_passes] is the body of [main] between
    loading and writing; [main] returns the contents of [output.csv] and
    [timeline.csv], and both files are assumed to open. *)

Definition run_passes (fuel : nat) (tasks : list Task) : outcome (list Task) :=
  let* tasks1 := updateAllEarlyVars fuel tasks in
  let* tasks2 := populateSuccessors tasks1 in
  let* tasks3 := updateAllLateVars fuel tasks2 in
  updateAllSlack tasks3.

Definition main (fuel : nat) (tasks : list Task) : outcome (string * string) :=
  let* tasks' := run_passes fuel tasks in
  Returns (outputTaskCSV tasks', outputTimelineCSV tasks').

(** ** The scenarios of the source's header comment *)

Definition task (taskName : string) (taskDuration : Z) (deps : list string) : Task :=
  mkTask taskName taskDuration deps [] 0 0 0 0 0.

Definition example_tasks : list Task :=
  [task "a" 2 []; task "b" 3 ["a"]; task "c" 2 ["a"]; task "d" 5 ["b"; "c"]].

(** ** Counting the evaluations

    The two recursions once more, returning next to the score the names of
    the tasks on which the function was entered, in call order. *)

Fixpoint earlyLoop_calls (rec : Task → outcome (Z * list string))
    (taskList : list Task) (deps : list string) (ES0 : Z) (calls : list string)
    : outcome (Z * list string) :=
  match deps with
  | [] => Returns (ES0, calls)
  | depName :: rest =>
      let* depTask := getTaskFromList depName taskList in
      let* r := rec depTask in
      let depEF := int_add (fst r) (duration depTask) in
      earlyLoop_calls rec taskList rest
        (if decide (depEF > ES0) then depEF else ES0) (calls ++ snd r)
  end.

Fixpoint getEarlyStartScore_calls (fuel : nat) (task : Task) (taskList : list Task)
    : outcome (Z * list string) :=
  match fuel with
  | O => OutOfFuel
  | S fuel' =>
      match dependencies task with
      | [] => Returns (0, [name task])
      | _ :: _ =>
          earlyLoop_calls
            (fun depTask => getEarlyStartScore_calls fuel' depTask taskList)
            taskList (dependencies task) 0 [name task]
      end
  end.

Fixpoint lateLoop_calls (rec : Task → outcome (Z * list string))
    (taskList : list Task) (succs : list string) (LF0 : Z) (calls : list string)
    : outcome (Z * list string) :=
  match succs with
  | [] => Returns (LF0, calls)
  | sName :: rest =>
      let* sTask := getTaskFromList sName taskList in
      let* r := rec sTask in
      let sLS := int_sub (fst r) (duration sTask) in
      lateLoop_calls rec taskList rest
        (if decide (sLS < LF0) then sLS else LF0) (calls ++ snd r)
  end.

Fixpoint getLateFinishScore_calls (fuel : nat) (task : Task) (taskList : list Task)
    : outcome (Z * list string) :=
  match fuel with
  | O => OutOfFuel
  | S fuel' =>
      match successors task with
      | [] => Returns (EF task, [name task])
      | _ :: _ =>
          lateLoop_calls
            (fun sTask => getLateFinishScore_calls fuel' sTask taskList)
            taskList (successors task) INT_MAX [name task]
      end
  end.

(** The score of an instrumented call. *)
Definition score {A} (m : outcome (Z * A)) : outcome Z :=
  let* r := m in Returns (fst r).

(** How often [x] was evaluated. *)
Definition evaluations (x : string) (calls : list string) : nat :=
  length (filter (fun y => y = x) calls).

(** ** Reading [tasks.csv]

    The input file is modelled by its contents: [None] is a file that cannot
    be opened, [Some content] the characters of one that can.  The library
    functions are modelled after the C++ standard:
    - [std::getline(stream, item, delim)] extracts characters up to the next
      [delim], which it discards, or up to the end of the stream; it fails,
      and ends a [while (getline (...))] loop, only when it extracts nothing
      at all, that is on an exhausted stream.
    - [std::stoi(str)] skips leading white space, reads an optional sign and
      then decimal digits up to the first character that is none; it throws
      [std::invalid_argument] when there is no digit to read and
      [std::out_of_range] when the value is not an [int].
    - [row[i]] beyond the end of the vector is undefined behaviour, the
      outcome [OutOfBounds]. *)

(** The characters before the first [delim] of the stream, and what is left
    of the stream behind it. *)
Fixpoint read_until (delim : ascii) (stream : string) : string * string :=
  match stream with
  | EmptyString => (EmptyString, EmptyString)
  | String c rest =>
      if decide (c = delim) then (EmptyString, rest)
      else let r := read_until delim rest in (String c (fst r), snd r)
  end.

Definition getline (delim : ascii) (stream : string) : option (string * string) :=
  match stream with
  | EmptyString => None
  | String _ _ => Some (read_until delim stream)
  end.

(** [while (getline(stream, item, delim)) a = body a item].  Every round
    consumes a character, so that [length stream + 1] rounds are enough;
    [fuel] is that bound. *)
Fixpoint while_getline {A : Type} (fuel : nat) (delim : ascii)
    (body : A → string → A) (stream : string) (a : A) : A :=
  match fuel with
  | O => a
  | S fuel' =>
      match getline delim stream with
      | None => a
      | Some (item, rest) => while_getline fuel' delim body rest (body a item)
      end
  end.

Definition splitDependencies (s : string) (separator : ascii) : list string :=
  while_getline (S (String.length s)) separator
    (fun result item => if decide (item = EmptyString) then result else result ++ [item])
    s [].

(** What loading can end in: a value, one of the two exceptions of [stoi], or
    an access beyond the end of [row]. *)
Inductive parse (A : Type) : Type :=
| Parsed (a : A)
| InvalidArgument
| OutOfRange
| OutOfBounds.
Arguments Parsed {A} a.
Arguments InvalidArgument {A}.
Arguments OutOfRange {A}.
Arguments OutOfBounds {A}.

Definition parse_bind {A B : Type} (m : parse A) (k : A → parse B) : parse B :=
  match m with
  | Parsed a => k a
  | InvalidArgument => InvalidArgument
  | OutOfRange => OutOfRange
  | OutOfBounds => OutOfBounds
  end.

(** [isspace] in the "C" locale: space, and tab to carriage return. *)
Definition isspace (c : ascii) : bool :=
  let n := nat_of_ascii c in
  bool_decide (n = 32 ∨ 9 ≤ n ≤ 13)%nat.

Definition digit_value (c : ascii) : option Z :=
  let n := Z.of_nat (nat_of_ascii c) in
  if decide (48 ≤ n ≤ 57) then Some (n - 48) else None.

Fixpoint skip_space (s : string) : string :=
  match s with
  | EmptyString => s
  | String c rest => if isspace c then skip_space rest else s
  end.

Fixpoint read_digits (s : string) (acc : Z) : Z :=
  match s with
  | EmptyString => acc
  | String c rest =>
      match digit_value c with
      | Some d => read_digits rest (10 * acc + d)
      | None => acc
      end
  end.

Definition stoi (str : string) : parse Z :=
  let s := skip_space str in
  let signed :=
    match s with
    | String c rest =>
        if decide (c = "-"%char) then (true, rest)
        else if decide (c = "+"%char) then (false, rest)
        else (false, s)
    | EmptyString => (false, s)
    end in
  match snd signed with
  | EmptyString => InvalidArgument
  | String c _ =>
      match digit_value c with
      | None => InvalidArgument
      | Some _ =>
          let v := read_digits (snd signed) 0 in
          let v := if fst signed then - v else v in
          if decide (INT_MIN ≤ v ∧ v ≤ INT_MAX) then Parsed v else OutOfRange
      end
  end.

(** The body of the loop over the lines: split the line at the commas and
    construct the task from the cells. *)
Definition loadRow (line : string) : parse Task :=
  let row :=
    while_getline (S (String.length line)) ","%char (fun row cell => row ++ [cell])
      line [] in
  match row !! 0%nat, row !! 1%nat with
  | Some cell0, Some cell1 =>
      parse_bind (stoi cell1) (fun taskDuration =>
        Parsed (task cell0 taskDuration
                  (if decide (length row = 3%nat)
                   then splitDependencies (default EmptyString (row !! 2%nat)) ";"%char
                   else [])))
  | _, _ => OutOfBounds
  end.

(** The state of the loop over the lines is [startProcessingLines] and
    [tasks]; an exception or an undefined access ends the loop. *)
Definition loadCSV (file : option string) : parse (list Task) :=
  match file with
  | None => Parsed []
  | Some content =>
      parse_bind
        (while_getline (S (String.length content)) (ascii_of_nat 10)
           (fun state line =>
              parse_bind state (fun st =>
                if (fst st : bool) then
                  parse_bind (loadRow line) (fun t => Parsed (true, snd st ++ [t]))
                else Parsed (true, snd st)))
           content (Parsed (false, [])))
        (fun st => Parsed (snd st))
  end.

(** * Specification vocabulary *)

(** ** Names and the dependency graph *)

Definition names (taskList : list Task) : list string := map name taskList.

(** [first_named n l i t]: [t] is at position [i] of [l] and is the first task
    of [l] named [n]. *)
Definition first_named (n : string) (l : list Task) (i : nat) (t : Task) : Prop :=
  l !! i = Some t ∧ name t = n ∧ ∀ j u, (j < i)%nat → l !! j = Some u → name u ≠ n.

(** [depends_on l a b]: some record named [a] lists [b] as a dependency. *)
Definition depends_on (l : list Task) (a b : string) : Prop :=
  ∃ t, t ∈ l ∧ name t = a ∧ b ∈ dependencies t.

Definition acyclic (l : list Task) : Prop := ∀ a, ¬ tc (depends_on l) a a.

Definition has_cycle (l : list Task) : Prop := ∃ a, tc (depends_on l) a a.

Definition resolved (l : list Task) : Prop :=
  ∀ t d, t ∈ l → d ∈ dependencies t → d ∈ names l.

Definition unresolved (l : list Task) : Prop :=
  ∃ t d, t ∈ l ∧ d ∈ dependencies t ∧ d ∉ names l.

(** The number of dependency entries of the whole list. *)
Definition dependency_count (l : list Task) : nat :=
  length (flat_map dependencies l).

(** The one exception of the program: a lookup of a name that no record
    bears. *)
Definition task_not_found (l : list Task) (what : string) : Prop :=
  ∃ d, what = not_found d ∧ d ∉ names l.

(** ** Valid inputs

    A task list as [loadCSV] returns it: every task freshly constructed. *)
Definition loaded (l : list Task) : Prop := Forall constructed l.

Definition sum_durations (l : list Task) : Z :=
  foldr (fun t acc => duration t + acc) 0 l.

(** A valid DAG input: the names are unique, every dependency name resolves,
    the dependency relation has no cycle, the durations are non-negative (the
    data model of a task record) and their sum fits an [int], so that no
    addition of the passes overflows. *)
Record valid_dag (l : list Task) : Prop := {
  valid_names : NoDup (names l);
  valid_resolved : resolved l;
  valid_acyclic : acyclic l;
  valid_durations : Forall (fun t => 0 ≤ duration t) l;
  valid_total : sum_durations l ≤ INT_MAX
}.

(** A valid DAG input as the task records alone describe it: unique names,
    dependency names that resolve, no cycle and non-negative durations, with
    no bound on the sum of the durations. *)
Record dag_input (l : list Task) : Prop := {
  dag_names : NoDup (names l);
  dag_resolved : resolved l;
  dag_acyclic : acyclic l;
  dag_durations : Forall (fun t => 0 ≤ duration t) l
}.

(** Validity by computation.  A rank that decreases along every dependency
    certifies acyclicity. *)
Definition resolvedb (l : list Task) : bool :=
  forallb (fun t => forallb (fun d => bool_decide (d ∈ names l)) (dependencies t)) l.

Definition rankedb (rank : string → nat) (l : list Task) : bool :=
  forallb (fun t =>
    forallb (fun d => bool_decide (rank d < rank (name t))%nat) (dependencies t)) l.

Definition loadedb (l : list Task) : bool :=
  forallb (fun t => bool_decide (successors t = [])) l.

Definition valid_dagb (rank : string → nat) (l : list Task) : bool :=
  bool_decide (NoDup (names l)) && resolvedb l && rankedb rank l
  && forallb (fun t => bool_decide (0 ≤ duration t)) l
  && bool_decide (sum_durations l ≤ INT_MAX).

(** ** The schedule

    [scheduled fuel out]: the vector [out] is a fixed point of the code's own
    recurrences: re-running either recursion on it returns the value stored
    in it, and its successor lists are the inverse of its dependency lists. *)
Record scheduled (fuel : nat) (out : list Task) : Prop := {
  sched_ES : ∀ t, t ∈ out → getEarlyStartScore fuel t out = Returns (ES t);
  sched_EF : ∀ t, t ∈ out → EF t = int_add (ES t) (duration t);
  sched_succ : ∀ j t, out !! j = Some t →
    ∀ s, s ∈ successors t ↔
      ∃ u d, u ∈ out ∧ name u = s ∧ d ∈ dependencies u
             ∧ getTaskObjectFromList d out = Returns j;
  sched_LF : ∀ t, t ∈ out → getLateFinishScore fuel t out = Returns (LF t);
  sched_LS : ∀ t, t ∈ out → LS t = int_sub (LF t) (duration t);
  sched_slack : ∀ t, t ∈ out → slack t = int_sub (LS t) (ES t)
}.

(** [is_max f l m]: [m] is the largest value of [f] over the tasks of [l]. *)
Definition is_max (f : Task → Z) (l : list Task) (m : Z) : Prop :=
  (∀ t, t ∈ l → f t ≤ m) ∧ ∃ t, t ∈ l ∧ f t = m.

(** An edge from a predecessor to a successor, recorded in both lists. *)
Definition cpm_edge (x y : Task) : Prop :=
  name x ∈ dependencies y ∧ name y ∈ successors x.

Definition critical (out : list Task) (t : Task) : Prop := t ∈ out ∧ slack t = 0.

(** Chains of binding predecessors.  [early_chain out rc t]: [rc] lists,
    nearest first, a chain of tasks of [out] from a predecessor of [t] back to
    a task without dependencies, each of which finishes exactly when the next
    one starts. *)
Inductive early_chain (out : list Task) : list Task → Task → Prop :=
| early_chain_root t :
    t ∈ out → dependencies t = [] → early_chain out [] t
| early_chain_step rc u t :
    early_chain out rc u → t ∈ out → name u ∈ dependencies t → EF u = ES t →
    early_chain out (u :: rc) t.

(** ** Inputs used below *)

(** The position in [example_tasks] is a rank. *)
Definition example_rank (n : string) : nat :=
  if decide (n = "a") then 0 else if decide (n = "b") then 1
  else if decide (n = "c") then 2 else 3.

(** Two independent tasks. *)
Definition two_leaves : list Task := [task "a" 2 []; task "b" 3 []].

(** Two tasks that depend on each other. *)
Definition cyclic_tasks : list Task := [task "a" 1 ["b"]; task "b" 1 ["a"]].

(** A missing dependency behind a cycle, and a missing dependency alone. *)
Definition dangling_tasks : list Task :=
  [task "a" 1 ["b"; "zzz"]; task "b" 1 ["a"]].

Definition missing_tasks : list Task := [task "a" 2 []; task "b" 3 ["zzz"]].

(** Two records with one name. *)
Definition duplicate_tasks : list Task := [task "a" 2 []; task "a" 3 []].

(** A chain of three tasks whose durations add up to more than [INT_MAX]. *)
Definition overflow_tasks : list Task :=
  [task "a" 2147483647 []; task "b" 1 ["a"]; task "c" 1 ["b"]].

(** A chain of [n] diamonds: [node 0] is the source; for every level [k+1]
    the tasks [left_of (k+1)] and [right_of (k+1)] depend on [node k], and
    [node (k+1)] depends on both.  The chain has [3n+1] tasks. *)
Definition node (i : nat) : string := "n" +:+ pretty i.
Definition left_of (i : nat) : string := "l" +:+ pretty i.
Definition right_of (i : nat) : string := "r" +:+ pretty i.

Definition sink (n : nat) : Task :=
  match n with
  | O => task (node 0) 1 []
  | S k => task (node (S k)) 1 [left_of (S k); right_of (S k)]
  end.

Fixpoint diamonds (n : nat) : list Task :=
  match n with
  | O => [sink 0]
  | S k =>
      diamonds k
      ++ [task (left_of (S k)) 1 [node k]; task (right_of (S k)) 1 [node k]; sink (S k)]
  end.

(** ** Text *)

Definition chars (s : string) : list ascii := String.list_ascii_of_string s.

Definition nonempty (s : string) : Prop := s ≠ EmptyString.

Definition newline : ascii := ascii_of_nat 10.

Definition digit (c : ascii) : Prop := is_Some (digit_value c).

Definition no_leading_digit (s : string) : Prop :=
  match s with
  | EmptyString => True
  | String c _ => digit_value c = None
  end.

Definition flatten (l : list string) : string := foldr String.append EmptyString l.

(** ** The input file

    A row of the file in the format of the comment above [loadCSV]:
    [name,duration,dep1;dep2], and the file of a header and one row per
    task, the lines separated by newlines; [trailer] is what follows the
    last line. *)
Definition csv_row (t : Task) : string :=
  name t +:+ "," +:+ pretty (duration t) +:+ "," +:+ String.concat ";" (dependencies t).

Definition csv_file (header : string) (l : list Task) (trailer : string) : string :=
  String.concat endl (header :: map csv_row l) +:+ trailer.

(** The tasks that a row can hold: no comma or newline in the name, an [int]
    duration, and dependency names that are not empty and hold no semicolon,
    comma or newline. *)
Record csv_record (t : Task) : Prop := {
  record_name : (","%char ∉ chars (name t)) ∧ (newline ∉ chars (name t));
  record_duration : in_int (duration t);
  record_dependencies :
    Forall (fun d => d ≠ EmptyString ∧ (";"%char ∉ chars d) ∧ (","%char ∉ chars d)
                     ∧ (newline ∉ chars d)) (dependencies t)
}.

(** ** The output files *)

(** A row of [output.csv], without its newline. *)
Definition taskRow (t : Task) : string :=
  name t +:+ "," +:+ pretty (duration t) +:+ "," +:+ pretty (ES t) +:+ ","
    +:+ pretty (EF t) +:+ "," +:+ pretty (LS t) +:+ "," +:+ pretty (LF t) +:+ ","
    +:+ pretty (slack t).

(** Two tasks with the same row of [output.csv]. *)
Definition same_row (t t' : Task) : Prop :=
  name t = name t' ∧ duration t = duration t' ∧ ES t = ES t' ∧ EF t = EF t'
  ∧ LS t = LS t' ∧ LF t = LF t' ∧ slack t = slack t'.

Definition plain_name (t : Task) : Prop :=
  (","%char ∉ chars (name t)) ∧ (newline ∉ chars (name t)).

(** The cells of a row of [timeline.csv], and the row. *)
Definition timelineCells (t : Task) (len : Z) : list string :=
  map (timelineCell t) (seqZ 0 len).

Definition timelineRow (t : Task) (len : Z) : string :=
  name t +:+ flatten (timelineCells t len) +:+ endl.

(** ** Chains of dependencies

    [dependency_chain out rc t]: [rc] lists tasks of [out], each a dependency
    of the one before it and the first a dependency of [t]. *)
Inductive dependency_chain (out : list Task) : list Task → Task → Prop :=
| dependency_chain_start t : t ∈ out → dependency_chain out [] t
| dependency_chain_step rc u t :
    dependency_chain out rc u → t ∈ out → name u ∈ dependencies t →
    dependency_chain out (u :: rc) t.

(** * Proof devices *)

(** [mapM f l]: what a range-for loop computes whose body rewrites only the
    visited task. *)
Fixpoint mapM (f : Task → outcome Task) (l : list Task) : outcome (list Task) :=
  match l with
  | [] => Returns []
  | t :: rest =>
      let* t' := f t in
      let* rest' := mapM f rest in
      Returns (t' :: rest')
  end.

(** The bodies of the three update loops, as functions of the visited task. *)
Definition early_update (fuel : nat) (l : list Task) (t : Task) : outcome Task :=
  let* score := getEarlyStartScore fuel t l in
  Returns (set_EF (int_add score (duration t)) (set_ES score t)).

Definition late_update (fuel : nat) (l : list Task) (t : Task) : outcome Task :=
  let* score := getLateFinishScore fuel t l in
  Returns (set_LS (int_sub score (duration t)) (set_LF score t)).

Definition slack_update (t : Task) : outcome Task :=
  Returns (set_slack (int_sub (LS t) (ES t)) t).

(** What the forward pass reads of a task, what the backward pass reads, and
    everything but the successors. *)
Definition early_eq (a b : Task) : Prop :=
  name a = name b ∧ duration a = duration b ∧ dependencies a = dependencies b.

Definition late_eq (a b : Task) : Prop :=
  name a = name b ∧ duration a = duration b ∧ successors a = successors b
  ∧ EF a = EF b.

Definition succ_eq (a b : Task) : Prop :=
  name a = name b ∧ duration a = duration b ∧ dependencies a = dependencies b
  ∧ ES a = ES b ∧ EF a = EF b ∧ LS a = LS b ∧ LF a = LF b ∧ slack a = slack b.

(** The recursion scheme shared by the two passes: resolve each name with
    [getTaskFromList], recurse into the task found, fold the scores.
    [getEarlyStartScore] is [early_walk], [getLateFinishScore] is
    [late_walk]. *)
Fixpoint walkLoop (step : Z → Task → Z → Z) (rec : Task → outcome Z)
    (l : list Task) (ns : list string) (acc : Z) : outcome Z :=
  match ns with
  | [] => Returns acc
  | n :: rest =>
      let* u := getTaskFromList n l in
      let* score := rec u in
      walkLoop step rec l rest (step score u acc)
  end.

Fixpoint walk (adj : Task → list string) (leaf : Task → Z) (init : Z)
    (step : Z → Task → Z → Z) (fuel : nat) (t : Task) (l : list Task)
    : outcome Z :=
  match fuel with
  | O => OutOfFuel
  | S fuel' =>
      match adj t with
      | [] => Returns (leaf t)
      | _ :: _ =>
          walkLoop step (fun u => walk adj leaf init step fuel' u l) l (adj t) init
      end
  end.

Definition early_step (score : Z) (depTask : Task) (ES0 : Z) : Z :=
  let depEF := int_add score (duration depTask) in
  if decide (depEF > ES0) then depEF else ES0.

Definition late_step (score : Z) (sTask : Task) (LF0 : Z) : Z :=
  let sLS := int_sub score (duration sTask) in
  if decide (sLS < LF0) then sLS else LF0.

Abbreviation early_walk := (walk dependencies (fun _ => 0) 0 early_step).
Abbreviation late_walk := (walk successors EF INT_MAX late_step).

(** An edge of the walk: the task that the name [a] resolves to lists [b]. *)
Definition walk_edge (adj : Task → list string) (l : list Task) (a b : string)
    : Prop :=
  ∃ t, getTaskFromList a l = Returns t ∧ b ∈ adj t.

(** Every chain of edges that starts at [a] has at most [n] names. *)
Definition depth_le (R : relation string) (n : nat) (a : string) : Prop :=
  ∀ c, Sorted R (a :: c) → (length (a :: c) ≤ n)%nat.

(** ** The items of a stream

    What the successive calls of [getline] extract from [s]: the pieces
    between the delimiters, without a last empty piece. *)
Fixpoint items (delim : ascii) (s : string) : list string :=
  match s with
  | EmptyString => []
  | String c rest =>
      if decide (c = delim) then EmptyString :: items delim rest
      else match items delim rest with
           | [] => [String c EmptyString]
           | item :: more => String c item :: more
           end
  end.

(** The loop of [loadCSV] over the lines behind the header. *)
Fixpoint loadRows (lines : list string) : parse (list Task) :=
  match lines with
  | [] => Parsed []
  | line :: rest =>
      parse_bind (loadRow line) (fun t =>
        parse_bind (loadRows rest) (fun tasks => Parsed (t :: tasks)))
  end.

Definition loadStep (state : parse (bool * list Task)) (line : string)
    : parse (bool * list Task) :=
  parse_bind state (fun st =>
    if (fst st : bool) then
      parse_bind (loadRow line) (fun t => Parsed (true, snd st ++ [t]))
    else Parsed (true, snd st)).

(** The way a line that does not load ends the loading. *)
Definition failure {A B : Type} (m : parse A) : parse B :=
  match m with
  | Parsed _ => OutOfBounds
  | InvalidArgument => InvalidArgument
  | OutOfRange => OutOfRange
  | OutOfBounds => OutOfBounds
  end.

(** The range check at the end of [stoi]. *)
Definition int_range (v : Z) : parse Z :=
  if decide (INT_MIN ≤ v ∧ v ≤ INT_MAX) then Parsed v else OutOfRange.

(** * Verification *)

(** ** Machine integers *)

Lemma wrap_id (z : Z) : in_int z → wrap z = z.
Proof.
  unfold in_int, INT_MIN, INT_MAX, wrap. intros H.
  rewrite Z.mod_small by lia. lia.
Qed.




(** ** Outcomes *)

Lemma bind_Returns {A B} (m : outcome A) (k : A → outcome B) (b : B) :
  bind m k = Returns b ↔ ∃ a, m = Returns a ∧ k a = Returns b.
Proof. destruct m; simpl; naive_solver. Qed.

Lemma returns_Returns {A} (a : A) : returns (Returns a).
Proof. by exists a. Qed.

Lemma not_returns_Throws {A} (w : string) : ¬ returns (@Throws A w).
Proof. by intros [a ?]. Qed.

Lemma not_returns_OutOfFuel {A} : ¬ returns (@OutOfFuel A).
Proof. by intros [a ?]. Qed.

Lemma not_returns_bind {A B} (m : outcome A) (k : A → outcome B) :
  ¬ returns m → ¬ returns (bind m k).
Proof. intros Hm [b [a [Ha _]]%bind_Returns]. apply Hm. by exists a. Qed.

(** ** The relations between versions of a task *)

Global Instance early_eq_refl : Reflexive early_eq.
Proof. by intros a. Qed.

Global Instance late_eq_refl : Reflexive late_eq.
Proof. by intros a. Qed.

Global Instance succ_eq_equiv : Equivalence succ_eq.
Proof.
  split.
  - by intros a.
  - intros a b H. unfold succ_eq in *. naive_solver.
  - intros a b c H1 H2. unfold succ_eq in *. naive_solver congruence.
Qed.

(** ** Lookup by name *)

Lemma getTaskObjectFromList_Returns n l i :
  getTaskObjectFromList n l = Returns i ↔ ∃ t, first_named n l i t.
Proof.
  revert i. induction l as [|t l IH]; intros i; simpl.
  - split; [done|]. intros (u & Hu & _). by rewrite lookup_nil in Hu.
  - destruct (decide (name t = n)) as [Heq|Hne].
    + split.
      * intros [= <-]. exists t. split_and!; [done..|]. intros j u Hj. lia.
      * intros (u & Hu & _ & Hfirst). destruct i as [|i]; [done|].
        exfalso. apply (Hfirst 0%nat t); [lia|done|done].
    + rewrite bind_Returns. split.
      * intros (i' & Hi' & [= <-]). apply IH in Hi' as (u & Hu & Hn & Hfirst).
        exists u. split_and!; [done..|].
        intros [|j] v Hj Hv; simpl in Hv; [congruence|].
        apply (Hfirst j v); [lia|done].
      * intros (u & Hu & Hn & Hfirst). destruct i as [|i]; simpl in Hu.
        { congruence. }
        exists i. split; [|done]. apply IH. exists u. split_and!; [done..|].
        intros j v Hj Hv. apply (Hfirst (S j) v); [lia|done].
Qed.

Lemma getTaskFromList_Returns n l t :
  getTaskFromList n l = Returns t ↔ ∃ i, first_named n l i t.
Proof.
  induction l as [|t0 l IH]; simpl.
  - split; [done|]. intros (i & Hu & _). by rewrite lookup_nil in Hu.
  - destruct (decide (name t0 = n)) as [Heq|Hne].
    + split.
      * intros [= <-]. exists 0%nat. split_and!; [done..|]. intros j u Hj. lia.
      * intros ([|i] & Hu & _ & Hfirst); [by injection Hu as ->|].
        exfalso. apply (Hfirst 0%nat t0); [lia|done|done].
    + rewrite IH. split.
      * intros (i & Hu & Hn & Hfirst). exists (S i). split_and!; [done..|].
        intros [|j] v Hj Hv; simpl in Hv; [congruence|].
        apply (Hfirst j v); [lia|done].
      * intros ([|i] & Hu & Hn & Hfirst); simpl in Hu; [congruence|].
        exists i. split_and!; [done..|].
        intros j v Hj Hv. apply (Hfirst (S j) v); [lia|done].
Qed.

Lemma getTaskFromList_Throws n l w :
  getTaskFromList n l = Throws w ↔ w = not_found n ∧ n ∉ names l.
Proof.
  induction l as [|t l IH]; simpl.
  - split; [intros [= <-]|intros [-> _]]; [split|]; [done| |done].
    apply not_elem_of_nil.
  - rewrite not_elem_of_cons. destruct (decide (name t = n)); [naive_solver|].
    rewrite IH. naive_solver.
Qed.

Lemma getTaskFromList_fuel n l : getTaskFromList n l ≠ OutOfFuel.
Proof. induction l; simpl; [done|]. by case_decide. Qed.

Lemma getTaskObjectFromList_Throws n l w :
  getTaskObjectFromList n l = Throws w ↔ w = not_found n ∧ n ∉ names l.
Proof.
  induction l as [|t l IH]; simpl.
  - split; [intros [= <-]|intros [-> _]]; [split|]; [done| |done].
    apply not_elem_of_nil.
  - rewrite not_elem_of_cons. destruct (decide (name t = n)); [naive_solver|].
    destruct (getTaskObjectFromList n l); simpl in *; naive_solver.
Qed.

Lemma getTaskObjectFromList_fuel n l : getTaskObjectFromList n l ≠ OutOfFuel.
Proof.
  induction l; simpl; [done|]. case_decide; [done|].
  by destruct (getTaskObjectFromList n l).
Qed.

Lemma getTaskFromList_resolves n l :
  n ∈ names l → ∃ t, getTaskFromList n l = Returns t.
Proof.
  intros Hn. destruct (getTaskFromList n l) as [t|w|] eqn:E; [by exists t| |].
  - by apply getTaskFromList_Throws in E as [_ ?].
  - by apply getTaskFromList_fuel in E.
Qed.

Lemma getTaskFromList_elem_of n l t :
  getTaskFromList n l = Returns t → t ∈ l ∧ name t = n.
Proof.
  intros (i & Hi & Hn & _)%getTaskFromList_Returns. split; [|done].
  by eapply list_elem_of_lookup_2.
Qed.

Lemma NoDup_names_lookup l i j t u :
  NoDup (names l) → l !! i = Some t → l !! j = Some u → name t = name u → i = j.
Proof.
  intros Hnd Hi Hj Hn. eapply NoDup_lookup; [exact Hnd| |].
  - unfold names. rewrite list_lookup_fmap, Hi. done.
  - unfold names. rewrite list_lookup_fmap, Hj. simpl. by rewrite Hn.
Qed.

Lemma NoDup_names_eq l t u :
  NoDup (names l) → t ∈ l → u ∈ l → name t = name u → t = u.
Proof.
  intros Hnd [i Hi]%list_elem_of_lookup [j Hj]%list_elem_of_lookup Hn.
  assert (i = j) as -> by eauto using NoDup_names_lookup. congruence.
Qed.

Lemma getTaskFromList_NoDup l t :
  NoDup (names l) → t ∈ l → getTaskFromList (name t) l = Returns t.
Proof.
  intros Hnd Ht.
  destruct (getTaskFromList_resolves (name t) l) as [u Hu].
  { unfold names. apply list_elem_of_fmap. eauto. }
  rewrite Hu. f_equal. apply getTaskFromList_elem_of in Hu as [? ?].
  by apply (NoDup_names_eq l).
Qed.

(** ** Range-for loops whose body rewrites the visited task only *)

Lemma mapM_Returns f l l' :
  mapM f l = Returns l' ↔ Forall2 (fun t t' => f t = Returns t') l l'.
Proof.
  revert l'. induction l as [|t l IH]; intros l'; simpl.
  - split; [intros [= <-]; constructor|]. by intros ->%Forall2_nil_inv_l.
  - rewrite bind_Returns. split.
    + intros (t' & Ht & (r & Hr & [= <-])%bind_Returns).
      constructor; [done|]. by apply IH.
    + intros (t' & r & Ht & Hr & ->)%Forall2_cons_inv_l.
      exists t'. split; [done|]. apply IH in Hr. by rewrite Hr.
Qed.

Lemma mapM_not_returns f l t :
  t ∈ l → ¬ returns (f t) → ¬ returns (mapM f l).
Proof.
  intros Ht Hf [l' Hl']. apply mapM_Returns in Hl'.
  apply list_elem_of_lookup in Ht as [i Hi].
  destruct (Forall2_lookup_l _ _ _ _ _ Hl' Hi) as (t' & _ & Ht').
  apply Hf. by exists t'.
Qed.

Lemma mapM_outcome f l :
  (∀ t, t ∈ l → f t ≠ OutOfFuel) → mapM f l ≠ OutOfFuel.
Proof.
  induction l as [|t l IH]; intros Hf; simpl; [done|].
  pose proof (Hf t ltac:(left)) as Ht.
  destruct (f t); simpl; [|done..].
  assert (mapM f l ≠ OutOfFuel) as Hl by (apply IH; intros; apply Hf; by right).
  by destruct (mapM f l).
Qed.

Section pointwise.
Context (E : relation Task) `{!Reflexive E}.
Context (body : nat → Task → list Task → outcome (list Task)).
Context (f : Task → outcome Task) (l0 : list Task).
Hypothesis body_f : ∀ i t st,
  Forall2 E l0 st → l0 !! i = Some t → st !! i = Some t →
  body i t st = let* t' := f t in Returns (<[i := t']> st).
Hypothesis f_E : ∀ t t', f t = Returns t' → E t t'.

Lemma for_range_pointwise done0 done rest :
  l0 = done0 ++ rest → Forall2 E done0 done →
  for_range
    (fun i l => match l !! i with Some task => body i task l | None => Returns l end)
    (length done) (length rest) (done ++ rest)
  = let* rest' := mapM f rest in Returns (done ++ rest').
Proof.
  revert done0 done. induction rest as [|t rest IH]; intros done0 done Hl0 Hdone.
  - simpl. done.
  - assert (length done0 = length done) as Hlen by by eapply Forall2_length.
    simpl. rewrite list_lookup_middle by done.
    rewrite (body_f (length done) t (done ++ t :: rest)).
    + destruct (f t) as [t'| |] eqn:Hft; simpl; [|done..].
      replace (<[length done := t']> (done ++ t :: rest))
        with ((done ++ [t']) ++ rest).
      2:{ rewrite <- (Nat.add_0_r (length done)), insert_app_r. simpl.
          by rewrite <- app_assoc. }
      replace (S (length done)) with (length (done ++ [t']))
        by (rewrite length_app; simpl; lia).
      rewrite (IH (done0 ++ [t])).
      * destruct (mapM f rest); simpl; [|done..]. by rewrite <- app_assoc.
      * by rewrite <- app_assoc.
      * apply Forall2_app; [done|]. constructor; [|constructor]. by apply f_E.
    + subst l0. apply Forall2_app; [done|]. reflexivity.
    + subst l0. rewrite <- Hlen. by apply list_lookup_middle.
    + by apply list_lookup_middle.
Qed.

Lemma for_each_task_pointwise : for_each_task body l0 = mapM f l0.
Proof.
  unfold for_each_task.
  pose proof (for_range_pointwise [] [] l0 eq_refl ltac:(constructor)) as H.
  simpl in H. rewrite H.
  by destruct (mapM f l0).
Qed.
End pointwise.

(** ** The recursion scheme shared by the two passes

    [getEarlyStartScore] walks the dependency names, [getLateFinishScore] the
    successor names; both resolve a name with [getTaskFromList], recurse into
    the task found and fold the scores.  [walk] is that scheme; the facts
    that do not depend on the arithmetic are proved once for it. *)

Section walk.
Context (adj : Task → list string) (leaf : Task → Z) (init : Z).
Context (step : Z → Task → Z → Z).

(** *** The result depends on the list only through what the walk reads *)

Context (E : relation Task).
Hypothesis E_name : ∀ a b, E a b → name a = name b.
Hypothesis E_adj : ∀ a b, E a b → adj a = adj b.
Hypothesis E_leaf : ∀ a b, E a b → leaf a = leaf b.
Hypothesis E_step : ∀ a b s acc, E a b → step s a acc = step s b acc.

Lemma getTaskFromList_Forall2 n l l' :
  Forall2 E l l' →
  match getTaskFromList n l, getTaskFromList n l' with
  | Returns a, Returns b => E a b
  | Throws w, Throws w' => w = w'
  | _, _ => False
  end.
Proof.
  induction 1 as [|a b l l' Hab _ IH]; simpl; [done|].
  rewrite <- (E_name a b Hab). by case_decide.
Qed.

Lemma walkLoop_ext rec rec' l l' ns acc :
  Forall2 E l l' → (∀ u u', E u u' → rec u = rec' u') →
  walkLoop step rec l ns acc = walkLoop step rec' l' ns acc.
Proof.
  intros Hl Hrec. revert acc. induction ns as [|n ns IH]; intros acc; simpl; [done|].
  pose proof (getTaskFromList_Forall2 n l l' Hl) as Hn.
  destruct (getTaskFromList n l) as [u| |], (getTaskFromList n l') as [u'| |];
    simpl; try done; [|congruence].
  rewrite (Hrec u u' Hn). destruct (rec' u'); simpl; [|done..].
  by rewrite (E_step u u' _ _ Hn).
Qed.

Lemma walk_ext fuel t t' l l' :
  Forall2 E l l' → E t t' → walk adj leaf init step fuel t l = walk adj leaf init step fuel t' l'.
Proof.
  intros Hl. revert t t'. induction fuel as [|fuel IH]; intros t t' Ht; simpl; [done|].
  rewrite <- (E_adj t t' Ht). destruct (adj t) as [|n ns] eqn:Hadj.
  - by rewrite (E_leaf t t' Ht).
  - apply walkLoop_ext; [done|]. intros u u' Hu. by apply IH.
Qed.

(** *** More fuel does not change a result *)

Lemma walkLoop_mono rec rec' l ns acc :
  (∀ u, rec u ≠ OutOfFuel → rec' u = rec u) →
  walkLoop step rec l ns acc ≠ OutOfFuel →
  walkLoop step rec' l ns acc = walkLoop step rec l ns acc.
Proof.
  intros Hrec. revert acc. induction ns as [|n ns IH]; intros acc; simpl; [done|].
  destruct (getTaskFromList n l) as [u| |]; simpl; [|done..].
  pose proof (Hrec u) as Hu. destruct (rec u) as [s| |]; simpl.
  - rewrite Hu by done. simpl. apply IH.
  - by rewrite Hu.
  - done.
Qed.

Lemma walk_S fuel t l :
  walk adj leaf init step fuel t l ≠ OutOfFuel → walk adj leaf init step (S fuel) t l = walk adj leaf init step fuel t l.
Proof.
  revert t. induction fuel as [|fuel IH]; intros t; [done|].
  remember (S fuel) as fuel1. simpl. subst fuel1. simpl.
  destruct (adj t); [done|]. apply walkLoop_mono. intros u. apply IH.
Qed.

Lemma walk_mono fuel fuel' t l :
  (fuel ≤ fuel')%nat → walk adj leaf init step fuel t l ≠ OutOfFuel → walk adj leaf init step fuel' t l = walk adj leaf init step fuel t l.
Proof.
  induction 1 as [|fuel' _ IH]; [done|]. intros H.
  rewrite walk_S; [by apply IH|]. by rewrite IH.
Qed.

(** *** The loop visits every name *)

Lemma walkLoop_Returns rec l ns acc v n :
  walkLoop step rec l ns acc = Returns v → n ∈ ns →
  ∃ u s, getTaskFromList n l = Returns u ∧ rec u = Returns s.
Proof.
  revert acc. induction ns as [|m ns IH]; intros acc; simpl.
  - by intros _ ?%elem_of_nil.
  - intros (u & Hu & (s & Hs & Hrest)%bind_Returns)%bind_Returns
      [->|Hin]%elem_of_cons; eauto.
Qed.

Lemma walkLoop_outcome rec l ns acc :
  (∀ n u, n ∈ ns → getTaskFromList n l = Returns u → rec u ≠ OutOfFuel) →
  walkLoop step rec l ns acc ≠ OutOfFuel.
Proof.
  revert acc. induction ns as [|m ns IH]; intros acc Hrec; simpl; [done|].
  pose proof (getTaskFromList_fuel m l) as Hm.
  destruct (getTaskFromList m l) as [u| |] eqn:Hu; simpl; [|done..].
  pose proof (Hrec m u ltac:(left) Hu) as Hs.
  destruct (rec u) as [s| |]; simpl; [|done..].
  apply IH. intros n u' Hn. apply Hrec. by right.
Qed.

Lemma walk_Returns_S fuel t l v :
  walk adj leaf init step fuel t l = Returns v → ∃ fuel', fuel = S fuel'.
Proof. destruct fuel; [done|eauto]. Qed.

(** Every name listed by a task whose walk returns resolves, and the walk
    of the task it resolves to returns as well (with the same fuel). *)
Lemma walk_Returns_adj fuel t l v n :
  walk adj leaf init step fuel t l = Returns v → n ∈ adj t →
  ∃ u s, getTaskFromList n l = Returns u ∧ walk adj leaf init step fuel u l = Returns s.
Proof.
  destruct fuel as [|fuel]; [done|]. intros Hw Hn. simpl in Hw.
  destruct (adj t) as [|m ns] eqn:Hadj; [by apply elem_of_nil in Hn|].
  destruct (walkLoop_Returns _ _ _ _ _ n Hw Hn) as (u & s & Hu & Hs).
  exists u, s. split; [done|].
  rewrite (walk_mono fuel (S fuel)); [done|lia|by rewrite Hs].
Qed.

(** *** Termination on graphs of bounded depth *)

Lemma walk_terminates (R : relation string) l n t :
  (∀ a b, walk_edge adj l a b → R a b) →
  (∀ d, d ∈ adj t → depth_le R n d) →
  walk adj leaf init step (S n) t l ≠ OutOfFuel.
Proof.
  intros HR. revert t. induction n as [|n IH]; intros t Hdepth.
  - simpl. destruct (adj t) as [|d ns] eqn:Hadj; [done|].
    specialize (Hdepth d ltac:(left) [] ltac:(repeat constructor)). simpl in Hdepth. lia.
  - remember (S n) as fuel. simpl. subst fuel.
    destruct (adj t) as [|d0 ns] eqn:Hadj; [done|].
    apply walkLoop_outcome. intros d u Hd Hu. apply IH.
    intros e He c Hc.
    assert (Sorted R (d :: e :: c)) as Hc'.
    { constructor; [done|]. constructor. apply HR. by exists u. }
    apply (Hdepth d Hd) in Hc'. simpl in *. lia.
Qed.

(** *** No result on a cycle *)

Lemma walkLoop_not_returns rec l ns acc n :
  n ∈ ns → (∀ u, getTaskFromList n l = Returns u → ¬ returns (rec u)) →
  ¬ returns (walkLoop step rec l ns acc).
Proof.
  intros Hn Hrec [v Hv].
  destruct (walkLoop_Returns _ _ _ _ _ n Hv Hn) as (u & s & Hu & Hs).
  apply (Hrec u Hu). by exists s.
Qed.

Lemma walk_cycle fuel l a t :
  tc (walk_edge adj l) a a → getTaskFromList a l = Returns t →
  ¬ returns (walk adj leaf init step fuel t l).
Proof.
  revert a t. induction fuel as [|fuel IH]; intros a t Hcyc Ht.
  { apply not_returns_OutOfFuel. }
  assert (∃ b, walk_edge adj l a b ∧ tc (walk_edge adj l) b b) as (b & Hab & Hb).
  { inversion Hcyc as [? ? Haa|? b ? Hab Hba]; subst.
    - exists a. split; [done|]. by apply tc_once.
    - exists b. split; [done|]. eapply tc_r; [exact Hba|done]. }
  destruct Hab as (t' & Ht' & Hbt). assert (t' = t) as -> by congruence.
  simpl. destruct (adj t) as [|m ns] eqn:Hadj; [by apply elem_of_nil in Hbt|].
  apply (walkLoop_not_returns _ _ _ _ b Hbt). intros u Hu. by apply (IH b).
Qed.
End walk.

(** ** Chains in an acyclic relation *)

Lemma Sorted_subrel {A} (R R' : relation A) (c : list A) :
  (∀ a b, R a b → R' a b) → Sorted R c → Sorted R' c.
Proof.
  intros HR. induction 1 as [|a c _ IH Hhd]; constructor; [done|].
  destruct Hhd; constructor; auto.
Qed.

Lemma depth_le_subrel (R R' : relation string) n a :
  (∀ a b, R a b → R' a b) → depth_le R' n a → depth_le R n a.
Proof. intros HR Hd c Hc. apply Hd. by eapply Sorted_subrel. Qed.

Lemma tc_flip {A} (R : relation A) x y : tc (flip R) x y → tc R y x.
Proof.
  induction 1 as [x y H|x y z H _ IH]; [by apply tc_once|].
  eapply tc_r; [exact IH|exact H].
Qed.

Lemma tc_mono {A} (R R' : relation A) x y :
  (∀ a b, R a b → R' a b) → tc R x y → tc R' x y.
Proof.
  intros HR. induction 1 as [x y H|x y z H _ IH]; [by apply tc_once, HR|].
  eapply tc_l; [apply HR, H|exact IH].
Qed.

Section chains.
Context (R : relation string) (dom : list string).
Hypothesis R_acyclic : ∀ a, ¬ tc R a a.
Hypothesis R_dom : ∀ a b, R a b → b ∈ dom.

Lemma chain_NoDup c : Sorted R c → NoDup c.
Proof.
  intros Hc. apply (Sorted_subrel R (tc R)) in Hc; [|by apply tc_once].
  apply Sorted_StronglySorted in Hc; [|apply _].
  induction Hc as [|a c _ IH Hall]; constructor; [|done].
  intros Hin. rewrite Forall_forall in Hall. by apply (R_acyclic a), Hall.
Qed.

Lemma chain_tail_dom a c : Sorted R (a :: c) → Forall (.∈ dom) c.
Proof.
  revert a. induction c as [|b c IH]; intros a Hc; [constructor|].
  apply Sorted_inv in Hc as [Hc Hhd]. apply HdRel_inv in Hhd.
  constructor; [by eapply R_dom|by eapply IH].
Qed.

Lemma depth_le_dom a : a ∈ dom → depth_le R (length dom) a.
Proof.
  intros Ha c Hc. apply submseteq_length, NoDup_submseteq.
  - by apply chain_NoDup.
  - intros x [->|Hx]%elem_of_cons; [done|].
    pose proof (chain_tail_dom a c Hc) as Hall.
    rewrite Forall_forall in Hall. by apply Hall.
Qed.

Lemma depth_le_any a : depth_le R (S (length dom)) a.
Proof.
  intros c Hc. simpl. apply le_n_S.
  apply submseteq_length, NoDup_submseteq.
  - apply chain_NoDup. by apply Sorted_inv in Hc as [? _].
  - intros x Hx. pose proof (chain_tail_dom a c Hc) as Hall.
    rewrite Forall_forall in Hall. by apply Hall.
Qed.

(** Induction along the edges of a finite acyclic relation. *)
Lemma acyclic_ind (P : string → Prop) :
  (∀ a, (∀ b, R a b → P b) → P a) → ∀ a, P a.
Proof.
  intros Hstep a.
  cut (∀ n b, depth_le R n b → P b).
  { intros H. apply (H (S (length dom))), depth_le_any. }
  clear a. induction n as [|n IH]; intros a Ha.
  - specialize (Ha [] ltac:(repeat constructor)). simpl in Ha. lia.
  - apply Hstep. intros b Hab. apply IH. intros c Hc.
    assert (Sorted R (a :: b :: c)) as Hc' by (constructor; [done|by constructor]).
    apply Ha in Hc'. simpl in *. lia.
Qed.
End chains.

(** ** The dependency graph of a task list *)

Lemma depends_on_names l a b : depends_on l a b → a ∈ names l.
Proof. intros (t & Ht & <- & _). unfold names. apply list_elem_of_fmap. eauto. Qed.

Lemma depends_on_resolved l a b : resolved l → depends_on l a b → b ∈ names l.
Proof. intros Hres (t & Ht & _ & Hb). by apply (Hres t). Qed.

Lemma acyclic_flip l a : acyclic l → ¬ tc (flip (depends_on l)) a a.
Proof. intros Hac H. by apply tc_flip, Hac in H. Qed.

(** ** The two passes as walks *)

Lemma earlyLoop_walkLoop rec l deps a :
  earlyLoop rec l deps a = walkLoop early_step rec l deps a.
Proof.
  revert a. induction deps as [|d deps IH]; intros a; simpl; [done|].
  destruct (getTaskFromList d l); simpl; [|done..].
  destruct (rec a0); simpl; [|done..]. apply IH.
Qed.

Lemma getEarlyStartScore_walk fuel t l :
  getEarlyStartScore fuel t l = early_walk fuel t l.
Proof.
  revert t. induction fuel as [|fuel IH]; intros t; simpl; [done|].
  destruct (dependencies t); [done|].
  rewrite earlyLoop_walkLoop.
  apply walkLoop_ext with (E := eq); [congruence..|reflexivity|].
  intros u ? <-. apply IH.
Qed.

Lemma lateLoop_walkLoop rec l succs a :
  lateLoop rec l succs a = walkLoop late_step rec l succs a.
Proof.
  revert a. induction succs as [|d succs IH]; intros a; simpl; [done|].
  destruct (getTaskFromList d l); simpl; [|done..].
  destruct (rec a0); simpl; [|done..]. apply IH.
Qed.

Lemma getLateFinishScore_walk fuel t l :
  getLateFinishScore fuel t l = late_walk fuel t l.
Proof.
  revert t. induction fuel as [|fuel IH]; intros t; simpl; [done|].
  destruct (successors t); [done|].
  rewrite lateLoop_walkLoop.
  apply walkLoop_ext with (E := eq); [congruence..|reflexivity|].
  intros u ? <-. apply IH.
Qed.

Lemma getEarlyStartScore_ext fuel t t' l l' :
  Forall2 early_eq l l' → early_eq t t' →
  getEarlyStartScore fuel t l = getEarlyStartScore fuel t' l'.
Proof.
  intros Hl Ht. rewrite (getEarlyStartScore_walk fuel t), (getEarlyStartScore_walk fuel t').
  apply walk_ext with (E := early_eq); try done.
  - by intros a b (? & ? & ?).
  - by intros a b (? & ? & ?).
  - intros a b s acc (? & Hd & ?). unfold early_step. by rewrite Hd.
Qed.

Lemma getLateFinishScore_ext fuel t t' l l' :
  Forall2 late_eq l l' → late_eq t t' →
  getLateFinishScore fuel t l = getLateFinishScore fuel t' l'.
Proof.
  intros Hl Ht. rewrite (getLateFinishScore_walk fuel t), (getLateFinishScore_walk fuel t').
  apply walk_ext with (E := late_eq); try done.
  - by intros a b (? & ? & ? & ?).
  - by intros a b (? & ? & ? & ?).
  - by intros a b (? & ? & ? & ?).
  - intros a b s acc (? & Hd & ?). unfold late_step. by rewrite Hd.
Qed.

Lemma getEarlyStartScore_mono fuel fuel' t l v :
  (fuel ≤ fuel')%nat → getEarlyStartScore fuel t l = Returns v →
  getEarlyStartScore fuel' t l = Returns v.
Proof.
  intros Hle Hv. rewrite getEarlyStartScore_walk in Hv |- *.
  rewrite (walk_mono _ _ _ _ fuel fuel'); [done|done|by rewrite Hv].
Qed.

Lemma getLateFinishScore_mono fuel fuel' t l v :
  (fuel ≤ fuel')%nat → getLateFinishScore fuel t l = Returns v →
  getLateFinishScore fuel' t l = Returns v.
Proof.
  intros Hle Hv. rewrite getLateFinishScore_walk in Hv |- *.
  rewrite (walk_mono _ _ _ _ fuel fuel'); [done|done|by rewrite Hv].
Qed.

(** ** What the forward recursion computes *)

Lemma earlyLoop_value rec l deps a v :
  earlyLoop rec l deps a = Returns v →
  a ≤ v
  ∧ (∀ d, d ∈ deps → ∃ u s,
        getTaskFromList d l = Returns u ∧ rec u = Returns s
        ∧ int_add s (duration u) ≤ v)
  ∧ (v = a ∨ ∃ d u s,
        d ∈ deps ∧ getTaskFromList d l = Returns u ∧ rec u = Returns s
        ∧ v = int_add s (duration u)).
Proof.
  revert a. induction deps as [|d deps IH]; intros a; simpl.
  - intros [= <-]. split_and!; [lia| |by left]. by intros d ?%elem_of_nil.
  - intros (u & Hu & (s & Hs & Hrest)%bind_Returns)%bind_Returns.
    apply IH in Hrest as (Hle & Hall & Hmax). split_and!.
    + case_decide; lia.
    + intros d' [->|Hd']%elem_of_cons; [|by apply Hall].
      exists u, s. split_and!; [done..|]. case_decide; lia.
    + destruct Hmax as [->|(d' & u' & s' & Hd' & ?)].
      * case_decide; [|by left]. right. exists d, u, s. split_and!; [left|..]; done.
      * right. exists d', u', s'. split_and!; [by right|..]; naive_solver.
Qed.

Lemma getEarlyStartScore_value fuel t l v :
  getEarlyStartScore fuel t l = Returns v →
  0 ≤ v
  ∧ (∀ d, d ∈ dependencies t → ∃ u s,
        getTaskFromList d l = Returns u ∧ getEarlyStartScore fuel u l = Returns s
        ∧ int_add s (duration u) ≤ v)
  ∧ (v = 0 ∨ ∃ d u s,
        d ∈ dependencies t ∧ getTaskFromList d l = Returns u
        ∧ getEarlyStartScore fuel u l = Returns s ∧ v = int_add s (duration u)).
Proof.
  destruct fuel as [|fuel]; [done|]. intros Hv. simpl in Hv.
  destruct (dependencies t) as [|d0 deps] eqn:Hdeps.
  { injection Hv as <-. split_and!; [done| |by left]. by intros d ?%elem_of_nil. }
  apply earlyLoop_value in Hv as (Hle & Hall & Hmax). split_and!; [done|..].
  - intros d Hd. destruct (Hall d Hd) as (u & s & Hu & Hs & ?).
    exists u, s. split_and!; [done| |done].
    apply (getEarlyStartScore_mono fuel); [lia|done].
  - destruct Hmax as [->|(d & u & s & Hd & Hu & Hs & ->)]; [by left|right].
    exists d, u, s. split_and!; [done..| |done].
    apply (getEarlyStartScore_mono fuel); [lia|done].
Qed.

(** ** What the backward recursion computes *)

Lemma lateLoop_value rec l succs a v :
  lateLoop rec l succs a = Returns v →
  v ≤ a
  ∧ (∀ n, n ∈ succs → ∃ u s,
        getTaskFromList n l = Returns u ∧ rec u = Returns s
        ∧ v ≤ int_sub s (duration u))
  ∧ (v = a ∨ ∃ n u s,
        n ∈ succs ∧ getTaskFromList n l = Returns u ∧ rec u = Returns s
        ∧ v = int_sub s (duration u)).
Proof.
  revert a. induction succs as [|d succs IH]; intros a; simpl.
  - intros [= <-]. split_and!; [lia| |by left]. by intros d ?%elem_of_nil.
  - intros (u & Hu & (s & Hs & Hrest)%bind_Returns)%bind_Returns.
    apply IH in Hrest as (Hle & Hall & Hmax). split_and!.
    + case_decide; lia.
    + intros d' [->|Hd']%elem_of_cons; [|by apply Hall].
      exists u, s. split_and!; [done..|]. case_decide; lia.
    + destruct Hmax as [->|(d' & u' & s' & Hd' & ?)].
      * case_decide; [|by left]. right. exists d, u, s. split_and!; [left|..]; done.
      * right. exists d', u', s'. split_and!; [by right|..]; naive_solver.
Qed.

Lemma getLateFinishScore_value fuel t l v :
  getLateFinishScore fuel t l = Returns v →
  (successors t = [] ∧ v = EF t)
  ∨ (successors t ≠ [] ∧ v ≤ INT_MAX
     ∧ (∀ n, n ∈ successors t → ∃ u s,
          getTaskFromList n l = Returns u ∧ getLateFinishScore fuel u l = Returns s
          ∧ v ≤ int_sub s (duration u))
     ∧ (v = INT_MAX ∨ ∃ n u s,
          n ∈ successors t ∧ getTaskFromList n l = Returns u
          ∧ getLateFinishScore fuel u l = Returns s ∧ v = int_sub s (duration u))).
Proof.
  destruct fuel as [|fuel]; [done|]. intros Hv. simpl in Hv.
  destruct (successors t) as [|d0 succs] eqn:Hsuccs.
  { injection Hv as <-. by left. }
  right. apply lateLoop_value in Hv as (Hle & Hall & Hmin). split_and!; [done..| |].
  - intros d Hd. destruct (Hall d Hd) as (u & s & Hu & Hs & ?).
    exists u, s. split_and!; [done| |done].
    apply (getLateFinishScore_mono fuel); [lia|done].
  - destruct Hmin as [->|(d & u & s & Hd & Hu & Hs & ->)]; [by left|right].
    exists d, u, s. split_and!; [done..| |done].
    apply (getLateFinishScore_mono fuel); [lia|done].
Qed.

(** ** The three update loops *)

Lemma updateAllEarlyVars_mapM fuel l :
  updateAllEarlyVars fuel l = mapM (early_update fuel l) l.
Proof.
  apply for_each_task_pointwise with (E := early_eq); [apply _|..].
  - intros i t st Hst _ _. unfold early_update.
    rewrite <- (getEarlyStartScore_ext fuel t t l st) by done.
    by destruct (getEarlyStartScore fuel t l).
  - intros t t'. unfold early_update.
    intros (s & _ & [= <-])%bind_Returns. done.
Qed.

Lemma updateAllLateVars_mapM fuel l :
  updateAllLateVars fuel l = mapM (late_update fuel l) l.
Proof.
  apply for_each_task_pointwise with (E := late_eq); [apply _|..].
  - intros i t st Hst _ _. unfold late_update.
    rewrite <- (getLateFinishScore_ext fuel t t l st) by done.
    by destruct (getLateFinishScore fuel t l).
  - intros t t'. unfold late_update.
    intros (s & _ & [= <-])%bind_Returns. done.
Qed.

Lemma updateAllSlack_mapM l : updateAllSlack l = mapM slack_update l.
Proof.
  apply for_each_task_pointwise with (E := fun _ _ => True); done.
Qed.

(** ** Populating the successors *)

Lemma succ_eq_names l l' : Forall2 succ_eq l l' → names l' = names l.
Proof. unfold names. induction 1 as [|a b l l' [Hn _] _ IH]; simpl; congruence. Qed.

Lemma getTaskObjectFromList_ext n l l' :
  Forall2 succ_eq l l' → getTaskObjectFromList n l' = getTaskObjectFromList n l.
Proof.
  induction 1 as [|a b l l' [Hn _] _ IH]; simpl; [done|].
  rewrite Hn. case_decide; [done|]. by rewrite IH.
Qed.

Lemma for_range_inv body (I : nat → list Task → Prop) i n st st' :
  for_range body i n st = Returns st' → I i st →
  (∀ k s s', (i ≤ k < i + n)%nat → I k s → body k s = Returns s' → I (S k) s') →
  I (i + n)%nat st'.
Proof.
  revert i st. induction n as [|n IH]; intros i st; simpl.
  - intros [= <-] Hi _. by rewrite Nat.add_0_r.
  - intros (st1 & Hst1 & Hrest)%bind_Returns Hi Hstep.
    replace (i + S n)%nat with (S i + n)%nat by lia.
    apply (IH (S i) st1); [done|..].
    + apply (Hstep i st); [lia|done..].
    + intros k s s' Hk. apply Hstep. lia.
Qed.

Lemma for_range_total body (I : nat → list Task → Prop) i n st :
  I i st →
  (∀ k s, (i ≤ k < i + n)%nat → I k s → ∃ s', body k s = Returns s' ∧ I (S k) s') →
  ∃ st', for_range body i n st = Returns st'.
Proof.
  revert i st. induction n as [|n IH]; intros i st Hi Hstep; simpl; [eauto|].
  destruct (Hstep i st ltac:(lia) Hi) as (st1 & -> & Hst1). simpl.
  apply IH; [done|]. intros k s Hk. apply Hstep. lia.
Qed.

Lemma pushSuccessor_Returns tname deps st st' :
  pushSuccessor tname deps st = Returns st' →
  Forall2 succ_eq st st'
  ∧ (∀ d, d ∈ deps → d ∈ names st)
  ∧ ∀ j t t', st !! j = Some t → st' !! j = Some t' →
      ∀ s, s ∈ successors t' ↔
        s ∈ successors t
        ∨ (s = tname ∧ ∃ d, d ∈ deps ∧ getTaskObjectFromList d st = Returns j).
Proof.
  revert st. induction deps as [|d deps IH]; intros st; simpl.
  - intros [= <-]. split_and!; [reflexivity|by intros d ?%elem_of_nil|].
    intros j t t' Ht Ht' s. assert (t' = t) as -> by congruence.
    split; [by left|]. intros [?|(_ & d & ?%elem_of_nil & _)]; done.
  - intros (j0 & Hj0 & Hrest)%bind_Returns.
    set (f := fun depTask => set_successors (successors depTask ++ [tname]) depTask) in *.
    assert (Forall2 succ_eq st (alter f j0 st)) as Hst1.
    { apply Forall2_alter_r; [reflexivity|]. intros x y _ _ Hxy.
      etrans; [exact Hxy|]. done. }
    apply IH in Hrest as (Heq & Hres & Hsucc). split_and!.
    + by etrans.
    + intros d' [->|Hd']%elem_of_cons.
      * apply getTaskObjectFromList_Returns in Hj0 as (t & Ht & <- & _).
        unfold names. apply list_elem_of_fmap. exists t. split; [done|].
        by eapply list_elem_of_lookup_2.
      * rewrite <- (succ_eq_names _ _ Hst1). by apply Hres.
    + intros j t t' Ht Ht' s.
      destruct (decide (j0 = j)) as [->|Hne].
      * rewrite (Hsucc j (f t) t'); [|by rewrite list_lookup_alter_eq, Ht|done].
        simpl. rewrite elem_of_app, list_elem_of_singleton.
        setoid_rewrite elem_of_cons.
        setoid_rewrite (getTaskObjectFromList_ext _ _ _ Hst1). naive_solver.
      * rewrite (Hsucc j t t'); [|by rewrite list_lookup_alter_ne|done].
        setoid_rewrite elem_of_cons.
        setoid_rewrite (getTaskObjectFromList_ext _ _ _ Hst1).
        split; [naive_solver|].
        intros [?|(-> & d' & [->|?] & Hd')]; [by left| |naive_solver].
        congruence.
Qed.

Lemma pushSuccessor_returns tname deps st :
  (∀ d, d ∈ deps → d ∈ names st) → returns (pushSuccessor tname deps st).
Proof.
  revert st. induction deps as [|d deps IH]; intros st Hres; simpl.
  - apply returns_Returns.
  - destruct (getTaskObjectFromList d st) as [j|w|] eqn:Hj; simpl.
    + apply IH. intros d' Hd'.
      rewrite (succ_eq_names st).
      * apply Hres. by right.
      * apply Forall2_alter_r; [reflexivity|]. intros x y _ _ Hxy.
        etrans; [exact Hxy|]. done.
    + apply getTaskObjectFromList_Throws in Hj as [_ Hj].
      destruct Hj. apply Hres. by left.
    + by apply getTaskObjectFromList_fuel in Hj.
Qed.

Lemma populateSuccessors_Returns l l' :
  populateSuccessors l = Returns l' →
  Forall2 succ_eq l l'
  ∧ resolved l
  ∧ ∀ j t t', l !! j = Some t → l' !! j = Some t' →
      ∀ s, s ∈ successors t' ↔
        s ∈ successors t
        ∨ ∃ u d, u ∈ l ∧ name u = s ∧ d ∈ dependencies u
                 ∧ getTaskObjectFromList d l = Returns j.
Proof.
  intros Hpop. unfold populateSuccessors, for_each_task in Hpop.
  pose (I := fun (k : nat) (st : list Task) =>
    Forall2 succ_eq l st
    ∧ (∀ i u d, (i < k)%nat → l !! i = Some u → d ∈ dependencies u → d ∈ names l)
    ∧ ∀ j t t', l !! j = Some t → st !! j = Some t' →
        ∀ s, s ∈ successors t' ↔
          s ∈ successors t
          ∨ ∃ i u d, (i < k)%nat ∧ l !! i = Some u ∧ name u = s
                     ∧ d ∈ dependencies u ∧ getTaskObjectFromList d l = Returns j).
  apply (for_range_inv _ I) in Hpop.
  - destruct Hpop as (Heq & Hres & Hsucc). simpl in *. split_and!; [done|..].
    + intros u d [i Hi]%list_elem_of_lookup Hd. apply (Hres i u d); [|done..].
      by eapply lookup_lt_Some.
    + intros j t t' Ht Ht' s. rewrite (Hsucc j t t' Ht Ht' s). split.
      * intros [?|(i & u & d & _ & Hu & ?)]; [by left|right].
        exists u, d. split; [by eapply list_elem_of_lookup_2|done].
      * intros [?|(u & d & [i Hi]%list_elem_of_lookup & ?)]; [by left|right].
        exists i, u, d. split; [by eapply lookup_lt_Some|done].
  - split_and!; [reflexivity|intros; lia|].
    intros j t t' Ht Ht' s. assert (t' = t) as -> by congruence.
    split; [by left|]. intros [?|(i & _ & _ & ? & _)]; [done|lia].
  - intros k st st' Hk (Heq & Hres & Hsucc) Hbody. simpl in Hk.
    destruct (lookup_lt_is_Some_2 l k ltac:(lia)) as [u Hu].
    destruct (Forall2_lookup_l _ _ _ _ _ Heq Hu) as (tk & Htk & Hutk).
    rewrite Htk in Hbody.
    apply pushSuccessor_Returns in Hbody as (Heq' & Hres' & Hsucc').
    destruct Hutk as (Hname & _ & Hdeps & _).
    split_and!.
    + by etrans.
    + intros i u' d Hi Hu' Hd. destruct (decide (i = k)) as [->|Hne].
      * assert (u' = u) as -> by congruence.
        rewrite <- (succ_eq_names _ _ Heq). apply Hres'. by rewrite <- Hdeps.
      * apply (Hres i u' d); [lia|done..].
    + intros j t t' Ht Ht' s.
      destruct (Forall2_lookup_l _ _ _ _ _ Heq Ht) as (t1 & Ht1 & _).
      rewrite (Hsucc' j t1 t' Ht1 Ht' s), (Hsucc j t t1 Ht Ht1 s).
      setoid_rewrite (getTaskObjectFromList_ext _ _ _ Heq).
      rewrite <- Hname, <- Hdeps. split.
      * intros [[?|(i & u' & d & Hi & ?)]|(-> & d & Hd & Hj)]; [by left|right..].
        -- exists i, u', d. split; [lia|done].
        -- exists k, u, d. split; [lia|done].
      * intros [?|(i & u' & d & Hi & Hu' & Hs & Hd & Hj)]; [by left; left|].
        destruct (decide (i = k)) as [->|Hne].
        -- right. assert (u' = u) as -> by congruence. split; [done|]. by exists d.
        -- left. right. exists i, u', d. split; [lia|done].
Qed.

Lemma populateSuccessors_returns l : resolved l → returns (populateSuccessors l).
Proof.
  intros Hres. unfold populateSuccessors, for_each_task.
  apply (for_range_total _ (fun _ st => Forall2 succ_eq l st)); [reflexivity|].
  intros k st Hk Heq. simpl in Hk.
  destruct (lookup_lt_is_Some_2 l k ltac:(lia)) as [u Hu].
  destruct (Forall2_lookup_l _ _ _ _ _ Heq Hu) as (tk & Htk & Hutk).
  rewrite Htk. destruct Hutk as (Hname & _ & Hdeps & _).
  destruct (pushSuccessor_returns (name tk) (dependencies tk) st) as [st' Hst'].
  - intros d Hd. rewrite (succ_eq_names _ _ Heq). apply (Hres u); [|by rewrite Hdeps].
    by eapply list_elem_of_lookup_2.
  - exists st'. split; [done|].
    apply pushSuccessor_Returns in Hst' as (Heq' & _). by etrans.
Qed.

Lemma getTaskObjectFromList_names n l l' :
  names l = names l' → getTaskObjectFromList n l = getTaskObjectFromList n l'.
Proof.
  revert l'. induction l as [|a l IH]; intros [|b l']; simpl; try done.
  intros [= Hn Hl]. rewrite Hn. case_decide; [done|]. by rewrite (IH l').
Qed.

(** ** The passes leave a schedule in the vector *)

Lemma run_passes_stages fuel l out :
  run_passes fuel l = Returns out →
  ∃ l1 l2 l3,
    Forall2 (fun t t1 => early_update fuel l t = Returns t1) l l1
    ∧ populateSuccessors l1 = Returns l2
    ∧ Forall2 (fun t t3 => late_update fuel l2 t = Returns t3) l2 l3
    ∧ Forall2 (fun t t4 => slack_update t = Returns t4) l3 out.
Proof.
  unfold run_passes.
  intros (l1 & H1 & (l2 & H2 & (l3 & H3 & H4)%bind_Returns)%bind_Returns)%bind_Returns.
  rewrite updateAllEarlyVars_mapM in H1. rewrite updateAllLateVars_mapM in H3.
  rewrite updateAllSlack_mapM in H4. apply mapM_Returns in H1, H3, H4.
  by exists l1, l2, l3.
Qed.

Lemma run_passes_Returns fuel l out :
  loaded l → run_passes fuel l = Returns out →
  Forall2 early_eq l out ∧ scheduled fuel out.
Proof.
  intros Hload (l1 & l2 & l3 & H1 & H2 & H3 & H4)%run_passes_stages.
  apply populateSuccessors_Returns in H2 as (H12 & _ & Hsucc).
  (* the five versions of the task at a position *)
  assert (∀ j t4, out !! j = Some t4 → ∃ t t1 t2 t3 es lf,
    l !! j = Some t ∧ l1 !! j = Some t1 ∧ l2 !! j = Some t2 ∧ l3 !! j = Some t3
    ∧ getEarlyStartScore fuel t l = Returns es
    ∧ t1 = set_EF (int_add es (duration t)) (set_ES es t)
    ∧ succ_eq t1 t2
    ∧ getLateFinishScore fuel t2 l2 = Returns lf
    ∧ t3 = set_LS (int_sub lf (duration t2)) (set_LF lf t2)
    ∧ t4 = set_slack (int_sub (LS t3) (ES t3)) t3) as Hat.
  { intros j t4 Ht4.
    destruct (Forall2_lookup_r _ _ _ _ _ H4 Ht4) as (t3 & Ht3 & [= E4]).
    destruct (Forall2_lookup_r _ _ _ _ _ H3 Ht3) as (t2 & Ht2 & E3).
    destruct (Forall2_lookup_r _ _ _ _ _ H12 Ht2) as (t1 & Ht1 & E2).
    destruct (Forall2_lookup_r _ _ _ _ _ H1 Ht1) as (t & Ht & E1).
    unfold late_update in E3. apply bind_Returns in E3 as (lf & Hlf & [= E3]).
    unfold early_update in E1. apply bind_Returns in E1 as (es & Hes & [= E1]).
    exists t, t1, t2, t3, es, lf. by split_and!. }
  assert (length l = length out) as Hlen.
  { rewrite (Forall2_length _ _ _ H1), (Forall2_length _ _ _ H12),
      (Forall2_length _ _ _ H3). by eapply Forall2_length. }
  assert (length l2 = length out) as Hlen2.
  { rewrite (Forall2_length _ _ _ H3). by eapply Forall2_length. }
  assert (Forall2 early_eq l out) as Hearly.
  { apply Forall2_same_length_lookup_2; [done|]. intros j t t4 Ht Ht4.
    destruct (Hat j t4 Ht4)
      as (t' & t1 & t2 & t3 & es & lf & Ht' & _ & _ & _ & _ & -> & E2 & _ & -> & ->).
    assert (t' = t) as -> by congruence.
    destruct E2 as (? & ? & ? & _). simpl in *. by split_and!. }
  assert (Forall2 late_eq l2 out) as Hlate.
  { apply Forall2_same_length_lookup_2; [done|]. intros j t t4 Ht Ht4.
    destruct (Hat j t4 Ht4)
      as (t0 & t1 & t2 & t3 & es & lf & _ & _ & Ht2 & _ & _ & _ & _ & _ & -> & ->).
    assert (t2 = t) as -> by congruence. done. }
  assert (Forall2 early_eq l1 out) as Hearly1.
  { apply Forall2_same_length_lookup_2.
    { by rewrite <- (Forall2_length _ _ _ H1). }
    intros j t t4 Ht Ht4.
    destruct (Hat j t4 Ht4)
      as (t' & t1 & t2 & t3 & es & lf & _ & Ht1 & _ & _ & _ & _ & E2 & _ & -> & ->).
    assert (t1 = t) as -> by congruence.
    destruct E2 as (? & ? & ? & _). simpl in *. by split_and!. }
  split; [done|]. split.
  - intros t4 [j Ht4]%list_elem_of_lookup.
    destruct (Hat j t4 Ht4)
      as (t & t1 & t2 & t3 & es & lf & Ht & _ & _ & _ & Hes & -> & E2 & _ & -> & ->).
    pose proof (Forall2_lookup_lr _ _ _ _ _ _ Hearly Ht Ht4) as Heq.
    rewrite <- (getEarlyStartScore_ext fuel _ _ _ _ Hearly Heq), Hes.
    destruct E2 as (_ & _ & _ & E2 & _). simpl in *. by rewrite <- E2.
  - intros t4 [j Ht4]%list_elem_of_lookup.
    destruct (Hat j t4 Ht4)
      as (t & t1 & t2 & t3 & es & lf & Ht & _ & _ & _ & Hes & -> & E2 & _ & -> & ->).
    destruct E2 as (_ & Hd & _ & E2 & E2' & _). simpl in *.
    by rewrite <- E2, <- E2', <- Hd.
  - intros j t4 Ht4 s.
    destruct (Hat j t4 Ht4)
      as (t & t1 & t2 & t3 & es & lf & Ht & Ht1 & Ht2 & _ & Hes & E1 & E2 & _ & -> & ->).
    simpl. rewrite (Hsucc j t1 t2 Ht1 Ht2 s).
    assert (successors t1 = []) as ->.
    { subst t1. simpl. unfold loaded in Hload. rewrite Forall_forall in Hload.
      apply Hload. by eapply list_elem_of_lookup_2. }
    assert (names l1 = names out) as Hnames.
    { unfold names. clear -Hearly1.
      induction Hearly1 as [|a b ? ? [Hn _] _ IH]; simpl; congruence. }
    setoid_rewrite (getTaskObjectFromList_names _ l1 out Hnames).
    split.
    + intros [[]%elem_of_nil|(u & d & [i Hu]%list_elem_of_lookup & Hn & Hd & Hj)].
      destruct (Forall2_lookup_l _ _ _ _ _ Hearly1 Hu) as (u4 & Hu4 & Hn4 & _ & Hd4).
      exists u4, d. split_and!; [by eapply list_elem_of_lookup_2|congruence| |done].
      by rewrite <- Hd4.
    + intros (u4 & d & [i Hu4]%list_elem_of_lookup & Hn & Hd & Hj). right.
      destruct (Forall2_lookup_r _ _ _ _ _ Hearly1 Hu4) as (u & Hu & Hn4 & _ & Hd4).
      exists u, d. split_and!; [by eapply list_elem_of_lookup_2|congruence| |done].
      by rewrite Hd4.
  - intros t4 [j Ht4]%list_elem_of_lookup.
    destruct (Hat j t4 Ht4)
      as (t & t1 & t2 & t3 & es & lf & _ & _ & Ht2 & _ & _ & _ & _ & Hlf & -> & ->).
    pose proof (Forall2_lookup_lr _ _ _ _ _ _ Hlate Ht2 Ht4) as Heq.
    by rewrite <- (getLateFinishScore_ext fuel _ _ _ _ Hlate Heq), Hlf.
  - intros t4 [j Ht4]%list_elem_of_lookup.
    destruct (Hat j t4 Ht4)
      as (t & t1 & t2 & t3 & es & lf & _ & _ & Ht2 & _ & _ & _ & _ & Hlf & -> & ->).
    done.
  - intros t4 [j Ht4]%list_elem_of_lookup.
    destruct (Hat j t4 Ht4)
      as (t & t1 & t2 & t3 & es & lf & _ & _ & Ht2 & _ & _ & _ & _ & Hlf & -> & ->).
    done.
Qed.

(** ** Validity depends on names, durations and dependencies only *)

Lemma early_eq_names l l' : Forall2 early_eq l l' → names l' = names l.
Proof. unfold names. induction 1 as [|a b l l' [Hn _] _ IH]; simpl; congruence. Qed.

Lemma early_eq_depends_on l l' a b :
  Forall2 early_eq l l' → depends_on l a b ↔ depends_on l' a b.
Proof.
  intros Heq. split.
  - intros (t & [i Ht]%list_elem_of_lookup & Hn & Hd).
    destruct (Forall2_lookup_l _ _ _ _ _ Heq Ht) as (t' & Ht' & Hn' & _ & Hd').
    exists t'. split_and!; [by eapply list_elem_of_lookup_2|congruence|congruence].
  - intros (t' & [i Ht']%list_elem_of_lookup & Hn & Hd).
    destruct (Forall2_lookup_r _ _ _ _ _ Heq Ht') as (t & Ht & Hn' & _ & Hd').
    exists t. split_and!; [by eapply list_elem_of_lookup_2|congruence|congruence].
Qed.

Lemma early_eq_valid_dag l l' : Forall2 early_eq l l' → valid_dag l → valid_dag l'.
Proof.
  intros Heq [Hnd Hres Hac Hdur Htot]. split.
  - by rewrite (early_eq_names _ _ Heq).
  - intros t' d [i Ht']%list_elem_of_lookup Hd.
    destruct (Forall2_lookup_r _ _ _ _ _ Heq Ht') as (t & Ht & _ & _ & Hd').
    rewrite (early_eq_names _ _ Heq). apply (Hres t); [|congruence].
    by eapply list_elem_of_lookup_2.
  - intros a Ha. apply (Hac a). revert Ha. apply tc_mono.
    intros x y. by apply early_eq_depends_on.
  - clear -Heq Hdur. induction Heq as [|a b l l' (_ & Hd & _) _ IH].
    + constructor.
    + inversion_clear Hdur. constructor; [lia|auto].
  - assert (sum_durations l' = sum_durations l) as ->; [|done].
    clear -Heq. induction Heq as [|a b l l' (_ & Hd & _) _ IH]; simpl; [done|lia].
Qed.

Lemma sum_durations_app l k :
  sum_durations (l ++ k) = sum_durations l + sum_durations k.
Proof. induction l as [|t l IH]; simpl; lia. Qed.

Lemma sum_durations_Permutation l k :
  l ≡ₚ k → sum_durations l = sum_durations k.
Proof. induction 1; simpl; lia. Qed.

Lemma sum_durations_nonneg l :
  Forall (fun t => 0 ≤ duration t) l → 0 ≤ sum_durations l.
Proof. induction 1; simpl; lia. Qed.

Lemma sum_durations_submseteq l k :
  Forall (fun t => 0 ≤ duration t) k → l ⊆+ k → sum_durations l ≤ sum_durations k.
Proof.
  intros Hk (r & Hr)%submseteq_Permutation.
  rewrite (sum_durations_Permutation _ _ Hr), sum_durations_app.
  rewrite Hr, Forall_app in Hk. destruct Hk as [_ Hk].
  pose proof (sum_durations_nonneg r Hk). lia.
Qed.

(** The project length is the largest early finish, or the initial 0. *)
Lemma projectLength_ge l t : t ∈ l → EF t ≤ projectLength l.
Proof.
  unfold projectLength. generalize 0.
  induction l as [|u l IH]; intros z; [by intros ?%elem_of_nil|].
  assert (∀ z, z ≤ fold_left
    (fun len t => if decide (EF t > len) then EF t else len) l z) as Hmono.
  { clear. induction l as [|u l IH]; intros z; simpl; [lia|].
    etrans; [|apply IH]. case_decide; lia. }
  intros [->|Ht]%elem_of_cons; simpl; [|by apply IH].
  etrans; [|apply Hmono]. case_decide; lia.
Qed.

Lemma projectLength_attained l :
  0 ≤ projectLength l
  ∧ (projectLength l = 0 ∨ ∃ t, t ∈ l ∧ EF t = projectLength l).
Proof.
  unfold projectLength.
  cut (∀ z, z ≤ fold_left
    (fun len t => if decide (EF t > len) then EF t else len) l z
    ∧ (fold_left (fun len t => if decide (EF t > len) then EF t else len) l z = z
       ∨ ∃ t, t ∈ l ∧ EF t = fold_left
           (fun len t => if decide (EF t > len) then EF t else len) l z)).
  { intros H. apply (H 0). }
  induction l as [|u l IH]; intros z; simpl; [split; [lia|by left]|].
  destruct (IH (if decide (EF u > z) then EF u else z)) as [Hle Hcase].
  split; [case_decide; lia|].
  destruct Hcase as [Heq|(t & Ht & Heq)].
  - case_decide; [right|by left]. exists u. split; [left|]; done.
  - right. exists t. split; [by right|done].
Qed.

(** ** The schedule of a valid input *)

Section schedule.
Context (fuel : nat) (out : list Task).
Hypothesis Hsched : scheduled fuel out.
Hypothesis Hvalid : valid_dag out.

Lemma lookup_out t : t ∈ out → getTaskFromList (name t) out = Returns t.
Proof. apply getTaskFromList_NoDup, Hvalid. Qed.

Lemma out_eq t u : t ∈ out → u ∈ out → name t = name u → t = u.
Proof. apply NoDup_names_eq, Hvalid. Qed.

(** The early start dominates the early finish of every dependency ... *)
Lemma ES_ge t d :
  t ∈ out → d ∈ dependencies t → ∃ u, u ∈ out ∧ name u = d ∧ EF u ≤ ES t.
Proof.
  intros Ht Hd.
  destruct (getEarlyStartScore_value _ _ _ _ (sched_ES _ _ Hsched t Ht))
    as (_ & Hall & _).
  destruct (Hall d Hd) as (u & s & Hu & Hs & Hle).
  apply getTaskFromList_elem_of in Hu as [Hu Hn].
  rewrite (sched_ES _ _ Hsched u Hu) in Hs. injection Hs as <-.
  exists u. split_and!; [done..|]. by rewrite (sched_EF _ _ Hsched u Hu).
Qed.

(** ... and is attained by one of them, or is the initial 0. *)
Lemma ES_max t :
  t ∈ out →
  0 ≤ ES t
  ∧ (ES t = 0 ∨ ∃ u, u ∈ out ∧ name u ∈ dependencies t ∧ EF u = ES t).
Proof.
  intros Ht.
  destruct (getEarlyStartScore_value _ _ _ _ (sched_ES _ _ Hsched t Ht))
    as (Hle & _ & Hmax).
  split; [done|]. destruct Hmax as [?|(d & u & s & Hd & Hu & Hs & Hv)]; [by left|].
  right. apply getTaskFromList_elem_of in Hu as [Hu Hn].
  rewrite (sched_ES _ _ Hsched u Hu) in Hs. injection Hs as <-.
  exists u. split_and!; [done|by rewrite Hn|].
  by rewrite (sched_EF _ _ Hsched u Hu).
Qed.

(** The successors are the inverse of the dependencies. *)
Lemma successors_spec t s :
  t ∈ out →
  s ∈ successors t ↔ ∃ u, u ∈ out ∧ name u = s ∧ name t ∈ dependencies u.
Proof.
  intros [j Hj]%list_elem_of_lookup.
  rewrite (sched_succ _ _ Hsched j t Hj s). split.
  - intros (u & d & Hu & Hn & Hd & Hidx). exists u. split_and!; [done..|].
    apply getTaskObjectFromList_Returns in Hidx as (t' & Ht' & <- & _).
    by assert (t' = t) as -> by congruence.
  - intros (u & Hu & Hn & Hd). exists u, (name t). split_and!; [done..|].
    apply getTaskObjectFromList_Returns. exists t. split_and!; [done..|].
    intros i v Hi Hv Hname.
    assert (i = j); [|lia].
    eapply NoDup_names_lookup; [apply Hvalid|done..].
Qed.

Lemma LF_leaf t : t ∈ out → successors t = [] → LF t = EF t.
Proof.
  intros Ht Hs.
  destruct (getLateFinishScore_value _ _ _ _ (sched_LF _ _ Hsched t Ht))
    as [[_ ?]|[? _]]; done.
Qed.

Lemma LF_le t s :
  t ∈ out → s ∈ successors t →
  LF t ≤ INT_MAX ∧ ∃ u, u ∈ out ∧ name u = s ∧ LF t ≤ LS u.
Proof.
  intros Ht Hs.
  destruct (getLateFinishScore_value _ _ _ _ (sched_LF _ _ Hsched t Ht))
    as [[Hnil _]|(_ & Hmax & Hall & _)].
  { rewrite Hnil in Hs. by apply elem_of_nil in Hs. }
  split; [done|]. destruct (Hall s Hs) as (u & r & Hu & Hr & Hle).
  apply getTaskFromList_elem_of in Hu as [Hu Hn].
  rewrite (sched_LF _ _ Hsched u Hu) in Hr. injection Hr as <-.
  exists u. split_and!; [done..|]. by rewrite (sched_LS _ _ Hsched u Hu).
Qed.

Lemma LF_min t :
  t ∈ out → successors t ≠ [] →
  LF t = INT_MAX ∨ ∃ u, u ∈ out ∧ name u ∈ successors t ∧ LF t = LS u.
Proof.
  intros Ht Hs.
  destruct (getLateFinishScore_value _ _ _ _ (sched_LF _ _ Hsched t Ht))
    as [[Hnil _]|(_ & _ & _ & Hmin)]; [done|].
  destruct Hmin as [?|(s & u & r & Hs' & Hu & Hr & Hv)]; [by left|right].
  apply getTaskFromList_elem_of in Hu as [Hu Hn].
  rewrite (sched_LF _ _ Hsched u Hu) in Hr. injection Hr as <-.
  exists u. split_and!; [done|by rewrite Hn|].
  by rewrite (sched_LS _ _ Hsched u Hu).
Qed.

Lemma durations_nonneg t : t ∈ out → 0 ≤ duration t.
Proof.
  intros Ht. pose proof (valid_durations _ Hvalid) as H.
  rewrite Forall_forall in H. by apply H.
Qed.

(** *** Chains of binding predecessors *)

Lemma early_chain_elem_of rc t : early_chain out rc t → Forall (.∈ out) (t :: rc).
Proof.
  induction 1 as [t Ht _|rc u t _ IH Ht _ _]; constructor; done.
Qed.

Lemma early_chain_names rc t :
  early_chain out rc t → Sorted (depends_on out) (name t :: map name rc).
Proof.
  induction 1 as [t Ht _|rc u t _ IH Ht Hd _]; simpl.
  - repeat constructor.
  - constructor; [done|]. constructor. by exists t.
Qed.

Lemma early_chain_sum rc t :
  early_chain out rc t → sum_durations (t :: rc) ≤ sum_durations out.
Proof.
  intros Hc. apply sum_durations_submseteq; [apply Hvalid|].
  apply NoDup_submseteq.
  - apply (NoDup_fmap_1 name).
    apply (chain_NoDup (depends_on out)); [apply Hvalid|].
    by apply early_chain_names in Hc.
  - apply early_chain_elem_of in Hc. by rewrite Forall_forall in Hc.
Qed.

Lemma early_chain_EF rc t :
  early_chain out rc t → ES t = sum_durations rc →
  EF t = ES t + duration t ∧ EF t ≤ sum_durations out.
Proof.
  intros Hc Hsum. pose proof (early_chain_sum rc t Hc) as Hle.
  pose proof (early_chain_elem_of rc t Hc) as Hin.
  apply Forall_cons in Hin as [Ht _].
  pose proof (durations_nonneg t Ht). pose proof (valid_total _ Hvalid).
  destruct (ES_max t Ht) as [? _]. simpl in Hle.
  rewrite (sched_EF _ _ Hsched t Ht). unfold int_add.
  rewrite wrap_id; [lia|]. unfold in_int, INT_MIN, INT_MAX in *. lia.
Qed.

Lemma early_chain_exists t :
  t ∈ out → ∃ rc, early_chain out rc t ∧ ES t = sum_durations rc.
Proof.
  intros Ht. remember (name t) as a eqn:Ha. revert t Ht Ha.
  induction a as [a IH] using
    (acyclic_ind (depends_on out) (names out) (valid_acyclic _ Hvalid)
       (fun a b => depends_on_resolved out a b (valid_resolved _ Hvalid))).
  intros t Ht ->.
  destruct (dependencies t) as [|d ds] eqn:Hdeps.
  { exists []. split; [by constructor|].
    destruct (ES_max t Ht) as [_ [?|(u & _ & Hu & _)]]; [done|].
    rewrite Hdeps in Hu. by apply elem_of_nil in Hu. }
  assert (∀ u, u ∈ out → name u ∈ dependencies t →
    ∃ rc, early_chain out rc u ∧ ES u = sum_durations rc) as IHu.
  { intros u Hu Hd. apply (IH (name u)); [|done..]. by exists t. }
  assert (∃ u, u ∈ out ∧ name u ∈ dependencies t ∧ EF u = ES t)
    as (u & Hu & Hd & Hbind).
  { destruct (ES_max t Ht) as [_ [Hzero|?]]; [|done].
    destruct (ES_ge t d Ht) as (u & Hu & Hn & Hle); [rewrite Hdeps; left|].
    exists u. rewrite Hn, Hdeps. split_and!; [done|left|].
    destruct (IHu u Hu) as (rc & Hrc & Hsum); [rewrite Hn, Hdeps; left|].
    destruct (early_chain_EF rc u Hrc Hsum) as [HEF _].
    destruct (ES_max u Hu) as [? _]. pose proof (durations_nonneg u Hu). lia. }
  destruct (IHu u Hu Hd) as (rc & Hrc & Hsum).
  destruct (early_chain_EF rc u Hrc Hsum) as [HEF _].
  exists (u :: rc). split; [by constructor|]. simpl. lia.
Qed.

(** *** No overflow in the forward pass *)
Lemma early_bounds t :
  t ∈ out → 0 ≤ ES t ∧ EF t = ES t + duration t ∧ EF t ≤ sum_durations out.
Proof.
  intros Ht. destruct (early_chain_exists t Ht) as (rc & Hrc & Hsum).
  destruct (early_chain_EF rc t Hrc Hsum). destruct (ES_max t Ht). done.
Qed.

Lemma projectLength_bound : projectLength out ≤ INT_MAX.
Proof.
  pose proof (valid_total _ Hvalid).
  destruct (projectLength_attained out) as [_ [->|(t & Ht & <-)]]; [done|].
  destruct (early_bounds t Ht) as (_ & _ & ?). lia.
Qed.

(** *** The backward pass *)
Lemma late_bounds t :
  t ∈ out →
  EF t ≤ LF t ∧ LF t ≤ projectLength out ∧ LS t = LF t - duration t.
Proof.
  intros Ht. remember (name t) as a eqn:Ha. revert t Ht Ha.
  induction a as [a IH] using
    (acyclic_ind (flip (depends_on out)) (names out)
       (fun a => acyclic_flip out a (valid_acyclic _ Hvalid))
       (fun a b => depends_on_names out b a)).
  intros t Ht ->.
  pose proof projectLength_bound as HP.
  pose proof (projectLength_ge out t Ht) as HEFP.
  destruct (early_bounds t Ht) as (HES & HEF & _).
  assert (EF t ≤ LF t ∧ LF t ≤ projectLength out) as [Hlo Hhi].
  { destruct (successors t) as [|s ss] eqn:Hsuccs.
    { rewrite (LF_leaf t Ht Hsuccs). lia. }
    assert (∀ u, u ∈ out → name u ∈ successors t →
      EF t ≤ LS u ∧ LS u ≤ projectLength out) as Hsucc.
    { intros u Hu Hs.
      apply (successors_spec t (name u) Ht) in Hs as (u' & Hu' & Hn & Hd).
      assert (u' = u) as -> by by apply out_eq.
      destruct (IH (name u)) with (t := u) as (? & ? & ->); [by exists u|done..|].
      destruct (early_bounds u Hu) as (_ & ? & _).
      destruct (ES_ge u (name t) Hu Hd) as (t' & Ht' & Hn' & ?).
      assert (t' = t) as -> by by apply out_eq.
      pose proof (durations_nonneg u Hu). lia. }
    split.
    - destruct (LF_min t Ht) as [->|(u & Hu & Hs & ->)]; [by rewrite Hsuccs|lia|].
      by apply Hsucc.
    - destruct (LF_le t s Ht) as (_ & u & Hu & Hn & Hle); [rewrite Hsuccs; left|].
      destruct (Hsucc u Hu); [rewrite Hn, Hsuccs; left|]. lia. }
  split_and!; [done..|]. pose proof (durations_nonneg t Ht).
  rewrite (sched_LS _ _ Hsched t Ht). unfold int_sub.
  apply wrap_id. unfold in_int, INT_MIN, INT_MAX in *. lia.
Qed.

Lemma slack_bounds t :
  t ∈ out → slack t = LS t - ES t ∧ slack t = LF t - EF t ∧ 0 ≤ slack t.
Proof.
  intros Ht. destruct (late_bounds t Ht) as (? & ? & HLS).
  destruct (early_bounds t Ht) as (? & ? & _).
  pose proof projectLength_bound. pose proof (durations_nonneg t Ht).
  rewrite (sched_slack _ _ Hsched t Ht). unfold int_sub.
  rewrite wrap_id; [lia|]. unfold in_int, INT_MIN, INT_MAX in *. lia.
Qed.
End schedule.

(** ** Termination of the two recursions *)

Lemma mapM_returns f l : (∀ t, t ∈ l → returns (f t)) → returns (mapM f l).
Proof.
  induction l as [|t l IH]; intros Hf; simpl; [apply returns_Returns|].
  destruct (Hf t ltac:(left)) as [t' ->]. simpl.
  destruct IH as [l' ->]; [intros; apply Hf; by right|]. apply returns_Returns.
Qed.

Lemma walkLoop_no_throw step rec l ns acc w :
  (∀ d, d ∈ ns → d ∈ names l) → (∀ u, u ∈ l → rec u ≠ Throws w) →
  walkLoop step rec l ns acc ≠ Throws w.
Proof.
  intros Hns Hrec. revert acc. induction ns as [|d ns IH]; intros acc; simpl; [done|].
  destruct (getTaskFromList_resolves d l) as [u Hu]; [apply Hns; left|].
  rewrite Hu. simpl. apply getTaskFromList_elem_of in Hu as [Hu _].
  pose proof (Hrec u Hu) as Hrecu. destruct (rec u); simpl; [|done..].
  apply IH. intros d' Hd'. apply Hns. by right.
Qed.

Lemma walk_no_throw adj leaf init step l :
  (∀ t d, t ∈ l → d ∈ adj t → d ∈ names l) →
  ∀ fuel t w, t ∈ l → walk adj leaf init step fuel t l ≠ Throws w.
Proof.
  intros Hres. induction fuel as [|fuel IH]; intros t w Ht; simpl; [done|].
  destruct (adj t) as [|d0 ds] eqn:Hadj; [done|].
  apply walkLoop_no_throw.
  - intros d Hd. apply (Hres t); [done|by rewrite Hadj].
  - intros u Hu. by apply IH.
Qed.

Lemma early_walk_edge l a b : walk_edge dependencies l a b → depends_on l a b.
Proof. intros (t & [Ht Hn]%getTaskFromList_elem_of & Hb). by exists t. Qed.

Lemma getEarlyStartScore_terminates l fuel t :
  acyclic l → resolved l → t ∈ l → (length l < fuel)%nat →
  returns (getEarlyStartScore fuel t l).
Proof.
  intros Hac Hres Ht Hfuel. rewrite getEarlyStartScore_walk.
  assert (early_walk (S (length l)) t l ≠ OutOfFuel) as Hfuel'.
  { apply walk_terminates with (R := depends_on l); [apply early_walk_edge|].
    intros d Hd. replace (length l) with (length (names l))
      by (unfold names; by rewrite length_map).
    apply depth_le_dom; [done| |by apply (Hres t)].
    intros a b. by apply depends_on_resolved. }
  rewrite (walk_mono _ _ _ _ (S (length l)) fuel); [|lia|done].
  pose proof (walk_no_throw dependencies (fun _ => 0) 0 early_step l Hres
    (S (length l)) t) as Hthrow.
  destruct (early_walk (S (length l)) t l) as [v|w|]; [by exists v| |done].
  by destruct (Hthrow w).
Qed.

(** After [populateSuccessors], on a freshly loaded vector, every successor
    edge is a reversed dependency edge. *)
Lemma populated_successors l1 l2 j t2 s :
  loaded l1 → populateSuccessors l1 = Returns l2 → l2 !! j = Some t2 →
  s ∈ successors t2 ↔ ∃ u, u ∈ l1 ∧ name u = s ∧ name t2 ∈ dependencies u
                          ∧ getTaskObjectFromList (name t2) l1 = Returns j.
Proof.
  intros Hload (Heq & _ & Hsucc)%populateSuccessors_Returns Ht2.
  destruct (Forall2_lookup_r _ _ _ _ _ Heq Ht2) as (t1 & Ht1 & Hn & _).
  rewrite (Hsucc j t1 t2 Ht1 Ht2 s).
  assert (successors t1 = []) as ->.
  { unfold loaded in Hload. rewrite Forall_forall in Hload. apply Hload.
    by eapply list_elem_of_lookup_2. }
  split.
  - intros [[]%elem_of_nil|(u & d & Hu & Hs & Hd & Hidx)].
    pose proof Hidx as (t1' & Ht1' & <- & _)%getTaskObjectFromList_Returns.
    assert (t1' = t1) as -> by congruence. rewrite <- Hn. by exists u.
  - intros (u & Hu & Hs & Hd & Hidx). right. by exists u, (name t2).
Qed.

Lemma late_walk_edge l1 l2 a s :
  loaded l1 → populateSuccessors l1 = Returns l2 →
  walk_edge successors l2 a s → depends_on l1 s a.
Proof.
  intros Hload Hpop (t2 & (j & Hj & Hn & _)%getTaskFromList_Returns & Hs).
  apply (populated_successors l1 l2 j t2 s Hload Hpop Hj) in Hs
    as (u & Hu & Hnu & Hd & _).
  exists u. by rewrite <- Hn.
Qed.

Lemma late_walk_edge_inv l1 l2 a s :
  populateSuccessors l1 = Returns l2 →
  depends_on l1 s a → a ∈ names l1 → walk_edge successors l2 a s.
Proof.
  intros Hpop (u & Hu & Hn & Hd) Ha.
  pose proof Hpop as (Heq & _ & Hsucc)%populateSuccessors_Returns.
  destruct (getTaskFromList_resolves a l2) as [t2 Ht2].
  { by rewrite (succ_eq_names _ _ Heq). }
  exists t2. split; [done|].
  apply getTaskFromList_Returns in Ht2 as (j & Hj).
  pose proof Hj as (Hj2 & _).
  destruct (Forall2_lookup_r _ _ _ _ _ Heq Hj2) as (t1 & Ht1 & _).
  apply (Hsucc j t1 t2 Ht1 Hj2 s). right. exists u, a. split_and!; [done..|].
  rewrite <- (getTaskObjectFromList_ext a l1 l2 Heq).
  apply getTaskObjectFromList_Returns. by exists t2.
Qed.

Lemma getLateFinishScore_terminates l1 l2 fuel t :
  loaded l1 → acyclic l1 → populateSuccessors l1 = Returns l2 →
  t ∈ l2 → (length l1 < fuel)%nat →
  returns (getLateFinishScore fuel t l2).
Proof.
  intros Hload Hac Hpop Ht Hfuel. rewrite getLateFinishScore_walk.
  pose proof Hpop as (Heq & _ & _)%populateSuccessors_Returns.
  assert (∀ t d, t ∈ l2 → d ∈ successors t → d ∈ names l2) as Hres.
  { intros t' d [j Hj]%list_elem_of_lookup Hd.
    apply (populated_successors l1 l2 j t' d Hload Hpop Hj) in Hd
      as (u & Hu & Hnu & _).
    rewrite (succ_eq_names _ _ Heq), <- Hnu. unfold names.
    apply list_elem_of_fmap. eauto. }
  assert (late_walk (S (length l1)) t l2 ≠ OutOfFuel) as Hfuel'.
  { apply walk_terminates with (R := flip (depends_on l1)).
    { intros a b. by apply late_walk_edge. }
    intros d Hd. replace (length l1) with (length (names l1))
      by (unfold names; by rewrite length_map).
    apply depth_le_dom.
    - intros a. by apply acyclic_flip.
    - intros a b. apply depends_on_names.
    - rewrite <- (succ_eq_names _ _ Heq). by apply (Hres t). }
  rewrite (walk_mono _ _ _ _ (S (length l1)) fuel); [|lia|done].
  pose proof (walk_no_throw successors EF INT_MAX late_step l2 Hres
    (S (length l1)) t) as Hthrow.
  destruct (late_walk (S (length l1)) t l2) as [v|w|]; [by exists v| |done].
  by destruct (Hthrow w).
Qed.

Lemma early_stage_returns fuel l :
  loaded l → acyclic l → resolved l → (length l < fuel)%nat →
  ∃ l1, updateAllEarlyVars fuel l = Returns l1
        ∧ Forall2 early_eq l l1 ∧ loaded l1 ∧ resolved l1 ∧ acyclic l1.
Proof.
  intros Hload Hac Hres Hfuel. rewrite updateAllEarlyVars_mapM.
  destruct (mapM_returns (early_update fuel l) l) as [l1 H1].
  { intros t Ht. unfold early_update.
    destruct (getEarlyStartScore_terminates l fuel t) as [v ->]; [done..|].
    apply returns_Returns. }
  exists l1. split; [done|]. apply mapM_Returns in H1.
  assert (Forall2 (fun a b => early_eq a b ∧ successors b = successors a) l l1) as Heq1.
  { eapply Forall2_impl; [exact H1|]. intros a b. unfold early_update.
    intros (v & _ & [= <-])%bind_Returns. done. }
  assert (Forall2 early_eq l l1) as Hearly
    by (eapply Forall2_impl; [exact Heq1|naive_solver]).
  split_and!; [done|..].
  - unfold loaded, constructed in *. rewrite Forall_forall in Hload.
    apply Forall_forall. intros t1 [j Hj]%list_elem_of_lookup.
    destruct (Forall2_lookup_r _ _ _ _ _ Heq1 Hj) as (t & Ht & _ & ->).
    apply Hload. by eapply list_elem_of_lookup_2.
  - intros t1 d [j Hj]%list_elem_of_lookup Hd.
    destruct (Forall2_lookup_r _ _ _ _ _ Hearly Hj) as (t & Ht & _ & _ & Hd').
    rewrite (early_eq_names _ _ Hearly). apply (Hres t); [|congruence].
    by eapply list_elem_of_lookup_2.
  - intros a Ha. apply (Hac a). revert Ha. apply tc_mono.
    intros x y. by apply early_eq_depends_on.
Qed.

Lemma run_passes_returns fuel l :
  loaded l → acyclic l → resolved l → (length l < fuel)%nat →
  returns (run_passes fuel l).
Proof.
  intros Hload Hac Hres Hfuel. unfold run_passes.
  destruct (early_stage_returns fuel l Hload Hac Hres Hfuel)
    as (l1 & -> & Hearly & Hload1 & Hres1 & Hac1). simpl.
  destruct (populateSuccessors_returns l1 Hres1) as [l2 H2]. rewrite H2. simpl.
  rewrite updateAllLateVars_mapM.
  destruct (mapM_returns (late_update fuel l2) l2) as [l3 H3].
  { intros t Ht. unfold late_update.
    destruct (getLateFinishScore_terminates l1 l2 fuel t) as [v ->]; [done..| |].
    - by rewrite <- (Forall2_length _ _ _ Hearly).
    - apply returns_Returns. }
  rewrite H3. simpl. rewrite updateAllSlack_mapM.
  apply mapM_returns. intros t _. apply returns_Returns.
Qed.

(** ** The schedule of a valid, freshly loaded input exists *)

Lemma schedule_of_valid fuel l :
  valid_dag l → loaded l → (length l < fuel)%nat →
  ∃ out, run_passes fuel l = Returns out
         ∧ Forall2 early_eq l out ∧ scheduled fuel out ∧ valid_dag out.
Proof.
  intros Hvalid Hload Hfuel.
  destruct (run_passes_returns fuel l Hload) as [out Hout];
    [apply Hvalid..|done|].
  destruct (run_passes_Returns fuel l out Hload Hout) as [Heq Hsched].
  exists out. split_and!; [done..|]. by apply (early_eq_valid_dag l).
Qed.

Lemma valid_dag_nonempty l out :
  Forall2 early_eq l out → l ≠ [] → out ≠ [].
Proof. intros Heq Hl ->. apply Forall2_nil_inv_r in Heq. done. Qed.

(** ** The critical path *)

Lemma Sorted_snoc {A} (R : relation A) (l : list A) (x y : A) :
  Sorted R (l ++ [x]) → R x y → Sorted R ((l ++ [x]) ++ [y]).
Proof.
  intros Hl Hxy. induction l as [|a l IH]; simpl in *.
  - repeat constructor. done.
  - apply Sorted_inv in Hl as [Hl Hhd]. constructor; [by apply IH|].
    destruct l; simpl in *; apply HdRel_inv in Hhd; by constructor.
Qed.

Section critical_path.
Context (fuel : nat) (out : list Task).
Hypothesis Hsched : scheduled fuel out.
Hypothesis Hvalid : valid_dag out.

Lemma leaf_critical t : t ∈ out → successors t = [] → slack t = 0.
Proof.
  intros Ht Hs. destruct (slack_bounds fuel out Hsched Hvalid t Ht) as (_ & -> & _).
  rewrite (LF_leaf fuel out Hsched t Ht Hs). lia.
Qed.

(** A binding predecessor of a critical task is critical. *)
Lemma critical_predecessor u t :
  u ∈ out → t ∈ out → name u ∈ dependencies t → EF u = ES t →
  slack t = 0 → slack u = 0.
Proof.
  intros Hu Ht Hd Hbind Hslack.
  destruct (slack_bounds fuel out Hsched Hvalid t Ht) as (HsT & _ & _).
  destruct (slack_bounds fuel out Hsched Hvalid u Hu) as (_ & HsU & ?).
  destruct (late_bounds fuel out Hsched Hvalid u Hu) as (? & _ & _).
  destruct (LF_le fuel out Hsched u (name t) Hu) as (_ & t' & Ht' & Hn & Hle).
  { apply (successors_spec fuel out Hsched Hvalid u (name t) Hu). by exists t. }
  assert (t' = t) as -> by by apply (out_eq out Hvalid).
  lia.
Qed.

Lemma early_chain_critical rc t :
  early_chain out rc t → slack t = 0 → Forall (critical out) (t :: rc).
Proof.
  induction 1 as [t Ht _|rc u t Hc IH Ht Hd Hbind]; intros Hslack.
  - by repeat constructor.
  - constructor; [done|]. apply IH.
    apply (critical_predecessor u t); try done.
    pose proof (early_chain_elem_of out rc u Hc) as Hin.
    by apply Forall_cons in Hin as [? _].
Qed.

Lemma early_chain_path rc t :
  early_chain out rc t →
  Sorted cpm_edge (rev rc ++ [t])
  ∧ ∃ root, head (rev rc ++ [t]) = Some root ∧ dependencies root = [].
Proof.
  induction 1 as [t Ht Hroot|rc u t Hc [IH1 (root & IH2 & IH3)] Ht Hd Hbind]; simpl.
  - split; [repeat constructor|]. by exists t.
  - split.
    + apply Sorted_snoc; [done|]. split; [done|].
      pose proof (early_chain_elem_of out rc u Hc) as Hin.
      apply Forall_cons in Hin as [Hu _].
      apply (successors_spec fuel out Hsched Hvalid u (name t) Hu). by exists t.
    + exists root. split; [|done].
      destruct (rev rc ++ [u]) as [|x xs] eqn:E; [by destruct (rev rc)|].
      simpl in *. done.
Qed.

(** Some task without successors finishes at the project length. *)
Lemma final_leaf t :
  t ∈ out → EF t = projectLength out →
  ∃ leaf, leaf ∈ out ∧ successors leaf = [] ∧ EF leaf = projectLength out.
Proof.
  intros Ht. remember (name t) as a eqn:Ha. revert t Ht Ha.
  induction a as [a IH] using
    (acyclic_ind (flip (depends_on out)) (names out)
       (fun a => acyclic_flip out a (valid_acyclic _ Hvalid))
       (fun a b => depends_on_names out b a)).
  intros t Ht -> HEF.
  destruct (successors t) as [|s ss] eqn:Hsuccs; [by exists t|].
  assert (s ∈ successors t) as Hs by (rewrite Hsuccs; left).
  apply (successors_spec fuel out Hsched Hvalid t s Ht) in Hs as (u & Hu & Hn & Hd).
  apply (IH (name u)) with (t := u); [by exists u|done..|].
  destruct (ES_ge fuel out Hsched u (name t) Hu Hd) as (t' & Ht' & Hn' & Hle).
  assert (t' = t) as -> by by apply (out_eq out Hvalid).
  destruct (early_bounds fuel out Hsched Hvalid u Hu) as (_ & ? & _).
  pose proof (durations_nonneg out Hvalid u Hu).
  pose proof (projectLength_ge out u Hu). lia.
Qed.

Lemma project_finish_attained :
  out ≠ [] → ∃ t, t ∈ out ∧ EF t = projectLength out.
Proof.
  intros Hne. destruct (projectLength_attained out) as [_ [Hzero|?]]; [|done].
  destruct out as [|t rest] eqn:E; [done|]. rewrite <- E in *.
  assert (t ∈ out) as Ht by (rewrite E; left).
  exists t. split; [done|].
  destruct (early_bounds fuel out Hsched Hvalid t Ht) as (? & ? & _).
  pose proof (durations_nonneg out Hvalid t Ht).
  pose proof (projectLength_ge out t Ht). lia.
Qed.

Lemma critical_path_exists :
  out ≠ [] →
  ∃ path root leaf,
    Forall (critical out) path
    ∧ Sorted cpm_edge path
    ∧ head path = Some root ∧ dependencies root = []
    ∧ last path = Some leaf ∧ successors leaf = []
    ∧ sum_durations path = projectLength out.
Proof.
  intros Hne. destruct (project_finish_attained Hne) as (t & Ht & HEF).
  destruct (final_leaf t Ht HEF) as (leaf & Hleaf & Hsucc & HEFleaf).
  destruct (early_chain_exists fuel out Hsched Hvalid leaf Hleaf)
    as (rc & Hrc & Hsum).
  destruct (early_chain_path rc leaf Hrc) as (Hsorted & root & Hhead & Hroot).
  exists (rev rc ++ [leaf]), root, leaf. split_and!; try done.
  - pose proof (early_chain_critical rc leaf Hrc
      (leaf_critical leaf Hleaf Hsucc)) as Hcrit.
    apply Forall_cons in Hcrit as [Hl Hrest].
    apply Forall_app. split; [by apply Forall_rev|by apply Forall_singleton].
  - apply last_snoc.
  - rewrite sum_durations_app, (sum_durations_Permutation (rev rc) rc)
      by (symmetry; apply Permutation_rev). simpl.
    destruct (early_bounds fuel out Hsched Hvalid leaf Hleaf) as (_ & ? & _). lia.
Qed.
End critical_path.

(** ** Checking validity by computation *)

Lemma forallb_elem_of {A} (f : A → bool) (l : list A) :
  forallb f l = true ↔ ∀ x, x ∈ l → f x = true.
Proof.
  rewrite forallb_forall. by setoid_rewrite list_elem_of_In.
Qed.

Lemma resolvedb_sound l : resolvedb l = true → resolved l.
Proof.
  unfold resolvedb. rewrite forallb_elem_of. intros H t d Ht Hd.
  specialize (H t Ht). rewrite forallb_elem_of in H.
  specialize (H d Hd). by apply bool_decide_eq_true in H.
Qed.

Lemma rankedb_sound rank l : rankedb rank l = true → acyclic l.
Proof.
  unfold rankedb. rewrite forallb_elem_of. intros H.
  assert (∀ a b, depends_on l a b → (rank b < rank a)%nat) as Hedge.
  { intros a b (t & Ht & <- & Hd). specialize (H t Ht).
    rewrite forallb_elem_of in H. specialize (H b Hd).
    by apply bool_decide_eq_true in H. }
  assert (∀ a b, tc (depends_on l) a b → (rank b < rank a)%nat) as Htc.
  { induction 1 as [a b Hab|a b c Hab _ IH]; [by apply Hedge|].
    apply Hedge in Hab. lia. }
  intros a Ha. apply Htc in Ha. lia.
Qed.

Lemma loadedb_sound l : loadedb l = true → loaded l.
Proof.
  unfold loadedb, loaded. rewrite forallb_elem_of, Forall_forall.
  intros H t Ht. specialize (H t Ht). by apply bool_decide_eq_true in H.
Qed.

Lemma valid_dagb_sound rank l : valid_dagb rank l = true → valid_dag l.
Proof.
  unfold valid_dagb. rewrite !andb_true_iff.
  intros ((((Hnd & Hres) & Hrank) & Hdur) & Htot). split.
  - by apply bool_decide_eq_true in Hnd.
  - by apply resolvedb_sound.
  - by apply (rankedb_sound rank).
  - rewrite forallb_elem_of in Hdur. apply Forall_forall.
    intros t Ht. specialize (Hdur t Ht). by apply bool_decide_eq_true in Hdur.
  - by apply bool_decide_eq_true in Htot.
Qed.

(** * The claims *)

(** The two scenarios of the specification, run through the passes. *)
Example scenario_diamond :
  run_passes 5 example_tasks
  = Returns [mkTask "a" 2 [] ["b"; "c"] 0 2 0 2 0;
             mkTask "b" 3 ["a"] ["d"] 2 5 2 5 0;
             mkTask "c" 2 ["a"] ["d"] 2 4 3 5 1;
             mkTask "d" 5 ["b"; "c"] [] 5 10 5 10 0]
  ∧ (∀ out, run_passes 5 example_tasks = Returns out → projectLength out = 10).
Proof.
  split; [vm_compute; reflexivity|]. intros out H. vm_compute in H.
  injection H as <-. reflexivity.
Qed.

Example scenario_single :
  run_passes 2 [task "a" 4 []] = Returns [mkTask "a" 4 [] [] 0 4 0 4 0].
Proof. vm_compute. reflexivity. Qed.




(** The chain [overflow_tasks] is a valid DAG input, freshly loaded, whose
    durations do not fit an [int] together. *)
Lemma overflow_tasks_dag :
  dag_input overflow_tasks ∧ loaded overflow_tasks
  ∧ INT_MAX < sum_durations overflow_tasks.
Proof.
  split_and!; [split|..].
  - apply (bool_decide_unpack _). vm_compute. exact I.
  - apply resolvedb_sound. vm_compute. reflexivity.
  - apply (rankedb_sound example_rank). vm_compute. reflexivity.
  - repeat constructor; simpl; lia.
  - apply loadedb_sound. vm_compute. reflexivity.
  - vm_compute. reflexivity.
Qed.




(** C5, counterexample.  On the same chain the project length is the maximum
    of [EF], 2147483647, while the maximum of [LF] is 1: the two passes do
    not agree on the project length. *)
Lemma passes_disagree_on_overflow :
  dag_input overflow_tasks ∧ loaded overflow_tasks
  ∧ ∃ out, run_passes 4 overflow_tasks = Returns out
      ∧ is_max EF out (projectLength out) ∧ projectLength out = 2147483647
      ∧ is_max LF out 1 ∧ ¬ is_max LF out (projectLength out).
Proof.
  destruct overflow_tasks_dag as (Hdag & Hload & _).
  split_and!; [done..|].
  eexists. split; [vm_compute; reflexivity|].
  assert (∀ (f : Task → Z) (m : Z) (a b c : Task),
    f a ≤ m → f b ≤ m → f c ≤ m → ∀ t, t ∈ [a; b; c] → f t ≤ m) as Hall.
  { intros f m a b c Ha Hb Hc t Ht.
    rewrite !elem_of_cons, elem_of_nil in Ht. by destruct Ht as [->|[->|[->|[]]]]. }
  split_and!.
  - split; [by apply Hall|]. eexists. split; [by left|done].
  - done.
  - split; [by apply Hall|]. eexists. split; [by right; right; left|done].
  - intros [_ (t & Ht & HLF)].
    change (projectLength _) with 2147483647 in HLF.
    assert (LF t ≤ 1); [|lia]. clear HLF. revert t Ht. by apply Hall.
Qed.

(** C5, as amended.  On every valid input whose durations add up to at most
    [INT_MAX] the passes return, and (when there is a task at all) the
    project length that [outputTimelineCSV] computes is the maximum of [EF]
    over all tasks and also the maximum of [LF]. *)
Theorem project_length_agrees (fuel : nat) (l : list Task) :
  valid_dag l → loaded l → (length l < fuel)%nat →
  ∃ out, run_passes fuel l = Returns out
    ∧ (l ≠ [] → is_max EF out (projectLength out)
                ∧ is_max LF out (projectLength out)).
Proof.
  intros Hvalid Hload Hfuel.
  destruct (schedule_of_valid fuel l Hvalid Hload Hfuel)
    as (out & Hout & Heq & Hsched & Hvalid').
  exists out. split; [done|]. intros Hne.
  apply (valid_dag_nonempty l out Heq) in Hne.
  destruct (project_finish_attained fuel out Hsched Hvalid' Hne) as (t & Ht & HEF).
  split; split.
  - intros u Hu. by apply projectLength_ge.
  - by exists t.
  - intros u Hu. by destruct (late_bounds fuel out Hsched Hvalid' u Hu) as (_ & ? & _).
  - exists t. split; [done|].
    destruct (late_bounds fuel out Hsched Hvalid' t Ht) as (? & ? & _). lia.
Qed.

Lemma project_length_agrees_witness :
  ∃ out, run_passes 5 example_tasks = Returns out
    ∧ (example_tasks ≠ [] → is_max EF out (projectLength out)
                            ∧ is_max LF out (projectLength out)).
Proof.
  apply (project_length_agrees 5 example_tasks).
  - apply (valid_dagb_sound example_rank). vm_compute. reflexivity.
  - apply loadedb_sound. vm_compute. reflexivity.
  - simpl. lia.
Defined.

(** C4, counterexample.  On the same chain the only task without
    dependencies, [a], has a negative slack, so that no chain of slack-zero
    tasks starts at a task without dependencies. *)
Lemma no_critical_chain_on_overflow :
  dag_input overflow_tasks ∧ loaded overflow_tasks ∧ overflow_tasks ≠ []
  ∧ ∃ out, run_passes 4 overflow_tasks = Returns out
      ∧ ¬ ∃ path root leaf,
          Forall (fun t => t ∈ out ∧ slack t = 0) path
          ∧ Sorted cpm_edge path
          ∧ head path = Some root ∧ dependencies root = []
          ∧ last path = Some leaf ∧ successors leaf = []
          ∧ sum_durations path = projectLength out.
Proof.
  destruct overflow_tasks_dag as (Hdag & Hload & _).
  split_and!; [done..|].
  eexists. split; [vm_compute; reflexivity|].
  intros (path & root & leaf & Hcrit & _ & Hhead & Hroot & _).
  destruct path as [|r path]; [done|]. injection Hhead as ->.
  apply Forall_cons in Hcrit as [[Hin Hslack] _].
  rewrite !elem_of_cons, elem_of_nil in Hin.
  by destruct Hin as [->|[->|[->|[]]]].
Qed.

(** C4, as amended.  On every non-empty valid input whose durations add up
    to at most [INT_MAX] the passes return, some task has slack 0, and there
    is a chain of slack-zero tasks, linked by predecessor→successor edges,
    that starts at a task without dependencies, ends at a task without
    successors, and whose durations add up to the project length. *)
Theorem critical_chain (fuel : nat) (l : list Task) :
  valid_dag l → loaded l → (length l < fuel)%nat → l ≠ [] →
  ∃ out, run_passes fuel l = Returns out
    ∧ (∃ t, t ∈ out ∧ slack t = 0)
    ∧ ∃ path root leaf,
        Forall (fun t => t ∈ out ∧ slack t = 0) path
        ∧ Sorted cpm_edge path
        ∧ head path = Some root ∧ dependencies root = []
        ∧ last path = Some leaf ∧ successors leaf = []
        ∧ sum_durations path = projectLength out.
Proof.
  intros Hvalid Hload Hfuel Hne.
  destruct (schedule_of_valid fuel l Hvalid Hload Hfuel)
    as (out & Hout & Heq & Hsched & Hvalid').
  apply (valid_dag_nonempty l out Heq) in Hne.
  destruct (critical_path_exists fuel out Hsched Hvalid' Hne)
    as (path & root & leaf & Hcrit & Hrest).
  exists out. split_and!; [done| |by exists path, root, leaf].
  destruct Hrest as (_ & _ & _ & Hlast & _).
  apply last_Some in Hlast as [path' ->].
  apply Forall_app in Hcrit as [_ Hcrit]. rewrite Forall_singleton in Hcrit.
  exists leaf. exact Hcrit.
Qed.

Lemma critical_chain_witness :
  ∃ out, run_passes 5 example_tasks = Returns out
    ∧ (∃ t, t ∈ out ∧ slack t = 0)
    ∧ ∃ path root leaf,
        Forall (fun t => t ∈ out ∧ slack t = 0) path
        ∧ Sorted cpm_edge path
        ∧ head path = Some root ∧ dependencies root = []
        ∧ last path = Some leaf ∧ successors leaf = []
        ∧ sum_durations path = projectLength out.
Proof.
  apply (critical_chain 5 example_tasks).
  - apply (valid_dagb_sound example_rank). vm_compute. reflexivity.
  - apply loadedb_sound. vm_compute. reflexivity.
  - simpl. lia.
  - done.
Defined.

(** C10.  On every freshly loaded input whose dependency relation is acyclic
    and whose dependency names resolve, [getEarlyStartScore] returns on every
    task, the forward pass and [populateSuccessors] return, and
    [getLateFinishScore] returns on every task of the vector they leave: a
    recursion depth of [length l + 1] is enough. *)
Theorem recursions_terminate (fuel : nat) (l : list Task) :
  loaded l → acyclic l → resolved l → (length l < fuel)%nat →
  (∀ t, t ∈ l → returns (getEarlyStartScore fuel t l))
  ∧ ∃ l1 l2, updateAllEarlyVars fuel l = Returns l1
      ∧ populateSuccessors l1 = Returns l2
      ∧ ∀ t, t ∈ l2 → returns (getLateFinishScore fuel t l2).
Proof.
  intros Hload Hac Hres Hfuel. split.
  { intros t Ht. by apply getEarlyStartScore_terminates. }
  destruct (early_stage_returns fuel l Hload Hac Hres Hfuel)
    as (l1 & H1 & Hearly & Hload1 & Hres1 & Hac1).
  destruct (populateSuccessors_returns l1 Hres1) as [l2 H2].
  exists l1, l2. split_and!; [done..|]. intros t Ht.
  apply (getLateFinishScore_terminates l1 l2); try done.
  by rewrite <- (Forall2_length _ _ _ Hearly).
Qed.

Lemma recursions_terminate_witness :
  (∀ t, t ∈ example_tasks → returns (getEarlyStartScore 5 t example_tasks))
  ∧ ∃ l1 l2, updateAllEarlyVars 5 example_tasks = Returns l1
      ∧ populateSuccessors l1 = Returns l2
      ∧ ∀ t, t ∈ l2 → returns (getLateFinishScore 5 t l2).
Proof.
  apply (recursions_terminate 5 example_tasks).
  - apply loadedb_sound. vm_compute. reflexivity.
  - apply (rankedb_sound example_rank). vm_compute. reflexivity.
  - apply resolvedb_sound. vm_compute. reflexivity.
  - simpl. lia.
Defined.

(** ** Errors: the only exception is "Task not found" *)

Lemma mapM_Throws f l w :
  mapM f l = Throws w → ∃ t, t ∈ l ∧ f t = Throws w.
Proof.
  induction l as [|t l IH]; simpl; [done|].
  destruct (f t) as [t'|w'|] eqn:Ht; simpl; [|intros [= <-]|done].
  - destruct (mapM f l); simpl; [done| |done].
    intros [= <-]. destruct IH as (u & Hu & Hfu); [done|].
    exists u. split; [by right|done].
  - exists t. split; [left|done].
Qed.

Lemma walk_Throws adj leaf init step fuel t l w :
  walk adj leaf init step fuel t l = Throws w → task_not_found l w.
Proof.
  revert t. induction fuel as [|fuel IH]; intros t; simpl; [done|].
  destruct (adj t) as [|d0 ds]; [done|].
  generalize (d0 :: ds) as ns. intros ns. generalize init at 2.
  induction ns as [|d ns IHns]; intros acc; simpl; [done|].
  destruct (getTaskFromList d l) as [u|w'|] eqn:Hu; simpl.
  - destruct (walk adj leaf init step fuel u l) as [s|w'|] eqn:Hs; simpl.
    + apply IHns.
    + intros [= <-]. by apply (IH u).
    + done.
  - intros [= <-]. apply getTaskFromList_Throws in Hu as [-> Hd]. by exists d.
  - done.
Qed.

Lemma pushSuccessor_Throws tname deps st w :
  pushSuccessor tname deps st = Throws w → task_not_found st w.
Proof.
  revert st. induction deps as [|d deps IH]; intros st; simpl; [done|].
  destruct (getTaskObjectFromList d st) as [j|w'|] eqn:Hj; simpl.
  - intros H. apply IH in H as (d' & -> & Hd'). exists d'. split; [done|].
    erewrite <- succ_eq_names; [exact Hd'|].
    apply Forall2_alter_r; [reflexivity|]. intros x y _ _ Hxy.
    etrans; [exact Hxy|]. done.
  - intros [= <-]. apply getTaskObjectFromList_Throws in Hj as [-> Hd]. by exists d.
  - done.
Qed.

Lemma for_range_Throws body (I : list Task → Prop) (Q : Prop) i n st w :
  for_range body i n st = Throws w → I st →
  (∀ k s s', I s → body k s = Returns s' → I s') →
  (∀ k s, I s → body k s = Throws w → Q) → Q.
Proof.
  revert i st. induction n as [|n IH]; intros i st; simpl; [done|].
  destruct (body i st) as [st'|w'|] eqn:Hb; simpl; [| |done].
  - intros Hrest Hst Hstep Hthrow. apply (IH (S i) st'); eauto.
  - intros [= <-] Hst _ Hthrow. eauto.
Qed.

Lemma populateSuccessors_Throws l w :
  populateSuccessors l = Throws w → task_not_found l w.
Proof.
  unfold populateSuccessors, for_each_task. intros H.
  apply (for_range_Throws _ (fun st => names st = names l) _ _ _ _ _ H); [done|..].
  - intros k s s' Hs Hb. destruct (s !! k) as [t|]; [|congruence].
    apply pushSuccessor_Returns in Hb as (Heq & _).
    by rewrite (succ_eq_names _ _ Heq).
  - intros k s Hs Hb. destruct (s !! k) as [t|]; [|done].
    apply pushSuccessor_Throws in Hb. unfold task_not_found in *. by rewrite <- Hs.
Qed.

Lemma early_update_eq fuel l l1 :
  Forall2 (fun t t1 => early_update fuel l t = Returns t1) l l1 →
  Forall2 (fun a b => early_eq a b ∧ successors b = successors a) l l1.
Proof.
  intros H1. eapply Forall2_impl; [exact H1|]. intros a b. unfold early_update.
  intros (v & _ & [= <-])%bind_Returns. done.
Qed.

Lemma updateAllEarlyVars_names fuel l l1 :
  updateAllEarlyVars fuel l = Returns l1 → Forall2 early_eq l l1.
Proof.
  rewrite updateAllEarlyVars_mapM. intros H1%mapM_Returns%early_update_eq.
  eapply Forall2_impl; [exact H1|naive_solver].
Qed.

Lemma updateAllEarlyVars_Throws fuel l w :
  updateAllEarlyVars fuel l = Throws w → task_not_found l w.
Proof.
  rewrite updateAllEarlyVars_mapM. intros (t & _ & Ht)%mapM_Throws.
  unfold early_update in Ht. rewrite getEarlyStartScore_walk in Ht.
  destruct (early_walk fuel t l) eqn:E; simpl in Ht; [done| |done].
  injection Ht as <-. by apply walk_Throws in E.
Qed.

Lemma updateAllLateVars_Throws fuel l w :
  updateAllLateVars fuel l = Throws w → task_not_found l w.
Proof.
  rewrite updateAllLateVars_mapM. intros (t & _ & Ht)%mapM_Throws.
  unfold late_update in Ht. rewrite getLateFinishScore_walk in Ht.
  destruct (late_walk fuel t l) eqn:E; simpl in Ht; [done| |done].
  injection Ht as <-. by apply walk_Throws in E.
Qed.

Lemma main_Throws fuel l w : main fuel l = Throws w → task_not_found l w.
Proof.
  unfold main, run_passes.
  destruct (updateAllEarlyVars fuel l) as [l1|w1|] eqn:H1; simpl; [| |done].
  2:{ intros [= <-]. by apply updateAllEarlyVars_Throws in H1. }
  apply updateAllEarlyVars_names, early_eq_names in H1.
  destruct (populateSuccessors l1) as [l2|w2|] eqn:H2; simpl; [| |done].
  2:{ intros [= <-]. apply populateSuccessors_Throws in H2.
      unfold task_not_found in *. by rewrite <- H1. }
  apply populateSuccessors_Returns in H2 as (H2 & _). apply succ_eq_names in H2.
  destruct (updateAllLateVars fuel l2) as [l3|w3|] eqn:H3; simpl; [| |done].
  2:{ intros [= <-]. apply updateAllLateVars_Throws in H3.
      unfold task_not_found in *. by rewrite <- H1, <- H2. }
  rewrite updateAllSlack_mapM.
  destruct (mapM slack_update l3) as [l4|w4|] eqn:H4; simpl; [done| |done].
  intros [= <-]. by apply mapM_Throws in H4 as (t & _ & ?).
Qed.

Lemma main_returns fuel l :
  returns (main fuel l) ↔ returns (run_passes fuel l).
Proof.
  unfold main. destruct (run_passes fuel l); simpl; [|split; intros [? ?]; done..].
  split; intros _; apply returns_Returns.
Qed.

(** ** Cycles *)

Lemma late_pass_cycle fuel l1 l2 :
  populateSuccessors l1 = Returns l2 → has_cycle l1 →
  ¬ returns (updateAllLateVars fuel l2).
Proof.
  intros Hpop [a Ha]. pose proof Hpop as (Heq & Hres & _)%populateSuccessors_Returns.
  assert (tc (walk_edge successors l2) a a) as Hcyc.
  { apply tc_flip. revert Ha. apply tc_mono. intros x y Hxy.
    apply (late_walk_edge_inv l1 l2); [done..|].
    by apply (depends_on_resolved l1 x y). }
  assert (a ∈ names l2) as Hin.
  { rewrite (succ_eq_names _ _ Heq).
    inversion Ha as [? ? Hab|? b ? Hab _]; subst;
      by apply depends_on_names in Hab. }
  destruct (getTaskFromList_resolves a l2 Hin) as [t2 Ht2].
  rewrite updateAllLateVars_mapM. apply (mapM_not_returns _ _ t2).
  { by apply getTaskFromList_elem_of in Ht2 as [? _]. }
  unfold late_update. apply not_returns_bind. rewrite getLateFinishScore_walk.
  by apply (walk_cycle _ _ _ _ fuel l2 a).
Qed.

Lemma run_passes_cycle fuel l : has_cycle l → ¬ returns (run_passes fuel l).
Proof.
  intros [a Ha] [out Hout]. unfold run_passes in Hout.
  apply bind_Returns in Hout as (l1 & H1 & Hout).
  apply bind_Returns in Hout as (l2 & H2 & Hout).
  apply bind_Returns in Hout as (l3 & H3 & _).
  apply (late_pass_cycle fuel l1 l2 H2); [|by exists l3].
  exists a. revert Ha. apply tc_mono. intros x y Hxy.
  apply updateAllEarlyVars_names in H1. by apply (early_eq_depends_on l l1).
Qed.

Lemma cyclic_tasks_cycle : has_cycle cyclic_tasks.
Proof.
  exists "a". apply tc_l with "b"; [|apply tc_once].
  - exists (task "a" 1 ["b"]). split_and!; [left|done|left].
  - exists (task "b" 1 ["a"]). split_and!; [right; left|done|left].
Qed.

Lemma cyclic_tasks_recursion fuel :
  getEarlyStartScore fuel (task "a" 1 ["b"]) cyclic_tasks = OutOfFuel
  ∧ getEarlyStartScore fuel (task "b" 1 ["a"]) cyclic_tasks = OutOfFuel.
Proof.
  induction fuel as [|fuel [IHa IHb]]; [done|].
  split; simpl; [by rewrite IHb|by rewrite IHa].
Qed.

(** C2, counterexample.  On the cycle [a → b → a] the engine raises no error
    at all: at every recursion depth the forward pass is still recursing. *)
Lemma cycle_not_rejected :
  has_cycle cyclic_tasks
  ∧ (∀ fuel, main fuel cyclic_tasks = OutOfFuel)
  ∧ ¬ ∃ fuel what, main fuel cyclic_tasks = Throws what.
Proof.
  assert (∀ fuel, main fuel cyclic_tasks = OutOfFuel) as H.
  { intros fuel. unfold main, run_passes. rewrite updateAllEarlyVars_mapM.
    simpl. unfold early_update at 1.
    by rewrite (proj1 (cyclic_tasks_recursion fuel)). }
  split_and!; [apply cyclic_tasks_cycle|done|].
  intros (fuel & what & Hw). by rewrite H in Hw.
Qed.

(** C2, as amended.  An input whose dependency relation contains a cycle
    never produces output: no cycle check exists, and at every recursion
    depth a timing pass is still recursing or has stopped on the
    "Task not found" error of a lookup. *)
Theorem cycle_no_output (fuel : nat) (l : list Task) :
  has_cycle l →
  ¬ returns (main fuel l)
  ∧ (main fuel l = OutOfFuel
     ∨ (∃ d, (d ∉ names l) ∧ main fuel l = Throws (not_found d))).
Proof.
  intros Hcyc.
  assert (¬ returns (main fuel l)) as Hno.
  { rewrite main_returns. by apply run_passes_cycle. }
  split; [done|].
  destruct (main fuel l) as [out|w|] eqn:E; [|right|by left].
  - destruct Hno. by exists out.
  - apply main_Throws in E as (d & -> & Hd). by exists d.
Qed.

Lemma cycle_no_output_witness :
  ¬ returns (main 3 cyclic_tasks)
  ∧ (main 3 cyclic_tasks = OutOfFuel
     ∨ (∃ d, (d ∉ names cyclic_tasks) ∧ main 3 cyclic_tasks = Throws (not_found d))).
Proof.
  apply (cycle_no_output 3 cyclic_tasks). apply cyclic_tasks_cycle.
Defined.

(** ** Unresolved dependencies *)

Lemma early_pass_unresolved fuel l :
  unresolved l → ¬ returns (updateAllEarlyVars fuel l).
Proof.
  intros (t & d & Ht & Hd & Hmissing).
  rewrite updateAllEarlyVars_mapM. apply (mapM_not_returns _ _ t Ht).
  unfold early_update. apply not_returns_bind.
  rewrite getEarlyStartScore_walk. destruct fuel as [|fuel]; simpl.
  { apply not_returns_OutOfFuel. }
  destruct (dependencies t) as [|d0 ds] eqn:Hdeps; [by apply elem_of_nil in Hd|].
  apply (walkLoop_not_returns _ _ _ _ _ d Hd).
  intros u [Hin Hn]%getTaskFromList_elem_of. destruct Hmissing.
  unfold names. apply list_elem_of_fmap. by exists u.
Qed.

Lemma elem_of_flat_map_dependencies l t d :
  t ∈ l → d ∈ dependencies t → d ∈ flat_map dependencies l.
Proof.
  intros Ht Hd. apply list_elem_of_In, in_flat_map. exists t.
  by rewrite <- !list_elem_of_In.
Qed.

Lemma early_pass_fuel fuel l :
  acyclic l → (dependency_count l < fuel)%nat →
  updateAllEarlyVars fuel l ≠ OutOfFuel.
Proof.
  intros Hac Hfuel. rewrite updateAllEarlyVars_mapM. apply mapM_outcome.
  intros t Ht. unfold early_update. rewrite getEarlyStartScore_walk.
  assert (early_walk (S (dependency_count l)) t l ≠ OutOfFuel) as Hw.
  { apply walk_terminates with (R := depends_on l); [apply early_walk_edge|].
    intros d Hd. apply depth_le_dom; [done| |by apply (elem_of_flat_map_dependencies l t)].
    intros a b (u & Hu & _ & Hb). by apply (elem_of_flat_map_dependencies l u). }
  rewrite (walk_mono _ _ _ _ (S (dependency_count l)) fuel); [|lia|done].
  by destruct (early_walk (S (dependency_count l)) t l).
Qed.

Lemma dangling_tasks_unresolved : unresolved dangling_tasks.
Proof.
  exists (task "a" 1 ["b"; "zzz"]), "zzz". split_and!; [left|right; left|].
  intros [?|[?|?%elem_of_nil]%elem_of_cons]%elem_of_cons; done.
Qed.

Lemma dangling_tasks_recursion fuel :
  getEarlyStartScore fuel (task "a" 1 ["b"; "zzz"]) dangling_tasks = OutOfFuel
  ∧ getEarlyStartScore fuel (task "b" 1 ["a"]) dangling_tasks = OutOfFuel.
Proof.
  induction fuel as [|fuel [IHa IHb]]; [done|].
  split; simpl; [by rewrite IHb|by rewrite IHa].
Qed.

(** C8, counterexample.  Task [a] names the missing task [zzz], but also [b],
    which depends on [a]: the forward pass recurses through [b] before it
    ever looks [zzz] up, and no error is raised at any recursion depth. *)
Lemma unresolved_not_rejected :
  unresolved dangling_tasks
  ∧ (∀ fuel, main fuel dangling_tasks = OutOfFuel)
  ∧ ¬ ∃ fuel what, main fuel dangling_tasks = Throws what.
Proof.
  assert (∀ fuel, main fuel dangling_tasks = OutOfFuel) as H.
  { intros fuel. unfold main, run_passes. rewrite updateAllEarlyVars_mapM.
    simpl. unfold early_update at 1.
    by rewrite (proj1 (dangling_tasks_recursion fuel)). }
  split_and!; [apply dangling_tasks_unresolved|done|].
  intros (fuel & what & Hw). by rewrite H in Hw.
Qed.

(** C8, as amended.  An input with a dependency name that no record bears
    never produces output.  The name is not checked when the vector is
    built: the lookup fails inside the forward pass, which, when the
    dependency relation is acyclic, stops with the runtime error
    "Task not found: <name>" for a missing name. *)
Theorem unresolved_no_output (fuel : nat) (l : list Task) :
  unresolved l →
  ¬ returns (main fuel l)
  ∧ (acyclic l → (dependency_count l < fuel)%nat →
     ∃ d, (d ∉ names l)
          ∧ updateAllEarlyVars fuel l = Throws (not_found d)
          ∧ main fuel l = Throws (not_found d)).
Proof.
  intros Hun. pose proof (early_pass_unresolved fuel l Hun) as Hearly. split.
  - rewrite main_returns. unfold run_passes. by apply not_returns_bind.
  - intros Hac Hfuel. pose proof (early_pass_fuel fuel l Hac Hfuel) as Hfuel'.
    destruct (updateAllEarlyVars fuel l) as [l1|w|] eqn:E; [| |done].
    { destruct Hearly. by exists l1. }
    pose proof E as (d & -> & Hd)%updateAllEarlyVars_Throws.
    exists d. split_and!; [done..|]. unfold main, run_passes. by rewrite E.
Qed.

Lemma unresolved_no_output_witness :
  ¬ returns (main 2 missing_tasks)
  ∧ ∃ d, (d ∉ names missing_tasks)
         ∧ updateAllEarlyVars 2 missing_tasks = Throws (not_found d)
         ∧ main 2 missing_tasks = Throws (not_found d).
Proof.
  assert (unresolved missing_tasks) as Hun.
  { exists (task "b" 3 ["zzz"]), "zzz". split_and!; [right; left|left|].
    intros [?|[?|?%elem_of_nil]%elem_of_cons]%elem_of_cons; done. }
  destruct (unresolved_no_output 2 missing_tasks Hun) as [Hno Hthrow].
  split; [exact Hno|]. apply Hthrow.
  - apply (rankedb_sound (fun n => if decide (n = "b") then 1 else 0)%nat).
    vm_compute. reflexivity.
  - vm_compute. lia.
Defined.

(** ** Duplicate names *)

(** C3, counterexample.  Two records named [a] are loaded, scheduled and
    written out without any error. *)
Lemma duplicate_not_rejected :
  (∃ t u, duplicate_tasks !! 0%nat = Some t ∧ duplicate_tasks !! 1%nat = Some u
          ∧ name t = name u)
  ∧ ∃ out, run_passes 1 duplicate_tasks = Returns out
           ∧ names out = ["a"; "a"]
           ∧ main 1 duplicate_tasks
             = Returns (outputTaskCSV out, outputTimelineCSV out).
Proof.
  split; [by eexists _, _|].
  eexists. split_and!; [vm_compute; reflexivity|reflexivity|reflexivity].
Qed.

(** C3, as amended.  When two records share a name no error is raised on
    that account: a lookup of the name resolves to the first record that
    bears it ([first_named]: it bears the name and no record before it
    does), the only error the engine can raise is "Task not found" for a
    name that no record bears, and when the dependency names resolve and the
    dependency relation is acyclic the passes return timing for every
    record, duplicates included. *)
Theorem duplicate_names_kept (fuel : nat) (l : list Task) (i j : nat) (t u : Task) :
  (i < j)%nat → l !! i = Some t → l !! j = Some u → name t = name u →
  (∃ k v, first_named (name u) l k v ∧ (k ≤ i)%nat
          ∧ getTaskFromList (name u) l = Returns v
          ∧ getTaskObjectFromList (name u) l = Returns k)
  ∧ (∀ what, main fuel l = Throws what → ∃ d, what = not_found d ∧ d ∉ names l)
  ∧ (loaded l → acyclic l → resolved l → (length l < fuel)%nat →
     ∃ out, run_passes fuel l = Returns out ∧ names out = names l
            ∧ main fuel l = Returns (outputTaskCSV out, outputTimelineCSV out)).
Proof.
  intros Hij Ht Hu Hname. split_and!.
  - destruct (getTaskFromList_resolves (name u) l) as [v Hv].
    { unfold names. apply list_elem_of_fmap. exists u. split; [done|].
      by eapply list_elem_of_lookup_2. }
    pose proof Hv as (k & Hk & Hn & Hfirst)%getTaskFromList_Returns.
    exists k, v. split_and!; [done| |done|].
    + destruct (decide (k ≤ i)%nat) as [|Hgt]; [done|].
      destruct (Hfirst i t); [lia|done..].
    + apply getTaskObjectFromList_Returns. by exists v.
  - intros what. apply main_Throws.
  - intros Hload Hac Hres Hfuel.
    destruct (run_passes_returns fuel l Hload Hac Hres Hfuel) as [out Hout].
    exists out. split_and!; [done| |unfold main; by rewrite Hout].
    destruct (run_passes_Returns fuel l out Hload Hout) as [Heq _].
    by apply early_eq_names.
Qed.

Lemma duplicate_names_kept_witness :
  (∃ k v, first_named "a" duplicate_tasks k v ∧ (k ≤ 0)%nat
          ∧ getTaskFromList "a" duplicate_tasks = Returns v
          ∧ getTaskObjectFromList "a" duplicate_tasks = Returns k)
  ∧ (∀ what, main 3 duplicate_tasks = Throws what →
       ∃ d, what = not_found d ∧ d ∉ names duplicate_tasks)
  ∧ ∃ out, run_passes 3 duplicate_tasks = Returns out
           ∧ names out = names duplicate_tasks
           ∧ main 3 duplicate_tasks
             = Returns (outputTaskCSV out, outputTimelineCSV out).
Proof.
  destruct (duplicate_names_kept 3 duplicate_tasks 0 1 (task "a" 2 []) (task "a" 3 []))
    as (Hfirst & Herr & Hrun); [lia|reflexivity..|].
  split_and!; [exact Hfirst|exact Herr|]. apply Hrun.
  - apply loadedb_sound. vm_compute. reflexivity.
  - apply (rankedb_sound (fun _ => 0%nat)). vm_compute. reflexivity.
  - apply resolvedb_sound. vm_compute. reflexivity.
  - simpl. lia.
Defined.

(** ** Several tasks without successors *)

(** C1, the code at the failing input.  The two tasks are independent, so
    both are without successors and the project finishes at 3.  The backward
    pass gives [a] its own early finish 2 as late finish, hence slack 0,
    although [a] may finish at 3 without delaying the project. *)
Lemma leaf_late_finish_not_project_finish :
  valid_dag two_leaves ∧ loaded two_leaves
  ∧ ∃ out a, run_passes 3 two_leaves = Returns out
      ∧ a ∈ out ∧ name a = "a" ∧ successors a = []
      ∧ is_max EF out 3 ∧ projectLength out = 3
      ∧ LF a = 2 ∧ slack a = 0.
Proof.
  split_and!.
  - apply (valid_dagb_sound (fun _ => 0%nat)). vm_compute. reflexivity.
  - apply loadedb_sound. vm_compute. reflexivity.
  - eexists _, (mkTask "a" 2 [] [] 0 2 0 2 0).
    split_and!; [vm_compute; reflexivity|left|done|done| |done..].
    split.
    + intros t [->|[->|[]%elem_of_nil]%elem_of_cons]%elem_of_cons; simpl; lia.
    + eexists. split; [right; left|]. done.
Qed.

(** What the backward pass does for a task without successors, on every
    valid input: its late finish is its own early finish. *)
Lemma leaf_late_finish (fuel : nat) (l : list Task) :
  valid_dag l → loaded l → (length l < fuel)%nat →
  ∃ out, run_passes fuel l = Returns out
    ∧ ∀ t, t ∈ out → successors t = [] → LF t = EF t ∧ slack t = 0.
Proof.
  intros Hvalid Hload Hfuel.
  destruct (schedule_of_valid fuel l Hvalid Hload Hfuel)
    as (out & Hout & _ & Hsched & Hvalid').
  exists out. split; [done|]. intros t Ht Hs. split.
  - by apply (LF_leaf fuel out Hsched).
  - by apply (leaf_critical fuel out Hsched Hvalid').
Qed.

(** ** Counting the evaluations *)

Lemma earlyLoop_calls_score rec rec' l deps a calls :
  (∀ u, rec u = score (rec' u)) →
  earlyLoop rec l deps a = score (earlyLoop_calls rec' l deps a calls).
Proof.
  intros Hrec. revert a calls.
  induction deps as [|d deps IH]; intros a calls; simpl; [done|].
  destruct (getTaskFromList d l) as [u| |]; simpl; [|done..].
  rewrite Hrec. destruct (rec' u) as [[s c]| |]; simpl; [|done..]. apply IH.
Qed.

Lemma getEarlyStartScore_calls_score fuel t l :
  getEarlyStartScore fuel t l = score (getEarlyStartScore_calls fuel t l).
Proof.
  revert t. induction fuel as [|fuel IH]; intros t; simpl; [done|].
  destruct (dependencies t); [done|]. by apply earlyLoop_calls_score.
Qed.

Lemma lateLoop_calls_score rec rec' l succs a calls :
  (∀ u, rec u = score (rec' u)) →
  lateLoop rec l succs a = score (lateLoop_calls rec' l succs a calls).
Proof.
  intros Hrec. revert a calls.
  induction succs as [|d succs IH]; intros a calls; simpl; [done|].
  destruct (getTaskFromList d l) as [u| |]; simpl; [|done..].
  rewrite Hrec. destruct (rec' u) as [[s c]| |]; simpl; [|done..]. apply IH.
Qed.

Lemma getLateFinishScore_calls_score fuel t l :
  getLateFinishScore fuel t l = score (getLateFinishScore_calls fuel t l).
Proof.
  revert t. induction fuel as [|fuel IH]; intros t; simpl; [done|].
  destruct (successors t); [done|]. by apply lateLoop_calls_score.
Qed.

(** C9, counterexample.  The source's own example is a diamond: [d] depends
    on [b] and [c], which both depend on [a].  One evaluation of the early
    start of [d] evaluates [a] twice, and one evaluation of the late finish
    of [a], on the vector the passes leave, evaluates [d] twice. *)
Lemma diamond_evaluated_twice :
  ∃ out ta td,
    run_passes 5 example_tasks = Returns out
    ∧ out !! 0%nat = Some ta ∧ name ta = "a"
    ∧ example_tasks !! 3%nat = Some td ∧ name td = "d"
    ∧ getEarlyStartScore_calls 5 td example_tasks
      = Returns (5, ["d"; "b"; "a"; "c"; "a"])
    ∧ evaluations "a" ["d"; "b"; "a"; "c"; "a"] = 2%nat
    ∧ getLateFinishScore_calls 5 ta out
      = Returns (2, ["a"; "b"; "d"; "c"; "d"])
    ∧ evaluations "d" ["a"; "b"; "d"; "c"; "d"] = 2%nat.
Proof.
  eexists _, _, _.
  split_and!; [vm_compute; reflexivity|reflexivity|reflexivity|reflexivity
              |reflexivity|vm_compute; reflexivity|reflexivity
              |vm_compute; reflexivity|reflexivity].
Qed.

(** ** The chain of diamonds *)

Lemma getTaskFromList_app_l x l l' t :
  getTaskFromList x l = Returns t → getTaskFromList x (l ++ l') = Returns t.
Proof.
  induction l as [|u l IH]; simpl; [done|]. case_decide; [done|apply IH].
Qed.

Lemma getTaskFromList_app_r x l l' :
  x ∉ names l → getTaskFromList x (l ++ l') = getTaskFromList x l'.
Proof.
  induction l as [|u l IH]; simpl; [done|].
  rewrite not_elem_of_cons. intros [Hne Hx]. case_decide; [done|by apply IH].
Qed.

Lemma node_inj i j : node i = node j → i = j.
Proof. cbv [node String.append]. intros [= H]. by apply (inj pretty) in H. Qed.

Lemma left_of_inj i j : left_of i = left_of j → i = j.
Proof. cbv [left_of String.append]. intros [= H]. by apply (inj pretty) in H. Qed.

Lemma right_of_inj i j : right_of i = right_of j → i = j.
Proof. cbv [right_of String.append]. intros [= H]. by apply (inj pretty) in H. Qed.

Lemma level_names_distinct i j :
  node i ≠ left_of j ∧ node i ≠ right_of j ∧ left_of i ≠ right_of j.
Proof. cbv [node left_of right_of String.append]. by split_and!. Qed.

Lemma name_sink n : name (sink n) = node n.
Proof. by destruct n. Qed.

Lemma duration_sink n : duration (sink n) = 1.
Proof. by destruct n. Qed.

Lemma names_diamonds k x :
  x ∈ names (diamonds k) →
  ∃ i, (i ≤ k)%nat ∧ (x = node i ∨ x = left_of i ∨ x = right_of i).
Proof.
  induction k as [|k IH]; simpl.
  - intros ->%list_elem_of_singleton. exists 0%nat. split; [lia|by left].
  - unfold names. rewrite fmap_app, elem_of_app. intros [Hx|Hx].
    + destruct (IH Hx) as (i & Hi & Hcase). exists i. split; [lia|done].
    + exists (S k). split; [lia|]. simpl in Hx.
      apply elem_of_cons in Hx as [->|Hx]; [by right; left|].
      apply elem_of_cons in Hx as [->|Hx]; [by right; right|].
      apply list_elem_of_singleton in Hx as ->. by left.
Qed.

Lemma fresh_level k :
  (node (S k) ∉ names (diamonds k)) ∧ (left_of (S k) ∉ names (diamonds k))
  ∧ right_of (S k) ∉ names (diamonds k).
Proof.
  split_and!; intros (i & Hi & Hcase)%names_diamonds.
  - destruct (level_names_distinct (S k) i) as (Hl & Hr & _).
    destruct Hcase as [E%node_inj|[E|E]]; [lia|done..].
  - destruct (level_names_distinct i (S k)) as (Hl & _ & _).
    destruct (level_names_distinct (S k) i) as (_ & _ & Hr).
    destruct Hcase as [E|[E%left_of_inj|E]]; [done|lia|done].
  - destruct (level_names_distinct i (S k)) as (_ & Hl & Hr).
    destruct Hcase as [E|[E|E%right_of_inj]]; [done|done|lia].
Qed.

Lemma lookup_node k : getTaskFromList (node k) (diamonds k) = Returns (sink k).
Proof.
  destruct k as [|k]; simpl.
  - done.
  - destruct (fresh_level k) as (Hn & _ & _).
    destruct (level_names_distinct (S k) (S k)) as (? & ? & _).
    rewrite getTaskFromList_app_r by done. simpl.
    by repeat (case_decide; try done).
Qed.

Lemma lookup_left k :
  getTaskFromList (left_of (S k)) (diamonds (S k))
  = Returns (task (left_of (S k)) 1 [node k]).
Proof.
  destruct (fresh_level k) as (_ & Hl & _). simpl.
  rewrite getTaskFromList_app_r by done. simpl.
  by repeat (case_decide; try done).
Qed.

Lemma lookup_right k :
  getTaskFromList (right_of (S k)) (diamonds (S k))
  = Returns (task (right_of (S k)) 1 [node k]).
Proof.
  destruct (fresh_level k) as (_ & _ & Hr). simpl.
  destruct (level_names_distinct (S k) (S k)) as (_ & _ & ?).
  rewrite getTaskFromList_app_r by done. simpl.
  by repeat (case_decide; try done).
Qed.

Lemma earlyLoop_calls_app rec rec' l l' deps a calls r :
  (∀ u r, rec u = Returns r → rec' u = Returns r) →
  earlyLoop_calls rec l deps a calls = Returns r →
  earlyLoop_calls rec' (l ++ l') deps a calls = Returns r.
Proof.
  intros Hrec. revert a calls.
  induction deps as [|d deps IH]; intros a calls; simpl; [done|].
  intros (u & Hu & (ru & Hru & Hrest)%bind_Returns)%bind_Returns.
  rewrite (getTaskFromList_app_l _ _ _ _ Hu). simpl.
  rewrite (Hrec _ _ Hru). simpl. by apply IH.
Qed.

Lemma getEarlyStartScore_calls_app fuel t l l' r :
  getEarlyStartScore_calls fuel t l = Returns r →
  getEarlyStartScore_calls fuel t (l ++ l') = Returns r.
Proof.
  revert t r. induction fuel as [|fuel IH]; intros t r; simpl; [done|].
  destruct (dependencies t); [done|].
  apply earlyLoop_calls_app. intros u ru. apply IH.
Qed.

Lemma evaluations_app x c1 c2 :
  evaluations x (c1 ++ c2) = (evaluations x c1 + evaluations x c2)%nat.
Proof. unfold evaluations. by rewrite filter_app, length_app. Qed.

Lemma evaluations_cons_ne x y c : y ≠ x → evaluations x (y :: c) = evaluations x c.
Proof. intros Hne. unfold evaluations. by rewrite filter_cons_False. Qed.

Lemma source_evaluations n :
  ∃ v calls,
    getEarlyStartScore_calls (2 * n + 1) (sink n) (diamonds n) = Returns (v, calls)
    ∧ evaluations (node 0) calls = (2 ^ n)%nat.
Proof.
  induction n as [|k (v & calls & Hk & Hcount)].
  { exists 0, [node 0%nat]. split; [done|]. unfold evaluations.
    by rewrite filter_cons_True. }
  replace (2 * S k + 1)%nat with (S (S (2 * k + 1))) by lia.
  pose proof (getEarlyStartScore_calls_app _ _ _
    [task (left_of (S k)) 1 [node k]; task (right_of (S k)) 1 [node k]; sink (S k)]
    _ Hk) as Hk'.
  pose proof (getTaskFromList_app_l _ _
    [task (left_of (S k)) 1 [node k]; task (right_of (S k)) 1 [node k]; sink (S k)]
    _ (lookup_node k)) as Hnode.
  change (diamonds k ++ _) with (diamonds (S k)) in Hk', Hnode.
  pose proof (lookup_left k) as Hleft. pose proof (lookup_right k) as Hright.
  remember (diamonds (S k)) as l eqn:Hl. remember (2 * k + 1)%nat as f eqn:Hf.
  assert (∀ x, getEarlyStartScore_calls (S f) (task x 1 [node k]) l
          = Returns (if decide (int_add v 1 > 0) then int_add v 1 else 0,
                     [x] ++ calls)) as Hside.
  { intros x. simpl. rewrite Hnode. simpl. rewrite Hk'. simpl.
    by rewrite duration_sink. }
  remember (S f) as f' eqn:Hf'. simpl.
  rewrite Hleft. simpl. rewrite Hside. simpl.
  rewrite Hright. simpl. rewrite Hside. simpl.
  eexists _, _. split; [reflexivity|].
  destruct (level_names_distinct 0 (S k)) as (Hl0 & Hr0 & _).
  rewrite !evaluations_cons_ne, evaluations_app, evaluations_cons_ne, Hcount;
    [lia|done..|].
  by intros ?%node_inj.
Qed.

(** Appending a task with a fresh name whose dependencies are all known
    keeps the list well formed. *)
Lemma well_formed_snoc l t :
  NoDup (names l) → resolved l → acyclic l →
  name t ∉ names l → (∀ d, d ∈ dependencies t → d ∈ names l) →
  NoDup (names (l ++ [t])) ∧ resolved (l ++ [t]) ∧ acyclic (l ++ [t]).
Proof.
  intros Hnd Hres Hac Hfresh Hdeps.
  assert (∀ a b, depends_on (l ++ [t]) a b → b ∈ names l
            ∧ (a ≠ name t → depends_on l a b)) as Hedge.
  { intros a b (u & [Hu|Hu]%elem_of_app & Hn & Hb).
    - split; [by apply (Hres u)|]. intros _. by exists u.
    - apply list_elem_of_singleton in Hu as ->. split; [by apply Hdeps|done]. }
  assert (∀ a b, tc (depends_on (l ++ [t])) a b → a ≠ name t →
            tc (depends_on l) a b) as Htc.
  { induction 1 as [a b Hab|a b c Hab _ IH]; intros Ha.
    - apply tc_once. by apply Hedge.
    - destruct (Hedge a b Hab) as [Hb Hab'].
      eapply tc_l; [by apply Hab'|]. apply IH. by intros ->. }
  split_and!.
  - unfold names. rewrite fmap_app. apply NoDup_app. split_and!; [done| |].
    + intros x Hx ->%list_elem_of_singleton. done.
    + apply NoDup_singleton.
  - intros u d [Hu|Hu]%elem_of_app Hd; unfold names; rewrite fmap_app, elem_of_app; left.
    + by apply (Hres u).
    + apply list_elem_of_singleton in Hu as ->. by apply Hdeps.
  - intros a Ha. destruct (decide (a = name t)) as [->|Hne].
    + assert (∀ x y, tc (depends_on (l ++ [t])) x y → y ∈ names l) as Htarget.
      { induction 1 as [x y Hxy|x y z _ _ IH]; [by apply Hedge in Hxy as [? _]|done]. }
      by apply Htarget in Ha.
    + by apply (Hac a), Htc.
Qed.

Lemma diamonds_well_formed n :
  NoDup (names (diamonds n)) ∧ resolved (diamonds n) ∧ acyclic (diamonds n).
Proof.
  induction n as [|k (Hnd & Hres & Hac)].
  { apply (well_formed_snoc [] (sink 0)).
    - constructor.
    - by intros t d ?%elem_of_nil.
    - intros a Ha. inversion Ha as [? ? (t & ?%elem_of_nil & _)|
                                    ? ? ? (t & ?%elem_of_nil & _) _]; done.
    - apply not_elem_of_nil.
    - by intros d ?%elem_of_nil. }
  destruct (fresh_level k) as (Hn & Hl & Hr).
  destruct (level_names_distinct (S k) (S k)) as (Hnl & Hnr & Hlr).
  assert (node k ∈ names (diamonds k)) as Hnode.
  { pose proof (lookup_node k) as [? <-]%getTaskFromList_elem_of.
    unfold names. apply list_elem_of_fmap. eauto. }
  destruct (well_formed_snoc (diamonds k) (task (left_of (S k)) 1 [node k]))
    as (Hnd1 & Hres1 & Hac1); [done..| |].
  { by intros d ->%list_elem_of_singleton. }
  set (l1 := diamonds k ++ [task (left_of (S k)) 1 [node k]]) in *.
  assert (names l1 = names (diamonds k) ++ [left_of (S k)]) as Hnames1.
  { unfold l1, names. by rewrite fmap_app. }
  destruct (well_formed_snoc l1 (task (right_of (S k)) 1 [node k]))
    as (Hnd2 & Hres2 & Hac2); [done..| | |].
  { rewrite Hnames1, elem_of_app, list_elem_of_singleton. simpl. naive_solver. }
  { intros d ->%list_elem_of_singleton. rewrite Hnames1, elem_of_app. by left. }
  set (l2 := l1 ++ [task (right_of (S k)) 1 [node k]]) in *.
  assert (names l2 = names l1 ++ [right_of (S k)]) as Hnames2.
  { unfold l2, names. by rewrite fmap_app. }
  destruct (well_formed_snoc l2 (sink (S k))) as (Hnd3 & Hres3 & Hac3); [done..| | |].
  { rewrite Hnames2, Hnames1, !elem_of_app, !list_elem_of_singleton. simpl.
    naive_solver. }
  { intros d Hd. rewrite Hnames2, Hnames1, !elem_of_app, !list_elem_of_singleton.
    simpl in Hd. apply elem_of_cons in Hd as [->|Hd]; [by left; right|].
    apply list_elem_of_singleton in Hd as ->. by right. }
  replace (diamonds (S k)) with (l2 ++ [sink (S k)]); [done|].
  unfold l2, l1. simpl. by rewrite <- !app_assoc.
Qed.

(** ** Every call evaluates every listed name afresh *)

Lemma earlyLoop_calls_weaken rec rec' l deps a calls r :
  (∀ u r, rec u = Returns r → rec' u = Returns r) →
  earlyLoop_calls rec l deps a calls = Returns r →
  earlyLoop_calls rec' l deps a calls = Returns r.
Proof.
  intros Hrec. revert a calls.
  induction deps as [|d deps IH]; intros a calls; simpl; [done|].
  intros (u & Hu & (ru & Hru & Hrest)%bind_Returns)%bind_Returns.
  rewrite Hu. simpl. rewrite (Hrec _ _ Hru). simpl. by apply IH.
Qed.

Lemma getEarlyStartScore_calls_S fuel t l r :
  getEarlyStartScore_calls fuel t l = Returns r →
  getEarlyStartScore_calls (S fuel) t l = Returns r.
Proof.
  revert t r. induction fuel as [|fuel IH]; intros t r; [done|].
  remember (S fuel) as f eqn:Hf. simpl. subst f. simpl.
  destruct (dependencies t); [done|]. apply earlyLoop_calls_weaken. apply IH.
Qed.

Lemma earlyLoop_calls_split rec l deps a c v calls :
  earlyLoop_calls rec l deps a c = Returns (v, calls) →
  ∃ subs,
    Forall2 (fun d sub => ∃ u s,
      getTaskFromList d l = Returns u ∧ rec u = Returns (s, sub)) deps subs
    ∧ calls = c ++ concat subs.
Proof.
  revert a c. induction deps as [|d deps IH]; intros a c; simpl.
  - intros [= <- <-]. exists []. split; [constructor|]. by rewrite app_nil_r.
  - intros (u & Hu & ([s sub] & Hs & Hrest)%bind_Returns)%bind_Returns.
    apply IH in Hrest as (subs & Hsubs & ->). exists (sub :: subs). split.
    + constructor; [by exists u, s|done].
    + simpl. by rewrite app_assoc.
Qed.

Lemma lateLoop_calls_weaken rec rec' l succs a calls r :
  (∀ u r, rec u = Returns r → rec' u = Returns r) →
  lateLoop_calls rec l succs a calls = Returns r →
  lateLoop_calls rec' l succs a calls = Returns r.
Proof.
  intros Hrec. revert a calls.
  induction succs as [|d succs IH]; intros a calls; simpl; [done|].
  intros (u & Hu & (ru & Hru & Hrest)%bind_Returns)%bind_Returns.
  rewrite Hu. simpl. rewrite (Hrec _ _ Hru). simpl. by apply IH.
Qed.

Lemma getLateFinishScore_calls_S fuel t l r :
  getLateFinishScore_calls fuel t l = Returns r →
  getLateFinishScore_calls (S fuel) t l = Returns r.
Proof.
  revert t r. induction fuel as [|fuel IH]; intros t r; [done|].
  remember (S fuel) as f eqn:Hf. simpl. subst f. simpl.
  destruct (successors t); [done|]. apply lateLoop_calls_weaken. apply IH.
Qed.

Lemma lateLoop_calls_split rec l succs a c v calls :
  lateLoop_calls rec l succs a c = Returns (v, calls) →
  ∃ subs,
    Forall2 (fun d sub => ∃ u s,
      getTaskFromList d l = Returns u ∧ rec u = Returns (s, sub)) succs subs
    ∧ calls = c ++ concat subs.
Proof.
  revert a c. induction succs as [|d succs IH]; intros a c; simpl.
  - intros [= <- <-]. exists []. split; [constructor|]. by rewrite app_nil_r.
  - intros (u & Hu & ([s sub] & Hs & Hrest)%bind_Returns)%bind_Returns.
    apply IH in Hrest as (subs & Hsubs & ->). exists (sub :: subs). split.
    + constructor; [by exists u, s|done].
    + simpl. by rewrite app_assoc.
Qed.

Lemma early_calls_unfold fuel t l v calls :
  getEarlyStartScore_calls fuel t l = Returns (v, calls) →
  ∃ subs,
    Forall2 (fun d sub => ∃ u s,
      getTaskFromList d l = Returns u
      ∧ getEarlyStartScore_calls fuel u l = Returns (s, sub))
      (dependencies t) subs
    ∧ calls = name t :: concat subs.
Proof.
  destruct fuel as [|fuel]; [done|]. intros H. simpl in H.
  destruct (dependencies t) as [|d ds] eqn:Hdeps.
  { injection H as <- <-. exists []. split; [constructor|done]. }
  apply earlyLoop_calls_split in H as (subs & Hsubs & ->).
  exists subs. split; [|done].
  eapply Forall2_impl; [exact Hsubs|]. intros n sub (u & s & Hu & Hs).
  exists u, s. split; [done|]. by apply getEarlyStartScore_calls_S.
Qed.

Lemma late_calls_unfold fuel t l v calls :
  getLateFinishScore_calls fuel t l = Returns (v, calls) →
  ∃ subs,
    Forall2 (fun d sub => ∃ u s,
      getTaskFromList d l = Returns u
      ∧ getLateFinishScore_calls fuel u l = Returns (s, sub))
      (successors t) subs
    ∧ calls = name t :: concat subs.
Proof.
  destruct fuel as [|fuel]; [done|]. intros H. simpl in H.
  destruct (successors t) as [|d ds] eqn:Hsuccs.
  { injection H as <- <-. exists []. split; [constructor|done]. }
  apply lateLoop_calls_split in H as (subs & Hsubs & ->).
  exists subs. split; [|done].
  eapply Forall2_impl; [exact Hsubs|]. intros n sub (u & s & Hu & Hs).
  exists u, s. split; [done|]. by apply getLateFinishScore_calls_S.
Qed.

(** C9, as amended.  Neither pass caches anything.  The calls made by one
    evaluation of a task are the task itself followed by the calls of a
    complete evaluation of each listed dependency (forward) or successor
    (backward), one per entry, whether or not that task was evaluated
    before; the score is that of the uninstrumented code.  So a task is
    evaluated once per path that reaches it: on the chain of [n] diamonds,
    a well-formed acyclic input of [3n+1] tasks, one evaluation of the early
    start of the last task enters [getEarlyStartScore] on the first task
    [2^n] times. *)
Theorem no_memoization :
  (∀ fuel t l v calls,
     getEarlyStartScore_calls fuel t l = Returns (v, calls) →
     getEarlyStartScore fuel t l = Returns v
     ∧ ∃ subs,
         Forall2 (fun d sub => ∃ u s,
           getTaskFromList d l = Returns u
           ∧ getEarlyStartScore_calls fuel u l = Returns (s, sub))
           (dependencies t) subs
         ∧ calls = name t :: concat subs)
  ∧ (∀ fuel t l v calls,
       getLateFinishScore_calls fuel t l = Returns (v, calls) →
       getLateFinishScore fuel t l = Returns v
       ∧ ∃ subs,
           Forall2 (fun d sub => ∃ u s,
             getTaskFromList d l = Returns u
             ∧ getLateFinishScore_calls fuel u l = Returns (s, sub))
             (successors t) subs
           ∧ calls = name t :: concat subs)
  ∧ (∀ n,
       length (diamonds n) = (3 * n + 1)%nat
       ∧ NoDup (names (diamonds n)) ∧ resolved (diamonds n) ∧ acyclic (diamonds n)
       ∧ ∃ v calls,
           getEarlyStartScore_calls (2 * n + 1) (sink n) (diamonds n)
           = Returns (v, calls)
           ∧ evaluations (node 0) calls = (2 ^ n)%nat).
Proof.
  split_and!.
  - intros fuel t l v calls H. split; [|by apply (early_calls_unfold fuel t l v)].
    by rewrite getEarlyStartScore_calls_score, H.
  - intros fuel t l v calls H. split; [|by apply (late_calls_unfold fuel t l v)].
    by rewrite getLateFinishScore_calls_score, H.
  - intros n. destruct (diamonds_well_formed n) as (Hnd & Hres & Hac).
    split; [|by split_and!; [..|apply source_evaluations]].
    clear. induction n as [|k IH]; [done|]. simpl diamonds. rewrite length_app, IH.
    simpl. lia.
Qed.

(** * Further properties of the code

    The reader, the lookups, the loops and the writers, beyond the timing
    results above. *)

(** ** Strings *)

Lemma append_assoc (a b c : string) : (a +:+ b) +:+ c = a +:+ (b +:+ c).
Proof.
  induction a as [|x a IH]; [done|].
  change (String x ((a +:+ b) +:+ c) = String x (a +:+ (b +:+ c))). by rewrite IH.
Qed.

Lemma append_nil_r (a : string) : a +:+ EmptyString = a.
Proof.
  induction a as [|x a IH]; [done|].
  change (String x (a +:+ EmptyString) = String x a). by rewrite IH.
Qed.

Lemma chars_app (a b : string) : chars (a +:+ b) = chars a ++ chars b.
Proof.
  induction a as [|x a IH]; [done|].
  change (chars (String x a +:+ b)) with (x :: chars (a +:+ b)). by rewrite IH.
Qed.

Lemma fold_left_append {A} (g : A → string) (l : list A) (init : string) :
  fold_left (fun file x => file +:+ g x) l init = init +:+ flatten (map g l).
Proof.
  revert init. induction l as [|x l IH]; intros init; simpl.
  - by rewrite append_nil_r.
  - by rewrite IH, append_assoc.
Qed.

(** ** The [getline] loops

    A [while (getline (...))] loop runs its body on the [items] of the
    stream, in order; the bound on its rounds is never reached. *)

Lemma items_nil delim s : items delim s = [] ↔ s = EmptyString.
Proof.
  destruct s as [|c rest]; simpl; [done|].
  split; [|done]. case_decide; [done|]. by destruct (items delim rest).
Qed.

Lemma read_until_length delim s :
  (String.length (snd (read_until delim s)) ≤ String.length s)%nat.
Proof.
  induction s as [|c rest IH]; simpl; [lia|].
  case_decide; simpl; lia.
Qed.

Lemma read_until_items delim c rest :
  items delim (String c rest)
  = fst (read_until delim (String c rest))
    :: items delim (snd (read_until delim (String c rest))).
Proof.
  revert c. induction rest as [|c' rest IH]; intros c.
  - simpl. by case_decide.
  - change (items delim (String c (String c' rest)))
      with (if decide (c = delim) then EmptyString :: items delim (String c' rest)
            else match items delim (String c' rest) with
                 | [] => [String c EmptyString]
                 | item :: more => String c item :: more
                 end).
    change (read_until delim (String c (String c' rest)))
      with (if decide (c = delim) then (EmptyString, String c' rest)
            else let r := read_until delim (String c' rest) in
                 (String c (fst r), snd r)).
    case_decide; [done|]. by rewrite IH.
Qed.

Lemma while_getline_items {A} fuel delim (body : A → string → A) s a :
  (String.length s < fuel)%nat →
  while_getline fuel delim body s a = fold_left body (items delim s) a.
Proof.
  revert s a. induction fuel as [|fuel IH]; intros s a Hlen; [lia|].
  destruct s as [|c rest]; [done|].
  rewrite read_until_items.
  cbn [while_getline getline fold_left].
  pose proof (read_until_length delim (String c rest)) as Hle.
  destruct (read_until delim (String c rest)) as [item rest'] eqn:Hr.
  cbn [fst snd] in *.
  assert (String.length rest' ≤ String.length rest)%nat as Hle'.
  { simpl in Hr. case_decide; simplify_eq; [lia|].
    apply read_until_length. }
  apply IH. simpl in Hlen. lia.
Qed.

Lemma fold_left_nonempty (l acc : list string) :
  fold_left (fun result item =>
    if decide (item = EmptyString) then result else result ++ [item]) l acc
  = acc ++ filter nonempty l.
Proof.
  revert acc. induction l as [|x l IH]; intros acc; simpl.
  - by rewrite app_nil_r.
  - rewrite IH. case_decide.
    + by rewrite filter_cons_False by (by intros []).
    + rewrite filter_cons_True by done. by rewrite <- app_assoc.
Qed.

Lemma fold_left_push_back {A} (l acc : list A) :
  fold_left (fun row cell => row ++ [cell]) l acc = acc ++ l.
Proof.
  revert acc. induction l as [|x l IH]; intros acc; simpl.
  - by rewrite app_nil_r.
  - rewrite IH. by rewrite <- app_assoc.
Qed.

Lemma splitDependencies_items s separator :
  splitDependencies s separator = filter nonempty (items separator s).
Proof.
  unfold splitDependencies. rewrite while_getline_items by lia.
  by rewrite fold_left_nonempty.
Qed.

Lemma row_items line :
  while_getline (S (String.length line)) ","%char (fun row cell => row ++ [cell]) line []
  = items ","%char line.
Proof. rewrite while_getline_items by lia. by rewrite fold_left_push_back. Qed.

Lemma items_delim_free delim s : Forall (fun item => delim ∉ chars item) (items delim s).
Proof.
  induction s as [|c rest IH]; simpl; [constructor|].
  case_decide.
  - constructor; [|done]. unfold chars. simpl. set_solver.
  - destruct (items delim rest) as [|item more].
    + repeat constructor. unfold chars. simpl. set_solver.
    + inversion IH; subst. constructor; [|done].
      unfold chars in *. simpl. set_solver.
Qed.

Lemma items_chars delim s :
  flat_map chars (items delim s) = filter (fun c => c ≠ delim) (chars s).
Proof.
  induction s as [|c rest IH]; [done|].
  change (chars (String c rest)) with (c :: chars rest). simpl.
  case_decide.
  - rewrite filter_cons_False by (by intros []). done.
  - rewrite filter_cons_True by done. rewrite <- IH.
    by destruct (items delim rest).
Qed.

Lemma items_other_free (c delim : ascii) (s : string) :
  c ∉ chars s → Forall (fun item => c ∉ chars item) (items delim s).
Proof.
  intros Hfree. apply Forall_forall. intros item Hitem Hc. apply Hfree.
  assert (c ∈ flat_map chars (items delim s)) as Hin.
  { apply list_elem_of_In, in_flat_map. exists item.
    split; by apply list_elem_of_In. }
  rewrite items_chars in Hin. by apply list_elem_of_filter in Hin as [_ ?].
Qed.

Lemma items_app_delim delim item rest :
  delim ∉ chars item →
  items delim (item +:+ String delim rest) = item :: items delim rest.
Proof.
  induction item as [|c item IH]; intros Hfree.
  - simpl. by rewrite decide_True.
  - change (chars (String c item)) with (c :: chars item) in Hfree.
    apply not_elem_of_cons in Hfree as [Hc Hfree].
    simpl. rewrite decide_False by done. fold String.append. by rewrite IH.
Qed.

Lemma items_free delim item :
  delim ∉ chars item → item ≠ EmptyString → items delim item = [item].
Proof.
  induction item as [|c item IH]; intros Hfree Hne; [done|].
  change (chars (String c item)) with (c :: chars item) in Hfree.
  apply not_elem_of_cons in Hfree as [Hc Hfree].
  simpl. rewrite decide_False by done.
  destruct item as [|c' item']; [done|]. by rewrite IH.
Qed.

Lemma chars_concat (P : ascii → Prop) (sep : string) (l : list string) :
  Forall P (chars sep) → Forall (fun item => Forall P (chars item)) l →
  Forall P (chars (String.concat sep l)).
Proof.
  intros Hsep. induction l as [|x l IH]; intros Hl; [constructor|].
  apply Forall_cons in Hl as [Hx Hl].
  destruct l as [|y l]; [done|].
  change (String.concat sep (x :: y :: l))
    with (x +:+ sep +:+ String.concat sep (y :: l)).
  rewrite !chars_app, !Forall_app. auto.
Qed.

Lemma concat_nonempty (sep : string) (l : list string) :
  l ≠ [] → Forall nonempty l → String.concat sep l ≠ EmptyString.
Proof.
  destruct l as [|x l]; [done|]. intros _ Hl.
  apply Forall_cons in Hl as [Hx _].
  destruct l as [|y l]; [exact Hx|].
  change (String.concat sep (x :: y :: l))
    with (x +:+ sep +:+ String.concat sep (y :: l)).
  by destruct x.
Qed.

Lemma concat_free (c : ascii) (sep : string) (l : list string) :
  c ∉ chars sep → Forall (fun item => c ∉ chars item) l →
  c ∉ chars (String.concat sep l).
Proof.
  intros Hsep Hl Hin.
  assert (Forall (fun x => x ≠ c) (chars (String.concat sep l))) as H.
  { apply chars_concat.
    - apply Forall_forall. by intros x Hx ->.
    - eapply Forall_impl; [exact Hl|]. intros item Hitem.
      apply Forall_forall. by intros x Hx ->. }
  rewrite Forall_forall in H. by apply (H c).
Qed.

Lemma filter_nonempty_id (l : list string) :
  Forall nonempty l → filter nonempty l = l.
Proof.
  induction 1 as [|x l Hx _ IH]; [done|].
  rewrite filter_cons_True by done. by rewrite IH.
Qed.

Lemma splitDependencies_concat separator (l : list string) :
  Forall (fun item => separator ∉ chars item) l →
  splitDependencies (String.concat (String separator EmptyString) l) separator
  = filter nonempty l.
Proof.
  rewrite splitDependencies_items.
  induction l as [|x l IH]; intros Hfree; [done|].
  apply Forall_cons in Hfree as [Hx Hfree].
  destruct l as [|y l].
  - simpl. destruct (decide (x = EmptyString)) as [->|Hne]; [done|].
    rewrite items_free by done. done.
  - change (String.concat (String separator EmptyString) (x :: y :: l))
      with (x +:+ String separator
              (String.concat (String separator EmptyString) (y :: l))).
    rewrite items_app_delim by done.
    rewrite !(filter_cons _ x). by rewrite IH.
Qed.

(** ** [splitDependencies] *)

(** X1.  No item that [splitDependencies] returns is empty, and none holds the
    separator. *)
Theorem splitDependencies_items_clean (s : string) (separator : ascii) :
  Forall (fun item => item ≠ EmptyString ∧ (separator ∉ chars item))
    (splitDependencies s separator).
Proof.
  rewrite splitDependencies_items. apply Forall_forall.
  intros item [Hne Hin]%list_elem_of_filter. split; [done|].
  pose proof (items_delim_free separator s) as H. rewrite Forall_forall in H. auto.
Qed.

(** X2.  [splitDependencies] drops the separators and nothing else: the
    characters of the items, in order, are the characters of the input
    without the separators. *)
Theorem splitDependencies_keeps_chars (s : string) (separator : ascii) :
  flat_map chars (splitDependencies s separator)
  = filter (fun c => c ≠ separator) (chars s).
Proof.
  rewrite splitDependencies_items, <- items_chars.
  induction (items separator s) as [|item l IH]; [done|].
  destruct (decide (item = EmptyString)) as [->|Hne].
  - by rewrite filter_cons_False by (by intros []).
  - rewrite filter_cons_True by done. simpl. by rewrite IH.
Qed.

(** X3.  Splitting the items of a list joined by the separator gives the items
    back, without the empty ones, when no item holds the separator. *)
Theorem split_join_round_trip (separator : ascii) (l : list string) :
  Forall (fun item => separator ∉ chars item) l →
  splitDependencies (String.concat (String separator EmptyString) l) separator
  = filter nonempty l.
Proof. apply splitDependencies_concat. Qed.

Lemma split_join_round_trip_witness :
  splitDependencies "b;;c" ";"%char = ["b"; "c"].
Proof.
  apply (split_join_round_trip ";"%char ["b"; EmptyString; "c"]).
  repeat constructor; apply (bool_decide_unpack _); vm_compute; exact I.
Defined.

(** ** [stoi] and the decimal text of an integer *)

Lemma digit_value_pretty (d : N) :
  (d < 10)%N → digit_value (pretty_N_char d) = Some (Z.of_N d).
Proof.
  intros Hd.
  assert (d = 0 ∨ d = 1 ∨ d = 2 ∨ d = 3 ∨ d = 4 ∨ d = 5 ∨ d = 6 ∨ d = 7
          ∨ d = 8 ∨ d = 9)%N as Hcases by lia.
  repeat (destruct Hcases as [->|Hcases]; [reflexivity|]). by subst.
Qed.

Lemma read_digits_stop (s : string) (acc : Z) :
  no_leading_digit s → read_digits s acc = acc.
Proof. destruct s as [|c s]; simpl; [done|]. by intros ->. Qed.

Lemma pretty_N_go_digits (x : N) (s : string) :
  ∃ ds : string,
    pretty_N_go x s = ds +:+ s ∧ Forall digit (chars ds)
    ∧ ((0 < x)%N → ds ≠ EmptyString)
    ∧ ∃ k : Z, 0 ≤ k ∧ ∀ acc rest,
        read_digits (ds +:+ rest) acc = read_digits rest (acc * 10 ^ k + Z.of_N x).
Proof.
  revert s. induction (N.lt_wf_0 x) as [x _ IH]; intros s.
  destruct (decide (x = 0)%N) as [->|Hx].
  { exists EmptyString. rewrite pretty_N_go_0. split_and!; [done|constructor|lia|].
    exists 0. split; [lia|]. intros acc rest. simpl. f_equal. lia. }
  rewrite pretty_N_go_step by lia.
  destruct (IH (x `div` 10)%N) with (s := String (pretty_N_char (x `mod` 10)) s)
    as (ds & Heq & Hds & _ & k & Hk & Hread).
  { apply N.div_lt; lia. }
  pose proof (N.mod_lt x 10 ltac:(lia)) as Hmod.
  exists (ds +:+ String (pretty_N_char (x `mod` 10)) EmptyString).
  split_and!.
  - by rewrite Heq, append_assoc.
  - rewrite chars_app. apply Forall_app. split; [done|].
    repeat constructor. unfold digit. by rewrite digit_value_pretty.
  - intros _. by destruct ds.
  - exists (k + 1). split; [lia|]. intros acc rest.
    rewrite append_assoc, Hread. simpl.
    rewrite digit_value_pretty by done. f_equal.
    rewrite Z.pow_add_r by lia. rewrite N2Z.inj_div, N2Z.inj_mod.
    pose proof (Z.div_mod (Z.of_N x) 10 ltac:(lia)). change (Z.of_N 10) with 10.
    lia.
Qed.

Lemma digit_not_space c : digit c → isspace c = false.
Proof.
  unfold digit, digit_value, isspace. case_decide; [|by intros [? ?]].
  intros _. apply bool_decide_eq_false. lia.
Qed.

Lemma digit_not_sign c : digit c → c ≠ "-"%char ∧ c ≠ "+"%char.
Proof.
  unfold digit, digit_value. intros Hd.
  split; intros ->; vm_compute in Hd; by destruct Hd.
Qed.

Lemma stoi_unsigned c s :
  digit c → stoi (String c s) = int_range (read_digits (String c s) 0).
Proof.
  intros Hd. pose proof (digit_not_sign c Hd) as [Hm Hp].
  unfold stoi. cbn [skip_space]. rewrite (digit_not_space c Hd).
  rewrite (decide_False _ _ Hm), (decide_False _ _ Hp). cbn [fst snd].
  destruct Hd as [d Hd]. by rewrite Hd.
Qed.

Lemma stoi_negative c s :
  digit c →
  stoi (String "-"%char (String c s)) = int_range (- read_digits (String c s) 0).
Proof.
  intros [d Hd]. unfold stoi. cbn [skip_space].
  change (isspace "-"%char) with false. cbv iota.
  rewrite decide_True by done. cbn [fst snd]. by rewrite Hd.
Qed.

Lemma pretty_pos_digits (p : positive) :
  ∃ c ds, pretty (Z.pos p) = String c ds ∧ digit c ∧ Forall digit (chars ds)
    ∧ ∀ rest, no_leading_digit rest →
        read_digits (String c ds +:+ rest) 0 = Z.pos p.
Proof.
  destruct (pretty_N_go_digits (N.pos p) EmptyString)
    as (ds & Heq & Hds & Hne & k & Hk & Hread).
  rewrite append_nil_r in Heq.
  destruct ds as [|c ds]; [by destruct Hne|].
  change (chars (String c ds)) with (c :: chars ds) in Hds.
  apply Forall_cons in Hds as [Hc Hds].
  exists c, ds. split_and!; [|done..|].
  - unfold pretty, pretty_Z, pretty, pretty_positive, pretty, pretty_N.
    rewrite decide_False by done. done.
  - intros rest Hrest. rewrite Hread, read_digits_stop by done.
    change (Z.of_N (N.pos p)) with (Z.pos p). lia.
Qed.

Lemma pretty_neg (p : positive) : pretty (Z.neg p) = String "-"%char (pretty (Z.pos p)).
Proof. done. Qed.

Lemma stoi_pretty_range (z : Z) (rest : string) :
  no_leading_digit rest → stoi (pretty z +:+ rest) = int_range z.
Proof.
  intros Hrest. destruct z as [|p|p].
  - change (pretty 0) with "0"%string.
    change ("0" +:+ rest)%string with (String "0"%char rest).
    rewrite stoi_unsigned by (by eexists).
    cbn [read_digits]. change (digit_value "0"%char) with (Some 0). cbv iota.
    by rewrite read_digits_stop by done.
  - destruct (pretty_pos_digits p) as (c & ds & -> & Hc & _ & Hread).
    change (String c ds +:+ rest) with (String c (ds +:+ rest)).
    rewrite stoi_unsigned by done.
    change (String c (ds +:+ rest)) with (String c ds +:+ rest).
    by rewrite Hread by done.
  - rewrite pretty_neg.
    destruct (pretty_pos_digits p) as (c & ds & -> & Hc & _ & Hread).
    change (String "-"%char (String c ds) +:+ rest)
      with (String "-"%char (String c (ds +:+ rest))).
    rewrite stoi_negative by done.
    change (String c (ds +:+ rest)) with (String c ds +:+ rest).
    by rewrite Hread by done.
Qed.

Lemma stoi_pretty_app (z : Z) (rest : string) :
  in_int z → no_leading_digit rest → stoi (pretty z +:+ rest) = Parsed z.
Proof.
  intros Hz Hrest. rewrite stoi_pretty_range by done.
  unfold int_range. by rewrite decide_True by done.
Qed.

Lemma pretty_Z_chars (z : Z) :
  Forall (fun c => digit c ∨ c = "-"%char) (chars (pretty z)).
Proof.
  assert (∀ p, Forall (fun c => digit c ∨ c = "-"%char) (chars (pretty (Z.pos p)))) as Hpos.
  { intros p. destruct (pretty_pos_digits p) as (c & ds & -> & Hc & Hds & _).
    change (chars (String c ds)) with (c :: chars ds).
    constructor; [by left|]. eapply Forall_impl; [done|]. by left. }
  destruct z as [|p|p].
  - change (chars (pretty 0)) with ["0"%char].
    constructor; [|constructor]. left. by eexists.
  - apply Hpos.
  - rewrite pretty_neg.
    change (chars (String "-"%char (pretty (Z.pos p))))
      with ("-"%char :: chars (pretty (Z.pos p))).
    constructor; [by right|]. apply Hpos.
Qed.

Lemma pretty_Z_free (c : ascii) (z : Z) :
  digit_value c = None → c ≠ "-"%char → c ∉ chars (pretty z).
Proof.
  intros Hc Hdash Hin. pose proof (pretty_Z_chars z) as H.
  rewrite Forall_forall in H. destruct (H c Hin) as [[d Hd]|Hd]; congruence.
Qed.

Lemma pretty_Z_nonempty (z : Z) : pretty z ≠ EmptyString.
Proof.
  destruct z as [|p|p]; [done| |by rewrite pretty_neg].
  by destruct (pretty_pos_digits p) as (c & ds & -> & _).
Qed.

Lemma stoi_in_int (s : string) (v : Z) : stoi s = Parsed v → in_int v.
Proof.
  unfold stoi, in_int. cbv zeta.
  destruct (snd _) as [|c rest]; [done|].
  destruct (digit_value c); [|done].
  case_decide; intros; by simplify_eq.
Qed.

Lemma stoi_skip_space (ws s : string) :
  Forall (fun c => isspace c = true) (chars ws) → stoi (ws +:+ s) = stoi s.
Proof.
  intros Hws. unfold stoi.
  assert (skip_space (ws +:+ s) = skip_space s) as ->; [|done].
  induction ws as [|c ws IH]; [done|].
  change (chars (String c ws)) with (c :: chars ws) in Hws.
  apply Forall_cons in Hws as [Hc Hws].
  change (String c ws +:+ s) with (String c (ws +:+ s)).
  cbn [skip_space]. rewrite Hc. by apply IH.
Qed.

Lemma skip_space_Forall (P : ascii → Prop) (s : string) :
  Forall P (chars s) → Forall P (chars (skip_space s)).
Proof.
  induction s as [|c s IH]; [done|]. intros Hs. cbn [skip_space].
  destruct (isspace c); [|done].
  change (chars (String c s)) with (c :: chars s) in Hs.
  apply Forall_cons in Hs as [_ Hs]. by apply IH.
Qed.

(** X4.  [stoi] reads back the decimal text of an integer, behind any white
    space and in front of anything that does not start with a digit: it
    returns the integer when that is an [int] and throws [out_of_range]
    otherwise. *)
Theorem stoi_reads_decimal (ws : string) (z : Z) (rest : string) :
  Forall (fun c => isspace c = true) (chars ws) → no_leading_digit rest →
  stoi (ws +:+ pretty z +:+ rest)
  = if decide (INT_MIN ≤ z ∧ z ≤ INT_MAX) then Parsed z else OutOfRange.
Proof.
  intros Hws Hrest. rewrite stoi_skip_space by done. by apply stoi_pretty_range.
Qed.

Lemma stoi_reads_decimal_witness :
  stoi " -12 days" = Parsed (-12) ∧ stoi "2147483648" = OutOfRange.
Proof.
  split.
  - apply (stoi_reads_decimal " " (-12) " days").
    + repeat constructor.
    + reflexivity.
  - apply (stoi_reads_decimal EmptyString 2147483648 EmptyString).
    + constructor.
    + exact I.
Defined.

(** X5.  [stoi] throws [invalid_argument] on every text without a digit. *)
Theorem stoi_without_digit (s : string) :
  Forall (fun c => digit_value c = None) (chars s) → stoi s = InvalidArgument.
Proof.
  intros Hs%skip_space_Forall. unfold stoi. cbv zeta.
  destruct (skip_space s) as [|c rest]; [done|].
  change (chars (String c rest)) with (c :: chars rest) in Hs.
  apply Forall_cons in Hs as [Hc Hrest].
  assert (match rest with
          | EmptyString => True
          | String c' _ => digit_value c' = None
          end) as Hfirst.
  { destruct rest as [|c' rest']; [done|].
    change (chars (String c' rest')) with (c' :: chars rest') in Hrest.
    by apply Forall_cons in Hrest as [? _]. }
  destruct (decide (c = "-"%char)); [|destruct (decide (c = "+"%char))];
    cbn [fst snd].
  - destruct rest as [|c' rest']; [done|]. by rewrite Hfirst.
  - destruct rest as [|c' rest']; [done|]. by rewrite Hfirst.
  - by rewrite Hc.
Qed.

Lemma stoi_without_digit_witness : stoi "three" = InvalidArgument.
Proof.
  apply (stoi_without_digit "three").
  repeat constructor.
Defined.

(** ** [loadCSV] *)

Lemma loadStep_failed (lines : list string) (e : parse (bool * list Task)) :
  (∀ st, e ≠ Parsed st) → fold_left loadStep lines e = e.
Proof.
  intros He. induction lines as [|line lines IH]; [done|].
  destruct e; [by edestruct He|..]; apply IH.
Qed.

Lemma loadStep_rows (lines : list string) (tasks : list Task) :
  fold_left loadStep lines (Parsed (true, tasks))
  = parse_bind (loadRows lines) (fun more => Parsed (true, tasks ++ more)).
Proof.
  revert tasks. induction lines as [|line lines IH]; intros tasks; simpl.
  - by rewrite app_nil_r.
  - destruct (loadRow line) as [t| | |]; simpl.
    + rewrite IH. destruct (loadRows lines); simpl; [|done..].
      by rewrite <- app_assoc.
    + by apply loadStep_failed.
    + by apply loadStep_failed.
    + by apply loadStep_failed.
Qed.

Lemma loadCSV_lines (content : string) :
  loadCSV (Some content)
  = match items newline content with
    | [] => Parsed []
    | _ :: lines => loadRows lines
    end.
Proof.
  unfold loadCSV. rewrite while_getline_items by lia.
  fold loadStep. fold newline.
  destruct (items newline content) as [|header lines]; [done|].
  cbn [fold_left]. change (loadStep (Parsed (false, [])) header) with
    (Parsed (A := bool * list Task) (true, [])).
  rewrite loadStep_rows. by destruct (loadRows lines).
Qed.

Lemma loadRow_csv_row (t : Task) :
  csv_record t →
  loadRow (csv_row t) = Parsed (task (name t) (duration t) (dependencies t)).
Proof.
  intros [[Hname _] Hdur Hdeps].
  unfold loadRow. rewrite row_items. unfold csv_row.
  change ("," +:+ pretty (duration t) +:+ "," +:+ String.concat ";" (dependencies t))
    with (String ","%char
            (pretty (duration t) +:+ "," +:+ String.concat ";" (dependencies t))).
  rewrite items_app_delim by done.
  change ("," +:+ String.concat ";" (dependencies t))
    with (String ","%char (String.concat ";" (dependencies t))).
  rewrite items_app_delim.
  2:{ intros Hin. pose proof (pretty_Z_chars (duration t)) as Hc.
      rewrite Forall_forall in Hc. destruct (Hc _ Hin) as [Hd|Hd]; [|done].
      vm_compute in Hd. by destruct Hd. }
  cbn [lookup list_lookup].
  pose proof (stoi_pretty_app (duration t) EmptyString Hdur I) as Hstoi.
  rewrite append_nil_r in Hstoi. rewrite Hstoi. cbn [parse_bind].
  do 2 f_equal.
  destruct (decide (dependencies t = [])) as [Hd|Hd].
  { by rewrite Hd. }
  assert (String.concat ";" (dependencies t) ≠ EmptyString) as Hne.
  { apply concat_nonempty; [done|].
    eapply Forall_impl; [done|]. by intros ? [? _]. }
  rewrite items_free; [|..|done].
  2:{ apply concat_free.
      - unfold chars. simpl. set_solver.
      - eapply Forall_impl; [exact Hdeps|]. by intros ? (_ & _ & ? & _). }
  cbn [length]. rewrite decide_True by done.
  cbn [lookup list_lookup default from_option id].
  rewrite (splitDependencies_concat ";"%char).
  - apply filter_nonempty_id.
    eapply Forall_impl; [exact Hdeps|]. by intros ? [? _].
  - eapply Forall_impl; [exact Hdeps|]. by intros ? (_ & ? & _).
Qed.

Lemma items_lines (rows : list string) (trailer : string) :
  rows ≠ [] → Forall (fun r => (newline ∉ chars r) ∧ r ≠ EmptyString) rows →
  trailer = EmptyString ∨ trailer = endl →
  items newline (String.concat endl rows +:+ trailer) = rows.
Proof.
  intros Hne Hrows Htrailer.
  induction Hrows as [|r rows [Hfree Hr] Hrows IH]; [done|].
  destruct rows as [|r' rows].
  - change (String.concat endl [r]) with r.
    destruct Htrailer as [->| ->].
    + rewrite append_nil_r. by apply items_free.
    + change endl with (String newline EmptyString).
      by rewrite items_app_delim.
  - change (String.concat endl (r :: r' :: rows))
      with (r +:+ endl +:+ String.concat endl (r' :: rows)).
    rewrite !append_assoc.
    change (endl +:+ String.concat endl (r' :: rows) +:+ trailer)
      with (String newline (String.concat endl (r' :: rows) +:+ trailer)).
    rewrite items_app_delim by done. f_equal. by apply IH.
Qed.

Lemma csv_row_line (t : Task) :
  csv_record t → (newline ∉ chars (csv_row t)) ∧ csv_row t ≠ EmptyString.
Proof.
  intros [[_ Hname] _ Hdeps]. split.
  - unfold csv_row. rewrite !chars_app, !not_elem_of_app. split_and!.
    + done.
    + unfold chars. simpl. set_solver.
    + intros Hin. pose proof (pretty_Z_chars (duration t)) as Hc.
      rewrite Forall_forall in Hc. destruct (Hc _ Hin) as [Hd|Hd]; [|done].
      vm_compute in Hd. by destruct Hd.
    + unfold chars. simpl. set_solver.
    + apply concat_free.
      * unfold chars. simpl. set_solver.
      * eapply Forall_impl; [exact Hdeps|]. by intros ? (_ & _ & _ & ?).
  - unfold csv_row. by destruct (name t).
Qed.

Lemma loadRows_csv_rows (l : list Task) :
  Forall csv_record l →
  loadRows (map csv_row l)
  = Parsed (map (fun t => task (name t) (duration t) (dependencies t)) l).
Proof.
  induction 1 as [|t l Ht _ IH]; [done|].
  cbn [map loadRows]. rewrite loadRow_csv_row by done. cbn [parse_bind].
  by rewrite IH.
Qed.

Lemma loadCSV_csv_file_eq (header : string) (l : list Task) (trailer : string) :
  newline ∉ chars header → Forall csv_record l →
  trailer = EmptyString ∨ trailer = endl →
  loadCSV (Some (csv_file header l trailer))
  = Parsed (map (fun t => task (name t) (duration t) (dependencies t)) l).
Proof.
  intros Hheader Hl Htrailer. rewrite loadCSV_lines. unfold csv_file.
  destruct l as [|t l].
  - change (String.concat endl (header :: map csv_row [])) with header.
    destruct Htrailer as [->| ->].
    + rewrite append_nil_r. destruct (decide (header = EmptyString)) as [->|Hne].
      * done.
      * by rewrite items_free.
    + change endl with (String newline EmptyString).
      by rewrite items_app_delim.
  - change (String.concat endl (header :: map csv_row (t :: l)))
      with (header +:+ endl +:+ String.concat endl (map csv_row (t :: l))).
    rewrite !append_assoc.
    change (endl +:+ String.concat endl (map csv_row (t :: l)) +:+ trailer)
      with (String newline (String.concat endl (map csv_row (t :: l)) +:+ trailer)).
    rewrite items_app_delim by done.
    rewrite items_lines; [|done| |done].
    + by apply loadRows_csv_rows.
    + apply Forall_map. eapply Forall_impl; [exact Hl|]. apply csv_row_line.
Qed.

(** X6.  [loadCSV] reads a file in the documented format back: from a header
    line without a newline, followed by one row [name,duration,dep;dep] per
    task, with or without a newline behind the last line, it returns the
    tasks in order, each constructed from its name, duration and
    dependencies.  The header line is skipped whatever it holds. *)
Theorem loadCSV_csv_file (header : string) (l : list Task) (trailer : string) :
  newline ∉ chars header → Forall csv_record l →
  trailer = EmptyString ∨ trailer = endl →
  loadCSV (Some (csv_file header l trailer))
  = Parsed (map (fun t => task (name t) (duration t) (dependencies t)) l).
Proof. apply loadCSV_csv_file_eq. Qed.

Lemma loadCSV_csv_file_witness :
  loadCSV (Some (csv_file "task,duration,dependencies" example_tasks endl))
  = Parsed example_tasks.
Proof.
  apply (loadCSV_csv_file "task,duration,dependencies" example_tasks endl).
  - apply (bool_decide_unpack _). vm_compute. exact I.
  - repeat constructor; apply (bool_decide_unpack _); vm_compute; exact I.
  - by right.
Defined.

Lemma loadRow_Parsed (line : string) (t : Task) :
  loadRow line = Parsed t →
  ∃ cell0 cell1 rest,
    items ","%char line = cell0 :: cell1 :: rest
    ∧ name t = cell0 ∧ stoi cell1 = Parsed (duration t) ∧ successors t = []
    ∧ dependencies t
      = match rest with
        | [cell2] => splitDependencies cell2 ";"%char
        | _ => []
        end.
Proof.
  unfold loadRow. rewrite row_items.
  destruct (items ","%char line) as [|cell0 [|cell1 rest]]; simpl; [done..|].
  destruct (stoi cell1) as [d| | |] eqn:Hstoi; simpl; [|done..].
  intros [= <-]. exists cell0, cell1, rest.
  split_and!; [done..|]. cbn [dependencies task].
  by destruct rest as [|cell2 [|cell3 rest]].
Qed.

Lemma loadRow_csv_record (line : string) (t : Task) :
  newline ∉ chars line → loadRow line = Parsed t → constructed t ∧ csv_record t.
Proof.
  intros Hline (cell0 & cell1 & rest & Hitems & Hname & Hstoi & Hsucc & Hdeps)%loadRow_Parsed.
  split; [done|].
  pose proof (items_delim_free ","%char line) as Hcomma.
  pose proof (items_other_free newline ","%char line Hline) as Hnl.
  rewrite Hitems in Hcomma, Hnl.
  apply Forall_cons in Hcomma as [Hc0 Hcomma]. apply Forall_cons in Hnl as [Hn0 Hnl].
  apply Forall_cons in Hcomma as [_ Hcomma]. apply Forall_cons in Hnl as [_ Hnl].
  split.
  - by rewrite Hname.
  - by apply stoi_in_int in Hstoi.
  - rewrite Hdeps. destruct rest as [|cell2 [|? ?]]; [constructor| |constructor].
    apply Forall_cons in Hcomma as [Hc2 _]. apply Forall_cons in Hnl as [Hn2 _].
    rewrite splitDependencies_items.
    pose proof (items_delim_free ";"%char cell2) as H1.
    pose proof (items_other_free ","%char ";"%char cell2 Hc2) as H2.
    pose proof (items_other_free newline ";"%char cell2 Hn2) as H3.
    apply Forall_forall. intros d [Hd Hin]%list_elem_of_filter.
    rewrite Forall_forall in H1, H2, H3. split_and!; auto.
Qed.

Lemma loadRows_csv_record (lines : list string) (l : list Task) :
  Forall (fun line => newline ∉ chars line) lines →
  loadRows lines = Parsed l → loaded l ∧ Forall csv_record l.
Proof.
  intros Hlines. revert l.
  induction Hlines as [|line lines Hline _ IH]; intros l; cbn [loadRows].
  - intros [= <-]. split; constructor.
  - destruct (loadRow line) as [t| | |] eqn:Hrow; [|done..]. cbn [parse_bind].
    destruct (loadRows lines) as [l'| | |]; [|done..]. cbn [parse_bind].
    intros [= <-]. destruct (IH l' eq_refl) as [? ?].
    destruct (loadRow_csv_record line t Hline Hrow) as [? ?].
    split; by constructor.
Qed.

(** X7.  Whatever the file, every task that [loadCSV] returns is freshly
    constructed (no successors), has a name without comma and newline, an
    [int] duration, and dependency names that are not empty and hold no
    semicolon, comma or newline. *)
Theorem loadCSV_records (file : option string) (l : list Task) :
  loadCSV file = Parsed l → loaded l ∧ Forall csv_record l.
Proof.
  destruct file as [content|].
  - rewrite loadCSV_lines.
    pose proof (items_delim_free newline content) as Hlines.
    destruct (items newline content) as [|header lines].
    + intros [= <-]. split; constructor.
    + apply Forall_cons in Hlines as [_ Hlines]. by apply loadRows_csv_record.
  - intros [= <-]. split; constructor.
Qed.

Lemma loadCSV_records_witness :
  loaded example_tasks ∧ Forall csv_record example_tasks.
Proof.
  apply (loadCSV_records (Some (csv_file "task,duration,dependencies" example_tasks endl))).
  vm_compute. reflexivity.
Defined.

(** *** Lines that do not load *)

Lemma items_lines_then (rows : list string) (rest : string) :
  rows ≠ [] → Forall (fun r => newline ∉ chars r) rows →
  items newline (String.concat endl rows +:+ String newline rest)
  = rows ++ items newline rest.
Proof.
  intros Hne Hrows. induction Hrows as [|r rows Hr Hrows IH]; [done|].
  destruct rows as [|r' rows].
  - change (String.concat endl [r]) with r. by rewrite items_app_delim.
  - change (String.concat endl (r :: r' :: rows))
      with (r +:+ endl +:+ String.concat endl (r' :: rows)).
    rewrite !append_assoc.
    change (endl +:+ String.concat endl (r' :: rows) +:+ String newline rest)
      with (String newline (String.concat endl (r' :: rows) +:+ String newline rest)).
    rewrite items_app_delim by done. cbn [app]. f_equal. by apply IH.
Qed.

Lemma loadRows_app_failure (l : list Task) (line : string) (more : list string) :
  Forall csv_record l → (∀ t, loadRow line ≠ Parsed t) →
  loadRows (map csv_row l ++ line :: more) = failure (loadRow line).
Proof.
  intros Hl Hline. induction Hl as [|t l Ht _ IH]; cbn [map app loadRows].
  - specialize (Hline). destruct (loadRow line) as [t| | |]; [by destruct (Hline t)|done..].
  - rewrite loadRow_csv_row by done. cbn [parse_bind]. rewrite IH.
    by destruct (loadRow line).
Qed.

Lemma loadCSV_bad_line (header : string) (l : list Task) (line rest : string) :
  newline ∉ chars header → Forall csv_record l → newline ∉ chars line →
  (∀ t, loadRow line ≠ Parsed t) →
  loadCSV (Some (csv_file header l (endl +:+ line +:+ endl +:+ rest)))
  = failure (loadRow line).
Proof.
  intros Hheader Hl Hline Hbad. rewrite loadCSV_lines. unfold csv_file.
  change (endl +:+ line +:+ endl +:+ rest)
    with (String newline (line +:+ String newline rest)).
  rewrite items_lines_then; [|done|].
  - rewrite items_app_delim by done. cbn [app].
    by apply loadRows_app_failure.
  - constructor; [done|]. apply Forall_map.
    eapply Forall_impl; [exact Hl|]. intros t Ht. by apply csv_row_line.
Qed.

(** X8.  A line on which the loop body fails ends the loading with that
    failure, whatever follows it in the file: the rows before it are lost
    and the lines behind it are not read. *)
Theorem first_bad_line_stops_loading (header : string) (l : list Task)
    (line rest : string) :
  newline ∉ chars header → Forall csv_record l → newline ∉ chars line →
  (∀ t, loadRow line ≠ Parsed t) →
  loadCSV (Some (csv_file header l (endl +:+ line +:+ endl +:+ rest)))
  = failure (loadRow line).
Proof. apply loadCSV_bad_line. Qed.

Lemma first_bad_line_stops_loading_witness :
  loadCSV (Some (csv_file "task,duration,dependencies" [task "a" 2 []]
                   (endl +:+ "b,three,a" +:+ endl +:+ "c,2,a")))
  = InvalidArgument.
Proof.
  apply (first_bad_line_stops_loading "task,duration,dependencies" [task "a" 2 []]
           "b,three,a" "c,2,a").
  - apply (bool_decide_unpack _). vm_compute. exact I.
  - repeat constructor; apply (bool_decide_unpack _); vm_compute; exact I.
  - apply (bool_decide_unpack _). vm_compute. exact I.
  - intros t. vm_compute. discriminate.
Defined.

Lemma loadRow_no_comma (line : string) :
  ","%char ∉ chars line → loadRow line = OutOfBounds.
Proof.
  intros Hfree. unfold loadRow. rewrite row_items.
  destruct (decide (line = EmptyString)) as [->|Hne]; [done|].
  by rewrite items_free.
Qed.

(** X9.  A line without a comma behind the header, a blank line for one, makes
    [loadCSV] read [row[1]] beyond the end of the row. *)
Theorem line_without_comma_out_of_bounds (header : string) (l : list Task)
    (line rest : string) :
  newline ∉ chars header → Forall csv_record l →
  newline ∉ chars line → ","%char ∉ chars line →
  loadCSV (Some (csv_file header l (endl +:+ line +:+ endl +:+ rest))) = OutOfBounds.
Proof.
  intros Hheader Hl Hline Hcomma.
  rewrite loadCSV_bad_line by (by rewrite ?loadRow_no_comma).
  by rewrite loadRow_no_comma.
Qed.

Lemma line_without_comma_out_of_bounds_witness :
  loadCSV (Some (csv_file "task,duration,dependencies" [task "a" 2 []]
                   (endl +:+ EmptyString +:+ endl +:+ "c,2,a")))
  = OutOfBounds.
Proof.
  apply (line_without_comma_out_of_bounds "task,duration,dependencies"
           [task "a" 2 []] EmptyString "c,2,a").
  - apply (bool_decide_unpack _). vm_compute. exact I.
  - repeat constructor; apply (bool_decide_unpack _); vm_compute; exact I.
  - apply (bool_decide_unpack _). vm_compute. exact I.
  - apply (bool_decide_unpack _). vm_compute. exact I.
Defined.

(** X10.  The dependencies are read from rows of exactly three cells: a row
    with a fourth cell gives a task without dependencies. *)
Theorem extra_cell_drops_dependencies (t : Task) (extra : string) :
  csv_record t → extra ≠ EmptyString → ","%char ∉ chars extra →
  loadRow (csv_row t +:+ "," +:+ extra) = Parsed (task (name t) (duration t) []).
Proof.
  intros [[Hname _] Hdur Hdeps] Hne Hextra.
  unfold loadRow. rewrite row_items. unfold csv_row. rewrite !append_assoc.
  change ("," +:+ pretty (duration t) +:+ "," +:+ String.concat ";" (dependencies t)
            +:+ "," +:+ extra)
    with (String ","%char
            (pretty (duration t) +:+ "," +:+ String.concat ";" (dependencies t)
               +:+ "," +:+ extra)).
  rewrite items_app_delim by done.
  change ("," +:+ String.concat ";" (dependencies t) +:+ "," +:+ extra)
    with (String ","%char (String.concat ";" (dependencies t) +:+ "," +:+ extra)).
  rewrite items_app_delim.
  2:{ intros Hin. pose proof (pretty_Z_chars (duration t)) as Hc.
      rewrite Forall_forall in Hc. destruct (Hc _ Hin) as [Hd|Hd]; [|done].
      vm_compute in Hd. by destruct Hd. }
  change ("," +:+ extra) with (String ","%char extra).
  rewrite items_app_delim.
  2:{ apply concat_free.
      - unfold chars. simpl. set_solver.
      - eapply Forall_impl; [exact Hdeps|]. by intros ? (_ & _ & ? & _). }
  rewrite items_free by done. simpl.
  pose proof (stoi_pretty_app (duration t) EmptyString Hdur I) as Hstoi.
  rewrite append_nil_r in Hstoi. by rewrite Hstoi.
Qed.

Lemma extra_cell_drops_dependencies_witness :
  loadRow "d,5,b;c,late" = Parsed (task "d" 5 []).
Proof.
  apply (extra_cell_drops_dependencies (task "d" 5 ["b"; "c"]) "late").
  - repeat constructor; apply (bool_decide_unpack _); vm_compute; exact I.
  - discriminate.
  - apply (bool_decide_unpack _). vm_compute. exact I.
Defined.

(** X11.  When the file cannot be opened, or holds the header line only,
    [loadCSV] returns the empty vector, and the program then writes the
    header line of [output.csv] and the line [Task] of [timeline.csv] and
    nothing else, at every recursion depth. *)
Theorem no_tasks_headers_only (fuel : nat) (file : option string) :
  file = None
  ∨ (∃ header, (newline ∉ chars header)
       ∧ (file = Some header ∨ file = Some (header +:+ endl))) →
  loadCSV file = Parsed []
  ∧ main fuel [] = Returns ("task,duration,ES,EF,LS,LF,slack" +:+ endl, "Task" +:+ endl).
Proof.
  intros Hfile. split; [|done].
  destruct Hfile as [->|(header & Hheader & [->| ->])]; [done|..].
  - rewrite <- (append_nil_r header).
    by apply (loadCSV_csv_file_eq header [] EmptyString); [|constructor|left].
  - by apply (loadCSV_csv_file_eq header [] endl); [|constructor|right].
Qed.

Lemma no_tasks_headers_only_witness :
  loadCSV None = Parsed []
  ∧ main 0 [] = Returns ("task,duration,ES,EF,LS,LF,slack" +:+ endl, "Task" +:+ endl).
Proof. apply (no_tasks_headers_only 0 None). by left. Defined.

(** ** The two lookups *)

(** X12.  [getTaskFromList] returns the first task of the list that bears the
    name when there is one, and otherwise throws "Task not found: " followed
    by the name; it does not recurse. *)
Theorem lookup_first_or_throws (n : string) (l : list Task) :
  match getTaskFromList n l with
  | Returns t => ∃ i, first_named n l i t
  | Throws what => what = "Task not found: " +:+ n ∧ n ∉ names l
  | OutOfFuel => False
  end.
Proof.
  destruct (getTaskFromList n l) as [t|w|] eqn:H.
  - by apply getTaskFromList_Returns.
  - by apply getTaskFromList_Throws in H.
  - by apply getTaskFromList_fuel in H.
Qed.

(** X13.  [getTaskObjectFromList] and [getTaskFromList] agree: the reference
    that the first returns is to the task that the second returns, and they
    throw the same error. *)
Theorem lookups_agree (n : string) (l : list Task) :
  match getTaskObjectFromList n l with
  | Returns i => ∃ t, l !! i = Some t ∧ getTaskFromList n l = Returns t
  | Throws what => getTaskFromList n l = Throws what
  | OutOfFuel => False
  end.
Proof.
  destruct (getTaskObjectFromList n l) as [i|w|] eqn:H.
  - apply getTaskObjectFromList_Returns in H as [t Ht].
    exists t. split; [apply Ht|]. apply getTaskFromList_Returns. by exists i.
  - apply getTaskObjectFromList_Throws in H. by apply getTaskFromList_Throws.
  - by apply getTaskObjectFromList_fuel in H.
Qed.

Lemma first_named_NoDup (l : list Task) (i : nat) (t : Task) :
  NoDup (names l) → l !! i = Some t → first_named (name t) l i t.
Proof.
  intros Hnd Hi. split_and!; [done..|].
  intros j u Hj Hu Heq.
  pose proof (NoDup_names_lookup l j i u t Hnd Hu Hi Heq). lia.
Qed.

(** X14.  When the names of the list are unique, looking up the name of the
    task at a position returns that task, and a reference to that
    position. *)
Theorem lookup_unique_names (l : list Task) (i : nat) (t : Task) :
  NoDup (names l) → l !! i = Some t →
  getTaskFromList (name t) l = Returns t
  ∧ getTaskObjectFromList (name t) l = Returns i.
Proof.
  intros Hnd Hi. pose proof (first_named_NoDup l i t Hnd Hi) as Hfirst. split.
  - apply getTaskFromList_Returns. by exists i.
  - apply getTaskObjectFromList_Returns. by exists t.
Qed.

Lemma lookup_unique_names_witness :
  getTaskFromList "c" example_tasks = Returns (task "c" 2 ["a"])
  ∧ getTaskObjectFromList "c" example_tasks = Returns 2%nat.
Proof.
  apply (lookup_unique_names example_tasks 2 (task "c" 2 ["a"])).
  - apply (bool_decide_unpack _). vm_compute. exact I.
  - reflexivity.
Defined.

(** ** [populateSuccessors] *)

Lemma pushSuccessor_fuel tname deps st : pushSuccessor tname deps st ≠ OutOfFuel.
Proof.
  revert st. induction deps as [|d deps IH]; intros st; [done|].
  simpl. destruct (getTaskObjectFromList d st) as [j|w|] eqn:Hj; simpl.
  - apply IH.
  - done.
  - by apply getTaskObjectFromList_fuel in Hj.
Qed.

Lemma for_range_fuel body i n st :
  (∀ k s, body k s ≠ OutOfFuel) → for_range body i n st ≠ OutOfFuel.
Proof.
  intros Hbody. revert i st. induction n as [|n IH]; intros i st; [done|].
  simpl. specialize (Hbody i st). destruct (body i st); simpl; [apply IH|done..].
Qed.

Lemma resolved_or_unresolved (l : list Task) : resolved l ∨ unresolved l.
Proof.
  destruct (decide (Forall (fun t => Forall (fun d => d ∈ names l) (dependencies t)) l))
    as [H|H].
  - left. intros t d Ht Hd. rewrite Forall_forall in H.
    specialize (H t Ht). rewrite Forall_forall in H. by apply H.
  - right. apply not_Forall_Exists in H; [|apply _].
    apply Exists_exists in H as (t & Ht & H).
    apply not_Forall_Exists in H; [|apply _].
    apply Exists_exists in H as (d & Hd & H). by exists t, d.
Qed.

(** X15.  [populateSuccessors] returns exactly when every dependency name
    resolves, and then changes the successor lists only; otherwise it throws
    "Task not found" for a name in no record.  It does not recurse. *)
Theorem populateSuccessors_outcome (l : list Task) :
  match populateSuccessors l with
  | Returns l' => resolved l ∧ Forall2 succ_eq l l'
  | Throws what => task_not_found l what ∧ unresolved l
  | OutOfFuel => False
  end.
Proof.
  destruct (populateSuccessors l) as [l'|w|] eqn:H.
  - apply populateSuccessors_Returns in H as (? & ? & _). done.
  - split; [by apply populateSuccessors_Throws|].
    destruct (resolved_or_unresolved l) as [Hr|Hu]; [|done].
    apply populateSuccessors_returns in Hr as [l' Hl']. congruence.
  - revert H. apply for_range_fuel. intros k s.
    destruct (s !! k); [apply pushSuccessor_fuel|done].
Qed.

(** X16.  On a freshly loaded list with unique names, [populateSuccessors]
    makes the successors the transpose of the dependencies: [s] is a
    successor of [t] exactly when the task named [s] lists [t] as a
    dependency. *)
Theorem successors_transpose (l l' : list Task) :
  loaded l → NoDup (names l) → populateSuccessors l = Returns l' →
  ∀ t' s, t' ∈ l' → s ∈ successors t' ↔ depends_on l s (name t').
Proof.
  intros Hload Hnd Hpop t' s [j Hj]%list_elem_of_lookup.
  rewrite (populated_successors l l' j t' s Hload Hpop Hj).
  apply populateSuccessors_Returns in Hpop as (Heq & _ & _).
  destruct (Forall2_lookup_r _ _ _ _ _ Heq Hj) as (t & Ht & Htt').
  assert (name t = name t') as Hname by apply Htt'.
  unfold depends_on. split.
  - intros (u & Hu & Hs & Hd & _). by exists u.
  - intros (u & Hu & Hs & Hd). exists u. split_and!; [done..|].
    rewrite <- Hname. apply getTaskObjectFromList_Returns. exists t.
    by apply first_named_NoDup.
Qed.

Lemma successors_transpose_witness :
  ∃ l', populateSuccessors example_tasks = Returns l'
    ∧ ∀ t' s, t' ∈ l' → s ∈ successors t' ↔ depends_on example_tasks s (name t').
Proof.
  eexists. split; [vm_compute; reflexivity|].
  apply (successors_transpose example_tasks).
  - apply loadedb_sound. vm_compute. reflexivity.
  - apply (bool_decide_unpack _). vm_compute. exact I.
  - vm_compute. reflexivity.
Defined.

(** ** The three update loops *)

(** X17.  The forward pass rewrites the vector that its recursion reads, and
    the rewriting does not show in the scores: the pass returns exactly when
    [getEarlyStartScore] returns on every task of the vector as it was before
    the pass, and sets [ES] to that score and [EF] to [ES + duration]. *)
Theorem forward_pass_pointwise (fuel : nat) (l l' : list Task) :
  updateAllEarlyVars fuel l = Returns l' ↔
  Forall2 (fun t t' => ∃ es,
    getEarlyStartScore fuel t l = Returns es
    ∧ t' = set_EF (int_add es (duration t)) (set_ES es t)) l l'.
Proof.
  rewrite updateAllEarlyVars_mapM, mapM_Returns.
  split; intros H; (eapply Forall2_impl; [exact H|]); intros t t';
    unfold early_update; rewrite bind_Returns;
    intros (es & Hes & Ht); exists es; split; congruence.
Qed.

(** X18.  The same for the backward pass: every [LF] is the score of
    [getLateFinishScore] on the vector as it was before the pass, and [LS] is
    [LF - duration]. *)
Theorem backward_pass_pointwise (fuel : nat) (l l' : list Task) :
  updateAllLateVars fuel l = Returns l' ↔
  Forall2 (fun t t' => ∃ lf,
    getLateFinishScore fuel t l = Returns lf
    ∧ t' = set_LS (int_sub lf (duration t)) (set_LF lf t)) l l'.
Proof.
  rewrite updateAllLateVars_mapM, mapM_Returns.
  split; intros H; (eapply Forall2_impl; [exact H|]); intros t t';
    unfold late_update; rewrite bind_Returns;
    intros (lf & Hlf & Ht); exists lf; split; congruence.
Qed.

(** X19.  [updateAllSlack] always returns, and sets the slack of every task to
    [LS - ES] in [int] arithmetic, leaving everything else. *)
Theorem slack_pass_total (l : list Task) :
  updateAllSlack l = Returns (map (fun t => set_slack (int_sub (LS t) (ES t)) t) l).
Proof.
  rewrite updateAllSlack_mapM. apply mapM_Returns.
  induction l; by constructor.
Qed.

(** ** The passes together *)

Lemma early_eq_trans (a b c : Task) : early_eq a b → early_eq b c → early_eq a c.
Proof. intros (? & ? & ?) (? & ? & ?). split_and!; congruence. Qed.

(** X20.  Whenever the passes return, the vector holds the same tasks in the
    same order: no name, duration or dependency list is changed. *)
Theorem passes_preserve_tasks (fuel : nat) (l out : list Task) :
  run_passes fuel l = Returns out → Forall2 early_eq l out.
Proof.
  intros (l1 & l2 & l3 & H1 & H2 & H3 & H4)%run_passes_stages.
  apply populateSuccessors_Returns in H2 as (H2 & _ & _).
  apply early_update_eq in H1.
  assert (Forall2 early_eq l l1) as E1.
  { eapply Forall2_impl; [exact H1|]. by intros ? ? [? _]. }
  assert (Forall2 early_eq l1 l2) as E2.
  { eapply Forall2_impl; [exact H2|]. intros a b (? & ? & ? & _). by split_and!. }
  assert (Forall2 early_eq l2 l3) as E3.
  { eapply Forall2_impl; [exact H3|]. intros a b Hab.
    unfold late_update in Hab. apply bind_Returns in Hab as (lf & _ & [= <-]).
    by split_and!. }
  assert (Forall2 early_eq l3 out) as E4.
  { eapply Forall2_impl; [exact H4|]. intros a b [= <-]. by split_and!. }
  eapply Forall2_trans; [apply early_eq_trans|exact E1|].
  eapply Forall2_trans; [apply early_eq_trans|exact E2|].
  eapply Forall2_trans; [apply early_eq_trans|exact E3|exact E4].
Qed.

Lemma passes_preserve_tasks_witness :
  ∃ out, run_passes 5 example_tasks = Returns out ∧ Forall2 early_eq example_tasks out.
Proof.
  eexists. split; [vm_compute; reflexivity|].
  apply (passes_preserve_tasks 5). vm_compute. reflexivity.
Defined.

(** X21.  On a freshly loaded list the passes complete, at some recursion
    depth, exactly when every dependency name resolves and the dependency
    relation is acyclic. *)
Theorem passes_complete_iff (l : list Task) :
  loaded l →
  (∃ fuel, returns (run_passes fuel l)) ↔ resolved l ∧ acyclic l.
Proof.
  intros Hload. split.
  - intros [fuel Hret]. split.
    + destruct (resolved_or_unresolved l) as [Hr|Hu]; [done|].
      destruct Hret as [out Hout].
      apply run_passes_stages in Hout as (l1 & _ & _ & H1 & _).
      rewrite <- mapM_Returns, <- updateAllEarlyVars_mapM in H1.
      destruct (early_pass_unresolved fuel l Hu). by exists l1.
    + intros a Ha. apply (run_passes_cycle fuel l); [by exists a|done].
  - intros [Hr Ha]. exists (S (length l)). apply run_passes_returns; [done..|lia].
Qed.

Lemma passes_complete_iff_witness :
  (∃ fuel, returns (run_passes fuel example_tasks))
  ↔ resolved example_tasks ∧ acyclic example_tasks.
Proof.
  apply (passes_complete_iff example_tasks).
  apply loadedb_sound. vm_compute. reflexivity.
Defined.

(** ** The recurrences of the schedule *)

(** X22.  On every valid input, the early start of a task is the maximum of the
    early finishes of its dependencies: 0 without dependencies, and otherwise
    at least the early finish of every dependency and equal to that of
    one. *)
Theorem early_start_is_max (fuel : nat) (l : list Task) :
  valid_dag l → loaded l → (length l < fuel)%nat →
  ∃ out, run_passes fuel l = Returns out ∧
    ∀ t, t ∈ out →
      (dependencies t = [] → ES t = 0)
      ∧ (∀ d, d ∈ dependencies t → ∃ u, u ∈ out ∧ name u = d ∧ EF u ≤ ES t)
      ∧ (dependencies t ≠ [] → ∃ u, u ∈ out ∧ name u ∈ dependencies t ∧ EF u = ES t).
Proof.
  intros Hv Hload Hfuel.
  destruct (schedule_of_valid fuel l Hv Hload Hfuel) as (out & Hrun & _ & Hs & Hvo).
  exists out. split; [done|]. intros t Ht. split_and!.
  - intros Hd. destruct (ES_max fuel out Hs t Ht) as [_ [H0|(u & _ & Hu & _)]]; [done|].
    rewrite Hd in Hu. by apply elem_of_nil in Hu.
  - intros d Hd. by apply (ES_ge fuel out Hs t d).
  - intros Hd. destruct (ES_max fuel out Hs t Ht) as [_ [H0|H]]; [|done].
    destruct (dependencies t) as [|d deps] eqn:Hdeps; [done|].
    destruct (ES_ge fuel out Hs t d Ht) as (u & Hu & Hname & Hle).
    { rewrite Hdeps. left. }
    exists u. split_and!; [done| |].
    + rewrite Hname. left.
    + destruct (early_bounds fuel out Hs Hvo u Hu) as (? & ? & _).
      pose proof (durations_nonneg out Hvo u Hu). lia.
Qed.

Lemma early_start_is_max_witness :
  ∃ out, run_passes 5 example_tasks = Returns out ∧
    ∀ t, t ∈ out →
      (dependencies t = [] → ES t = 0)
      ∧ (∀ d, d ∈ dependencies t → ∃ u, u ∈ out ∧ name u = d ∧ EF u ≤ ES t)
      ∧ (dependencies t ≠ [] → ∃ u, u ∈ out ∧ name u ∈ dependencies t ∧ EF u = ES t).
Proof.
  apply (early_start_is_max 5 example_tasks).
  - apply (valid_dagb_sound example_rank). vm_compute. reflexivity.
  - apply loadedb_sound. vm_compute. reflexivity.
  - simpl. lia.
Defined.

(** X23.  On every valid input, the late finish of a task with successors is
    the minimum of the late starts of its successors: at most the late start
    of every successor and equal to that of one.  Without successors it is
    the task's own early finish. *)
Theorem late_finish_is_min (fuel : nat) (l : list Task) :
  valid_dag l → loaded l → (length l < fuel)%nat →
  ∃ out, run_passes fuel l = Returns out ∧
    ∀ t, t ∈ out →
      (successors t = [] → LF t = EF t)
      ∧ (∀ s, s ∈ successors t → ∃ u, u ∈ out ∧ name u = s ∧ LF t ≤ LS u)
      ∧ (successors t ≠ [] → ∃ u, u ∈ out ∧ name u ∈ successors t ∧ LF t = LS u).
Proof.
  intros Hv Hload Hfuel.
  destruct (schedule_of_valid fuel l Hv Hload Hfuel) as (out & Hrun & _ & Hs & Hvo).
  exists out. split; [done|]. intros t Ht. split_and!.
  - by apply (LF_leaf fuel out Hs).
  - intros s Hsucc. by apply (LF_le fuel out Hs t s).
  - intros Hne. destruct (LF_min fuel out Hs t Ht Hne) as [Hmax|H]; [|done].
    destruct (successors t) as [|s ss] eqn:Hsucc; [done|].
    destruct (LF_le fuel out Hs t s Ht) as (_ & u & Hu & Hname & Hle).
    { rewrite Hsucc. left. }
    exists u. split_and!; [done| |].
    + rewrite Hname. left.
    + destruct (late_bounds fuel out Hs Hvo u Hu) as (_ & HP & HLS).
      pose proof (projectLength_bound fuel out Hs Hvo).
      pose proof (durations_nonneg out Hvo u Hu). lia.
Qed.

Lemma late_finish_is_min_witness :
  ∃ out, run_passes 5 example_tasks = Returns out ∧
    ∀ t, t ∈ out →
      (successors t = [] → LF t = EF t)
      ∧ (∀ s, s ∈ successors t → ∃ u, u ∈ out ∧ name u = s ∧ LF t ≤ LS u)
      ∧ (successors t ≠ [] → ∃ u, u ∈ out ∧ name u ∈ successors t ∧ LF t = LS u).
Proof.
  apply (late_finish_is_min 5 example_tasks).
  - apply (valid_dagb_sound example_rank). vm_compute. reflexivity.
  - apply loadedb_sound. vm_compute. reflexivity.
  - simpl. lia.
Defined.

(** X24.  On every valid input the slack computed as [LS - ES] is also
    [LF - EF]. *)
Theorem slack_two_ways (fuel : nat) (l : list Task) :
  valid_dag l → loaded l → (length l < fuel)%nat →
  ∃ out, run_passes fuel l = Returns out ∧
    ∀ t, t ∈ out → slack t = LS t - ES t ∧ slack t = LF t - EF t.
Proof.
  intros Hv Hload Hfuel.
  destruct (schedule_of_valid fuel l Hv Hload Hfuel) as (out & Hrun & _ & Hs & Hvo).
  exists out. split; [done|]. intros t Ht.
  by destruct (slack_bounds fuel out Hs Hvo t Ht) as (? & ? & _).
Qed.

Lemma slack_two_ways_witness :
  ∃ out, run_passes 5 example_tasks = Returns out ∧
    ∀ t, t ∈ out → slack t = LS t - ES t ∧ slack t = LF t - EF t.
Proof.
  apply (slack_two_ways 5 example_tasks).
  - apply (valid_dagb_sound example_rank). vm_compute. reflexivity.
  - apply loadedb_sound. vm_compute. reflexivity.
  - simpl. lia.
Defined.

(** ** Longest chains *)

Lemma early_chain_dependency_chain out rc t :
  early_chain out rc t → dependency_chain out rc t.
Proof. induction 1; by constructor. Qed.

Lemma dependency_chain_elem_of out rc t : dependency_chain out rc t → t ∈ out.
Proof. by destruct 1. Qed.

Lemma dependency_chain_le fuel out rc t :
  scheduled fuel out → valid_dag out →
  dependency_chain out rc t → sum_durations rc ≤ ES t.
Proof.
  intros Hs Hv. induction 1 as [t Ht|rc u t Hc IH Ht Hd].
  - simpl. by destruct (early_bounds fuel out Hs Hv t Ht) as (? & _).
  - pose proof (dependency_chain_elem_of _ _ _ Hc) as Hu.
    destruct (ES_ge fuel out Hs t (name u) Ht Hd) as (u' & Hu' & Hname & Hle).
    rewrite (out_eq out Hv u' u Hu' Hu Hname) in Hle.
    destruct (early_bounds fuel out Hs Hv u Hu) as (_ & HEF & _).
    simpl. lia.
Qed.

(** X25.  On every valid input the early start of a task is the length of its
    longest chain of dependencies: no chain of dependencies leading to the
    task has a larger sum of durations, and one has exactly that sum. *)
Theorem early_start_longest_chain (fuel : nat) (l : list Task) :
  valid_dag l → loaded l → (length l < fuel)%nat →
  ∃ out, run_passes fuel l = Returns out ∧
    ∀ t, t ∈ out →
      (∀ rc, dependency_chain out rc t → sum_durations rc ≤ ES t)
      ∧ (∃ rc, dependency_chain out rc t ∧ sum_durations rc = ES t).
Proof.
  intros Hv Hload Hfuel.
  destruct (schedule_of_valid fuel l Hv Hload Hfuel) as (out & Hrun & _ & Hs & Hvo).
  exists out. split; [done|]. intros t Ht. split.
  - intros rc. by apply (dependency_chain_le fuel).
  - destruct (early_chain_exists fuel out Hs Hvo t Ht) as (rc & Hrc & Hsum).
    exists rc. split; [by apply early_chain_dependency_chain|done].
Qed.

Lemma early_start_longest_chain_witness :
  ∃ out, run_passes 5 example_tasks = Returns out ∧
    ∀ t, t ∈ out →
      (∀ rc, dependency_chain out rc t → sum_durations rc ≤ ES t)
      ∧ (∃ rc, dependency_chain out rc t ∧ sum_durations rc = ES t).
Proof.
  apply (early_start_longest_chain 5 example_tasks).
  - apply (valid_dagb_sound example_rank). vm_compute. reflexivity.
  - apply loadedb_sound. vm_compute. reflexivity.
  - simpl. lia.
Defined.

Lemma sum_durations_early_eq l out :
  Forall2 early_eq l out → sum_durations out = sum_durations l.
Proof.
  induction 1 as [|a b l out (_ & Hd & _) _ IH]; [done|]. simpl. by rewrite IH, Hd.
Qed.

(** X26.  On every valid input the project length of the timeline is at most
    the sum of all durations and at least every single duration, and no
    chain of dependencies takes longer than it. *)
Theorem project_length_bounds (fuel : nat) (l : list Task) :
  valid_dag l → loaded l → (length l < fuel)%nat →
  ∃ out, run_passes fuel l = Returns out ∧
    projectLength out ≤ sum_durations l
    ∧ (∀ t, t ∈ l → duration t ≤ projectLength out)
    ∧ (∀ t rc, dependency_chain out rc t →
         sum_durations (t :: rc) ≤ projectLength out).
Proof.
  intros Hv Hload Hfuel.
  destruct (schedule_of_valid fuel l Hv Hload Hfuel) as (out & Hrun & Heq & Hs & Hvo).
  exists out. split; [done|]. split_and!.
  - rewrite <- (sum_durations_early_eq l out Heq).
    destruct (projectLength_attained out) as [H0 [HP|(t & Ht & HP)]].
    + rewrite HP. apply sum_durations_nonneg, Hvo.
    + rewrite <- HP. by apply (early_bounds fuel out Hs Hvo t Ht).
  - intros t [j Hj]%list_elem_of_lookup.
    destruct (Forall2_lookup_l _ _ _ _ _ Heq Hj) as (t' & Hj' & (_ & Hd & _)).
    apply list_elem_of_lookup_2 in Hj'.
    pose proof (projectLength_ge out t' Hj').
    destruct (early_bounds fuel out Hs Hvo t' Hj') as (? & ? & _). lia.
  - intros t rc Hc.
    pose proof (dependency_chain_elem_of _ _ _ Hc) as Ht.
    pose proof (dependency_chain_le fuel out rc t Hs Hvo Hc).
    pose proof (projectLength_ge out t Ht).
    destruct (early_bounds fuel out Hs Hvo t Ht) as (_ & ? & _). simpl. lia.
Qed.

Lemma project_length_bounds_witness :
  ∃ out, run_passes 5 example_tasks = Returns out ∧
    projectLength out ≤ sum_durations example_tasks
    ∧ (∀ t, t ∈ example_tasks → duration t ≤ projectLength out)
    ∧ (∀ t rc, dependency_chain out rc t →
         sum_durations (t :: rc) ≤ projectLength out).
Proof.
  apply (project_length_bounds 5 example_tasks).
  - apply (valid_dagb_sound example_rank). vm_compute. reflexivity.
  - apply loadedb_sound. vm_compute. reflexivity.
  - simpl. lia.
Defined.

(** ** [timeline.csv] *)

(** X27.  [timeline.csv] is the line [Task,0,1,...] with one column per time
    unit below the project length, followed by one line per task, in the
    order of the vector, of the task's name and one cell per time unit. *)
Theorem timeline_layout (taskList : list Task) :
  outputTimelineCSV taskList
  = ("Task"
       +:+ flatten (map (fun time => "," +:+ pretty time)
                      (seqZ 0 (projectLength taskList)))
       +:+ endl)
    +:+ flatten (map (fun t => timelineRow t (projectLength taskList)) taskList).
Proof.
  unfold outputTimelineCSV. cbv zeta.
  rewrite (fold_left_append (fun time => "," +:+ pretty time)).
  rewrite append_assoc.
  generalize ("Task"
     +:+ flatten (map (fun time => "," +:+ pretty time)
                    (seqZ 0 (projectLength taskList))) +:+ endl).
  generalize (projectLength taskList). intros len.
  induction taskList as [|t taskList IH]; intros file; simpl.
  - by rewrite append_nil_r.
  - rewrite IH. rewrite (fold_left_append (timelineCell t)).
    unfold timelineRow, timelineCells. by rewrite !append_assoc.
Qed.

Lemma map_seqZ_const {A} (f : Z → A) (m n : Z) (c : A) :
  (∀ k, m ≤ k < m + n → f k = c) → map f (seqZ m n) = replicate (Z.to_nat n) c.
Proof.
  intros Hf. symmetry. apply replicate_as_elem_of. split.
  - by rewrite length_map, length_seqZ.
  - intros y Hy. change (map f (seqZ m n)) with (f <$> seqZ m n) in Hy.
    apply list_elem_of_fmap in Hy as (k & -> & Hk). apply elem_of_seqZ in Hk. auto.
Qed.

(** X28.  On every valid input the cells of a task in [timeline.csv] are [ES]
    inactive cells, then [duration] active cells, all [C] when the slack is 0
    and all [X] otherwise, then inactive cells up to the project length. *)
Theorem timeline_row_shape (fuel : nat) (l : list Task) :
  valid_dag l → loaded l → (length l < fuel)%nat →
  ∃ out, run_passes fuel l = Returns out ∧
    ∀ t, t ∈ out →
      timelineCells t (projectLength out)
      = replicate (Z.to_nat (ES t)) ",O"
        ++ replicate (Z.to_nat (duration t)) (if decide (slack t = 0) then ",C" else ",X")
        ++ replicate (Z.to_nat (projectLength out - EF t)) ",O".
Proof.
  intros Hv Hload Hfuel.
  destruct (schedule_of_valid fuel l Hv Hload Hfuel) as (out & Hrun & _ & Hs & Hvo).
  exists out. split; [done|]. intros t Ht.
  destruct (early_bounds fuel out Hs Hvo t Ht) as (HES & HEF & _).
  pose proof (durations_nonneg out Hvo t Ht) as Hd.
  pose proof (projectLength_ge out t Ht) as HP.
  unfold timelineCells.
  replace (projectLength out)
    with (ES t + (duration t + (projectLength out - EF t))) at 1 by lia.
  rewrite seqZ_app by lia. rewrite seqZ_app by lia.
  rewrite !map_app. f_equal; [|f_equal].
  - apply map_seqZ_const. intros k Hk. unfold timelineCell.
    rewrite decide_False by lia. done.
  - apply map_seqZ_const. intros k Hk. unfold timelineCell.
    rewrite decide_True by lia. done.
  - apply map_seqZ_const. intros k Hk. unfold timelineCell.
    rewrite decide_False by lia. done.
Qed.

Lemma timeline_row_shape_witness :
  ∃ out, run_passes 5 example_tasks = Returns out ∧
    ∀ t, t ∈ out →
      timelineCells t (projectLength out)
      = replicate (Z.to_nat (ES t)) ",O"
        ++ replicate (Z.to_nat (duration t)) (if decide (slack t = 0) then ",C" else ",X")
        ++ replicate (Z.to_nat (projectLength out - EF t)) ",O".
Proof.
  apply (timeline_row_shape 5 example_tasks).
  - apply (valid_dagb_sound example_rank). vm_compute. reflexivity.
  - apply loadedb_sound. vm_compute. reflexivity.
  - simpl. lia.
Defined.

(** ** [output.csv] *)

Lemma outputTaskCSV_layout (taskList : list Task) :
  outputTaskCSV taskList
  = ("task,duration,ES,EF,LS,LF,slack" +:+ endl)
    +:+ flatten (map (fun t => taskRow t +:+ endl) taskList).
Proof.
  unfold outputTaskCSV.
  rewrite (fold_left_append (fun t =>
    name t +:+ "," +:+ pretty (duration t) +:+ "," +:+ pretty (ES t) +:+ ","
      +:+ pretty (EF t) +:+ "," +:+ pretty (LS t) +:+ "," +:+ pretty (LF t) +:+ ","
      +:+ pretty (slack t) +:+ endl)).
  f_equal. f_equal. apply map_ext. intros t. unfold taskRow.
  by rewrite !append_assoc.
Qed.

Lemma items_flatten_lines (rows : list string) :
  Forall (fun r => newline ∉ chars r) rows →
  items newline (flatten (map (fun r => r +:+ endl) rows)) = rows.
Proof.
  induction 1 as [|r rows Hr _ IH]; [done|].
  cbn [map flatten foldr]. fold (flatten (map (fun r => r +:+ endl) rows)).
  rewrite append_assoc.
  change (endl +:+ flatten (map (fun r => r +:+ endl) rows))
    with (String newline (flatten (map (fun r => r +:+ endl) rows))).
  rewrite items_app_delim by done. by rewrite IH.
Qed.

Lemma taskRow_cells (t : Task) :
  plain_name t →
  (newline ∉ chars (taskRow t))
  ∧ items ","%char (taskRow t)
    = [name t; pretty (duration t); pretty (ES t); pretty (EF t); pretty (LS t);
       pretty (LF t); pretty (slack t)].
Proof.
  intros [Hcomma Hnl].
  assert (∀ z : Z, ","%char ∉ chars (pretty z)) as Hpc.
  { intros z. by apply pretty_Z_free. }
  assert (∀ z : Z, newline ∉ chars (pretty z)) as Hpn.
  { intros z. by apply pretty_Z_free. }
  assert (newline ∉ chars ",") as Hsep.
  { unfold chars. simpl. set_solver. }
  split.
  - unfold taskRow. rewrite !chars_app, !not_elem_of_app. by split_and!.
  - unfold taskRow.
    repeat (match goal with
            | |- context [?a +:+ "," +:+ ?b] =>
                change (a +:+ "," +:+ b) with (a +:+ String ","%char b)
            end; rewrite items_app_delim by done; f_equal).
    apply items_free; [done|apply pretty_Z_nonempty].
Qed.

(** X29.  [output.csv] loses nothing: when no name holds a comma or a newline,
    two vectors with the same [output.csv] have the same length and, position
    by position, the same name, duration, ES, EF, LS, LF and slack. *)
Theorem output_determines_schedule (l l' : list Task) :
  Forall plain_name l → Forall plain_name l' →
  outputTaskCSV l = outputTaskCSV l' → Forall2 same_row l l'.
Proof.
  intros Hl Hl'. rewrite !outputTaskCSV_layout. intros Heq%(inj _).
  apply (f_equal (items newline)) in Heq.
  rewrite <- !(map_map taskRow (fun r => r +:+ endl)) in Heq.
  rewrite !items_flatten_lines in Heq.
  2,3: apply Forall_map; (eapply Forall_impl; [eassumption|]);
       intros t Ht; by apply taskRow_cells.
  revert l' Hl' Heq. induction Hl as [|t l Ht _ IH]; intros l' Hl' Heq.
  - destruct l'; [constructor|done].
  - destruct Hl' as [|t' l' Ht' Hl']; [done|].
    injection Heq as Hrow Hrest. constructor; [|by apply IH].
    apply (f_equal (items ","%char)) in Hrow.
    rewrite (proj2 (taskRow_cells t Ht)), (proj2 (taskRow_cells t' Ht')) in Hrow.
    injection Hrow as H0 H1 H2 H3 H4 H5 H6.
    unfold same_row. split_and!; [done|by apply (inj pretty)..].
Qed.

Lemma output_determines_schedule_witness :
  Forall2 same_row
    [mkTask "a" 2 [] ["b"; "c"] 0 2 0 2 0; mkTask "b" 3 ["a"] ["d"] 2 5 2 5 0;
     mkTask "c" 2 ["a"] ["d"] 2 4 3 5 1; mkTask "d" 5 ["b"; "c"] [] 5 10 5 10 0]
    [mkTask "a" 2 ["x"] [] 0 2 0 2 0; mkTask "b" 3 [] [] 2 5 2 5 0;
     mkTask "c" 2 [] ["y"] 2 4 3 5 1; mkTask "d" 5 [] [] 5 10 5 10 0].
Proof.
  apply output_determines_schedule.
  - repeat constructor; apply (bool_decide_unpack _); vm_compute; exact I.
  - repeat constructor; apply (bool_decide_unpack _); vm_compute; exact I.
  - vm_compute. reflexivity.
Defined.

(** ** From the file to the schedule *)

(** X30.  From a file in the documented format whose tasks form a valid DAG,
    the program loads the tasks, completes the passes and writes the two
    files, with every task of the file scheduled, in the order of the
    file. *)
Theorem valid_file_is_scheduled (fuel : nat) (header : string) (l : list Task)
    (trailer : string) :
  newline ∉ chars header → Forall csv_record l → valid_dag l →
  trailer = EmptyString ∨ trailer = endl → (length l < fuel)%nat →
  ∃ tasks out,
    loadCSV (Some (csv_file header l trailer)) = Parsed tasks
    ∧ run_passes fuel tasks = Returns out
    ∧ main fuel tasks = Returns (outputTaskCSV out, outputTimelineCSV out)
    ∧ Forall2 early_eq l out.
Proof.
  intros Hheader Hl Hv Htrailer Hfuel.
  set (tasks := map (fun t => task (name t) (duration t) (dependencies t)) l).
  assert (Forall2 early_eq l tasks) as Heq.
  { subst tasks. clear. induction l; by constructor. }
  assert (loaded tasks) as Hload.
  { subst tasks. clear. induction l; by constructor. }
  pose proof (early_eq_valid_dag l tasks Heq Hv) as Hvt.
  destruct (schedule_of_valid fuel tasks Hvt Hload) as (out & Hrun & Heq' & _).
  { by rewrite <- (Forall2_length _ _ _ Heq). }
  exists tasks, out. split_and!.
  - by apply loadCSV_csv_file_eq.
  - done.
  - unfold main. by rewrite Hrun.
  - eapply Forall2_trans; [apply early_eq_trans|exact Heq|exact Heq'].
Qed.

Lemma valid_file_is_scheduled_witness :
  ∃ tasks out,
    loadCSV (Some (csv_file "task,duration,dependencies" example_tasks endl))
    = Parsed tasks
    ∧ run_passes 5 tasks = Returns out
    ∧ main 5 tasks = Returns (outputTaskCSV out, outputTimelineCSV out)
    ∧ Forall2 early_eq example_tasks out.
Proof.
  apply (valid_file_is_scheduled 5 "task,duration,dependencies" example_tasks endl).
  - apply (bool_decide_unpack _). vm_compute. exact I.
  - repeat constructor; apply (bool_decide_unpack _); vm_compute; exact I.
  - apply (valid_dagb_sound example_rank). vm_compute. reflexivity.
  - by right.
  - simpl. lia.
Defined.
